(** * The OSI alarm engine (osi/src/alarm.c): a shallow embedding

    The alarm service keeps every armed alarm in one list ordered by
    deadline, hands expired alarms to worker queues from a dispatcher
    thread, and chooses between an in-process timer guarded by a wake
    lock and a kernel wake alarm each time the front of the list changes.

    Modelling choices.
    - [period_ms_t] is [uint64_t]: values are integers in [0, 2^64) and
      every arithmetic operation of the source is followed by [wrap64].
      [size_t] counters are taken to be 64 bits wide as well.
    - Pointers to alarms and queues are addresses ([nat]); a pointer
      argument that may be NULL is an [option]. The alarm records live in
      a heap, the contents of the fixed queues in a second map.
    - All functions that touch the global variables run in a state and
      error monad: a failed [assert], a dereference of a dangling pointer
      and a division by zero stop the run with a [fault].
    - The operating system is an oracle: the n-th interaction with it
      (clock read, wake-lock callout, timer read-back, resource creation)
      gets the answer the environment record gives for n. Every call that
      leaves the process is also written to a trace of events.
    - The monitor serialises the critical sections, so each function that
      takes the monitor is one atomic step; the mutexes themselves are not
      part of the state. *)

From Stdlib Require Import ZArith Lia Sorted String.
From stdpp Require Import base option list sorting gmap.

Local Open Scope Z_scope.

(** ** Machine integers *)

Definition wrap64 (z : Z) : Z := z mod 2 ^ 64.

(** Conversion of a [uint64_t] value to [int64_t] (two's complement). *)
Definition to_int64 (z : Z) : Z := (z + 2 ^ 63) mod 2 ^ 64 - 2 ^ 63.

Definition BT_STATUS_SUCCESS : Z := 0.

(** ** Data *)

Definition alarm_ptr := nat.
Definition queue_ptr := nat.
Definition alarm_callback_t := nat.

Record stat_t := mk_stat {
  count : Z;
  total_ms : Z;
  max_ms : Z;
}.

Record alarm_stats_t := mk_stats {
  name : string;
  scheduled_count : Z;
  canceled_count : Z;
  rescheduled_count : Z;
  total_updates : Z;
  last_update_ms : Z;
  callback_execution : stat_t;
  overdue_scheduling : stat_t;
  premature_scheduling : stat_t;
}.

Record alarm_t := mk_alarm {
  creation_time : Z;
  period : Z;
  deadline : Z;
  prev_deadline : Z;
  is_periodic : bool;
  queue : option queue_ptr;
  callback : option alarm_callback_t;
  data : Z;
  stats : alarm_stats_t;
}.

(** Calls that leave the alarm engine, newest first in the trace. *)
Inductive event :=
| EvAcquireWakeLock (status : Z)
| EvReleaseWakeLock
| EvSetWakeAlarm (delay_ms : Z) (accepted : bool)
| EvTimerSettime (tv_sec tv_nsec : Z)
| EvTimerDelete
| EvCallback (cb : alarm_callback_t) (arg : Z).

Record state := mk_state {
  heap : gmap nat alarm_t;
  next_alarm : nat;
  queues : gmap nat (list alarm_ptr);
  next_queue : nat;
  alarms : option (list alarm_ptr);
  timer_set : bool;
  dispatcher_thread_active : bool;
  alarm_expired : option nat;
  default_callback_queue : option queue_ptr;
  TIMER_INTERVAL_FOR_WAKELOCK_IN_MS : Z;
  trace : list event;
  ticks : nat;
}.

(** The state of the process before the first call into the service. *)
Definition initial_state : state :=
  {| heap := ∅; next_alarm := 1%nat; queues := ∅; next_queue := 1%nat;
     alarms := None; timer_set := false; dispatcher_thread_active := false;
     alarm_expired := None; default_callback_queue := None;
     TIMER_INTERVAL_FOR_WAKELOCK_IN_MS := 3000; trace := []; ticks := 0%nat |}.

(** *** Field updates *)

Definition set_deadline (v : Z) (a : alarm_t) : alarm_t :=
  mk_alarm (creation_time a) (period a) v (prev_deadline a) (is_periodic a)
           (queue a) (callback a) (data a) (stats a).
Definition set_prev_deadline (v : Z) (a : alarm_t) : alarm_t :=
  mk_alarm (creation_time a) (period a) (deadline a) v (is_periodic a)
           (queue a) (callback a) (data a) (stats a).
Definition set_callback (v : option alarm_callback_t) (a : alarm_t) : alarm_t :=
  mk_alarm (creation_time a) (period a) (deadline a) (prev_deadline a)
           (is_periodic a) (queue a) v (data a) (stats a).
Definition set_data (v : Z) (a : alarm_t) : alarm_t :=
  mk_alarm (creation_time a) (period a) (deadline a) (prev_deadline a)
           (is_periodic a) (queue a) (callback a) v (stats a).
Definition set_queue (v : option queue_ptr) (a : alarm_t) : alarm_t :=
  mk_alarm (creation_time a) (period a) (deadline a) (prev_deadline a)
           (is_periodic a) v (callback a) (data a) (stats a).
Definition set_creation_time (v : Z) (a : alarm_t) : alarm_t :=
  mk_alarm v (period a) (deadline a) (prev_deadline a) (is_periodic a)
           (queue a) (callback a) (data a) (stats a).
Definition set_period (v : Z) (a : alarm_t) : alarm_t :=
  mk_alarm (creation_time a) v (deadline a) (prev_deadline a) (is_periodic a)
           (queue a) (callback a) (data a) (stats a).
Definition set_stats (v : alarm_stats_t) (a : alarm_t) : alarm_t :=
  mk_alarm (creation_time a) (period a) (deadline a) (prev_deadline a)
           (is_periodic a) (queue a) (callback a) (data a) v.

Definition incr_scheduled_count (st : alarm_stats_t) : alarm_stats_t :=
  mk_stats (name st) (wrap64 (scheduled_count st + 1)) (canceled_count st)
           (rescheduled_count st) (total_updates st) (last_update_ms st)
           (callback_execution st) (overdue_scheduling st)
           (premature_scheduling st).
Definition incr_canceled_count (st : alarm_stats_t) : alarm_stats_t :=
  mk_stats (name st) (scheduled_count st) (wrap64 (canceled_count st + 1))
           (rescheduled_count st) (total_updates st) (last_update_ms st)
           (callback_execution st) (overdue_scheduling st)
           (premature_scheduling st).
Definition incr_rescheduled_count (st : alarm_stats_t) : alarm_stats_t :=
  mk_stats (name st) (scheduled_count st) (canceled_count st)
           (wrap64 (rescheduled_count st + 1)) (total_updates st)
           (last_update_ms st) (callback_execution st) (overdue_scheduling st)
           (premature_scheduling st).

Definition with_heap (v : gmap nat alarm_t) (s : state) : state :=
  mk_state v (next_alarm s) (queues s) (next_queue s) (alarms s) (timer_set s)
           (dispatcher_thread_active s) (alarm_expired s)
           (default_callback_queue s) (TIMER_INTERVAL_FOR_WAKELOCK_IN_MS s)
           (trace s) (ticks s).
Definition with_next_alarm (v : nat) (s : state) : state :=
  mk_state (heap s) v (queues s) (next_queue s) (alarms s) (timer_set s)
           (dispatcher_thread_active s) (alarm_expired s)
           (default_callback_queue s) (TIMER_INTERVAL_FOR_WAKELOCK_IN_MS s)
           (trace s) (ticks s).
Definition with_queues (v : gmap nat (list alarm_ptr)) (s : state) : state :=
  mk_state (heap s) (next_alarm s) v (next_queue s) (alarms s) (timer_set s)
           (dispatcher_thread_active s) (alarm_expired s)
           (default_callback_queue s) (TIMER_INTERVAL_FOR_WAKELOCK_IN_MS s)
           (trace s) (ticks s).
Definition with_next_queue (v : nat) (s : state) : state :=
  mk_state (heap s) (next_alarm s) (queues s) v (alarms s) (timer_set s)
           (dispatcher_thread_active s) (alarm_expired s)
           (default_callback_queue s) (TIMER_INTERVAL_FOR_WAKELOCK_IN_MS s)
           (trace s) (ticks s).
Definition with_alarms (v : option (list alarm_ptr)) (s : state) : state :=
  mk_state (heap s) (next_alarm s) (queues s) (next_queue s) v (timer_set s)
           (dispatcher_thread_active s) (alarm_expired s)
           (default_callback_queue s) (TIMER_INTERVAL_FOR_WAKELOCK_IN_MS s)
           (trace s) (ticks s).
Definition with_timer_set (v : bool) (s : state) : state :=
  mk_state (heap s) (next_alarm s) (queues s) (next_queue s) (alarms s) v
           (dispatcher_thread_active s) (alarm_expired s)
           (default_callback_queue s) (TIMER_INTERVAL_FOR_WAKELOCK_IN_MS s)
           (trace s) (ticks s).
Definition with_dispatcher_thread_active (v : bool) (s : state) : state :=
  mk_state (heap s) (next_alarm s) (queues s) (next_queue s) (alarms s)
           (timer_set s) v (alarm_expired s) (default_callback_queue s)
           (TIMER_INTERVAL_FOR_WAKELOCK_IN_MS s) (trace s) (ticks s).
Definition with_alarm_expired (v : option nat) (s : state) : state :=
  mk_state (heap s) (next_alarm s) (queues s) (next_queue s) (alarms s)
           (timer_set s) (dispatcher_thread_active s) v
           (default_callback_queue s) (TIMER_INTERVAL_FOR_WAKELOCK_IN_MS s)
           (trace s) (ticks s).
Definition with_default_callback_queue (v : option queue_ptr) (s : state) : state :=
  mk_state (heap s) (next_alarm s) (queues s) (next_queue s) (alarms s)
           (timer_set s) (dispatcher_thread_active s) (alarm_expired s) v
           (TIMER_INTERVAL_FOR_WAKELOCK_IN_MS s) (trace s) (ticks s).
Definition with_trace (v : list event) (s : state) : state :=
  mk_state (heap s) (next_alarm s) (queues s) (next_queue s) (alarms s)
           (timer_set s) (dispatcher_thread_active s) (alarm_expired s)
           (default_callback_queue s) (TIMER_INTERVAL_FOR_WAKELOCK_IN_MS s)
           v (ticks s).
Definition with_ticks (v : nat) (s : state) : state :=
  mk_state (heap s) (next_alarm s) (queues s) (next_queue s) (alarms s)
           (timer_set s) (dispatcher_thread_active s) (alarm_expired s)
           (default_callback_queue s) (TIMER_INTERVAL_FOR_WAKELOCK_IN_MS s)
           (trace s) v.

(** ** The monad of the engine *)

Inductive fault :=
| AssertionFailed
| InvalidPointer
| DivisionByZero
| OutOfFuel
| NotInSource.

Inductive result (A : Type) :=
| Ok (a : A)
| Abort (f : fault).
Arguments Ok {A} a.
Arguments Abort {A} f.

Definition M (A : Type) : Type := state → result (A * state).

Definition ret {A} (a : A) : M A := λ s, Ok (a, s).
Definition bind {A B} (c : M A) (k : A → M B) : M B :=
  λ s, match c s with
       | Ok (a, s') => k a s'
       | Abort f => Abort f
       end.
Definition abort {A} (f : fault) : M A := λ _, Abort f.
Definition gets {A} (f : state → A) : M A := λ s, Ok (f s, s).
Definition modify (f : state → state) : M unit := λ s, Ok (tt, f s).
Definition assert (b : bool) : M unit :=
  if b then ret tt else abort AssertionFailed.

Declare Scope alarm_scope.
Delimit Scope alarm_scope with alarm.
Notation "x <- c1 ;; c2" := (bind c1 (λ x, c2))
  (at level 100, c1 at next level, right associativity) : alarm_scope.
Notation "c1 ;; c2" := (bind c1 (λ _, c2))
  (at level 100, right associativity) : alarm_scope.
Local Open Scope alarm_scope.

(** The final state of a run, when it ends normally. *)
Definition exec {A} (c : M A) (s : state) : option state :=
  match c s with Ok (_, s') => Some s' | Abort _ => None end.

(** ** The world outside the engine *)

(** Calls of the public interface, as a client or a callback makes them. *)
Inductive api_call :=
| Call_alarm_new (nm : string)
| Call_alarm_new_periodic (nm : string)
| Call_alarm_set (alarm : option alarm_ptr) (interval_ms : Z)
    (cb : option alarm_callback_t) (arg : Z)
| Call_alarm_set_on_queue (alarm : option alarm_ptr) (interval_ms : Z)
    (cb : option alarm_callback_t) (arg : Z) (q : option queue_ptr)
| Call_alarm_cancel (alarm : option alarm_ptr)
| Call_alarm_free (alarm : option alarm_ptr)
| Call_alarm_is_scheduled (alarm : option alarm_ptr)
| Call_alarm_get_remaining_ms (alarm : option alarm_ptr)
| Call_alarm_unregister_processing_queue (q : option queue_ptr)
| Call_alarm_cleanup
| Call_fixed_queue_new.

(** What the operating system and the client code answer. The index is
    the number of interactions that came before. *)
Class os_env := {
  (** [clock_gettime(CLOCK_BOOTTIME)]: [None] is the result -1, otherwise
      the pair (tv_sec, tv_nsec). *)
  clock_gettime : nat → option (Z * Z);
  (** Status returned by [bt_os_callouts->acquire_wake_lock]. *)
  acquire_wake_lock : nat → Z;
  (** Result of [bt_os_callouts->set_wake_alarm]. *)
  set_wake_alarm : nat → bool;
  (** [it_value] read back by [timer_gettime]. *)
  timer_gettime : nat → Z * Z;
  (** Whether a resource creation ([list_new], [timer_create],
      [semaphore_new], [thread_new], [fixed_queue_new]) succeeds. *)
  resource_created : nat → bool;
  (** The calls the user callback [cb] makes when run on [arg]. *)
  callback_body : alarm_callback_t → Z → list api_call;
}.

Section Engine.
Context {env : os_env}.

Definition tick : M nat :=
  λ s, Ok (ticks s, with_ticks (S (ticks s)) s).

Definition emit (e : event) : M unit :=
  modify (λ s, with_trace (e :: trace s) s).

(** Dereference of an [alarm_t *]. *)
Definition load (p : alarm_ptr) : M alarm_t :=
  λ s, match heap s !! p with
       | Some a => Ok (a, s)
       | None => Abort InvalidPointer
       end.

(** Assignment to fields of [*p]. *)
Definition store (p : alarm_ptr) (f : alarm_t → alarm_t) : M unit :=
  a <- load p ;;
  modify (λ s, with_heap (<[p := f a]> (heap s)) s).

(** The list behind the global [alarms]; the list functions assert that
    their argument is not NULL. *)
Definition the_alarms : M (list alarm_ptr) :=
  λ s, match alarms s with
       | Some l => Ok (l, s)
       | None => Abort AssertionFailed
       end.

Definition put_alarms (l : list alarm_ptr) : M unit :=
  modify (with_alarms (Some l)).

(** *** The generic list (osi/src/list.c) *)

(** Modelled from the spec: the generic linked list is an external
    collaborator whose source is not part of the repository files;
    [list_remove] unlinks the first node holding the given element and
    does nothing when there is none. *)
Fixpoint list_remove (l : list alarm_ptr) (x : alarm_ptr) : list alarm_ptr :=
  match l with
  | [] => []
  | y :: tl => if decide (y = x) then tl else y :: list_remove tl x
  end.

(** [!list_is_empty(alarms) && list_front(alarms) == alarm] *)
Definition is_front (l : list alarm_ptr) (alarm : alarm_ptr) : bool :=
  match l with
  | [] => false
  | x :: _ => bool_decide (x = alarm)
  end.

(** *** The fixed queue (osi/src/fixed_queue.c) *)

Definition load_queue (q : queue_ptr) : M (list alarm_ptr) :=
  λ s, match queues s !! q with
       | Some items => Ok (items, s)
       | None => Abort InvalidPointer
       end.

Definition store_queue (q : queue_ptr) (items : list alarm_ptr) : M unit :=
  modify (λ s, with_queues (<[q := items]> (queues s)) s).

(** Modelled from the spec: the bounded FIFO queue is an external
    collaborator; [try_remove_from_queue] removes one copy of the item
    wherever it sits and returns it, or returns NULL when the queue is
    NULL or does not hold the item. The result here is whether the
    returned pointer is non-NULL. *)
Definition fixed_queue_try_remove_from_queue
    (q : option queue_ptr) (x : alarm_ptr) : M bool :=
  match q with
  | None => ret false
  | Some q =>
      items <- load_queue q ;;
      if bool_decide (x ∈ items)
      then store_queue q (list_remove items x) ;; ret true
      else ret false
  end.

(** Modelled from the spec: [enqueue] appends at the tail (the capacity
    bound of the queue is not modelled). *)
Definition fixed_queue_enqueue (q : option queue_ptr) (x : alarm_ptr) : M unit :=
  match q with
  | None => abort AssertionFailed
  | Some q => items <- load_queue q ;; store_queue q (items ++ [x])
  end.

(** Modelled from the spec: [try_dequeue] takes the head, or returns NULL
    when the queue is empty. *)
Definition fixed_queue_try_dequeue (q : queue_ptr) : M (option alarm_ptr) :=
  items <- load_queue q ;;
  match items with
  | [] => ret None
  | x :: tl => store_queue q tl ;; ret (Some x)
  end.

Definition fixed_queue_new : M (option queue_ptr) :=
  n <- tick ;;
  if resource_created n then
    q <- gets next_queue ;;
    modify (λ s, with_next_queue (S q) (with_queues (<[q := []]> (queues s)) s)) ;;
    ret (Some q)
  else ret None.

Definition fixed_queue_free (q : option queue_ptr) : M unit :=
  match q with
  | None => ret tt
  | Some q => modify (λ s, with_queues (delete q (queues s)) s)
  end.

(** *** The semaphore [alarm_expired] *)

Definition semaphore_post : M unit :=
  λ s, match alarm_expired s with
       | Some n => Ok (tt, with_alarm_expired (Some (S n)) s)
       | None => Abort AssertionFailed
       end.

(** ** The engine *)

Definition update_stat (stat : stat_t) (delta : Z) : stat_t :=
  let stat1 :=
    if max_ms stat <? delta
    then mk_stat (count stat) (total_ms stat) delta
    else stat in
  mk_stat (wrap64 (count stat1 + 1)) (wrap64 (total_ms stat1 + delta))
          (max_ms stat1).

(** [now()]: the boot clock in milliseconds; 0 when the clock cannot be
    read. *)
Definition now : M Z :=
  al <- gets alarms ;;
  assert (bool_decide (is_Some al)) ;;
  n <- tick ;;
  match clock_gettime n with
  | None => ret 0
  | Some (tv_sec, tv_nsec) =>
      ret (wrap64 (tv_sec * 1000 + tv_nsec `quot` 1000000))
  end.

(** The body of the [while] loop of [remove_pending_alarm]: one pass per
    copy of the alarm in the queue, and a last one that finds none. *)
Fixpoint remove_queued_copies (fuel : nat) (alarm : alarm_ptr) : M unit :=
  match fuel with
  | O => abort OutOfFuel
  | S fuel' =>
      a <- load alarm ;;
      removed <- fixed_queue_try_remove_from_queue (queue a) alarm ;;
      if removed then remove_queued_copies fuel' alarm else ret tt
  end.

(** Passes that are enough for the loop above: one more than the length
    of the alarm's queue. *)
Definition queue_fuel (alarm : alarm_ptr) (s : state) : nat :=
  match heap s !! alarm with
  | Some a =>
      match queue a with
      | Some q => S (length (default [] (queues s !! q)))
      | None => 1%nat
      end
  | None => 1%nat
  end.

Definition remove_pending_alarm (alarm : alarm_ptr) : M unit :=
  l <- the_alarms ;;
  put_alarms (list_remove l alarm) ;;
  fuel <- gets (queue_fuel alarm) ;;
  remove_queued_copies fuel alarm.

(** The [for] loop of [schedule_next_instance] over the nodes of a
    non-empty list: the alarm goes after the first node whose successor
    is the end of the list or has a strictly later deadline. *)
Fixpoint insert_after_scan (alarm : alarm_ptr) (d : Z)
    (nodes : list alarm_ptr) : M (list alarm_ptr) :=
  match nodes with
  | [] => ret []
  | node :: rest =>
      match rest with
      | [] => ret [node; alarm]
      | next :: _ =>
          n <- load next ;;
          if d <? deadline n then ret (node :: alarm :: rest)
          else tl <- insert_after_scan alarm d rest ;; ret (node :: tl)
      end
  end.

(** [a % b] on [uint64_t]. *)
Definition umod (a b : Z) : M Z :=
  if b =? 0 then abort DivisionByZero else ret (a mod b).

(** [it_value] of the absolute wake-up time for a deadline. *)
Definition it_value_of (deadline_ms : Z) : Z * Z :=
  (deadline_ms / 1000, (deadline_ms mod 1000) * 1000000).

Definition it_value_set (it_value : Z * Z) : bool :=
  negb (fst it_value =? 0) || negb (snd it_value =? 0).

(** [reschedule_root_alarm] from the label [done] on. *)
Definition reschedule_done (timer_was_set : bool) (wakeup_time : Z * Z)
    : M unit :=
  modify (with_timer_set (it_value_set wakeup_time)) ;;
  now_set <- gets timer_set ;;
  (if timer_was_set && negb now_set then emit EvReleaseWakeLock else ret tt) ;;
  emit (EvTimerSettime (fst wakeup_time) (snd wakeup_time)) ;;
  now_set <- gets timer_set ;;
  if now_set then
    n <- tick ;;
    let time_to_expire := timer_gettime n in
    if (fst time_to_expire =? 0) && (snd time_to_expire =? 0)
    then semaphore_post
    else ret tt
  else ret tt.

Definition reschedule_root_alarm : M unit :=
  timer_was_set <- gets timer_set ;;
  l <- the_alarms ;;
  match l with
  | [] => reschedule_done timer_was_set (0, 0)
  | next_p :: _ =>
      next <- load next_p ;;
      t <- now ;;
      let next_expiration := to_int64 (wrap64 (deadline next - t)) in
      threshold <- gets TIMER_INTERVAL_FOR_WAKELOCK_IN_MS ;;
      if next_expiration <? threshold then
        held <- gets timer_set ;;
        if held then reschedule_done timer_was_set (it_value_of (deadline next))
        else
          n <- tick ;;
          let status := acquire_wake_lock n in
          emit (EvAcquireWakeLock status) ;;
          if status =? BT_STATUS_SUCCESS
          then reschedule_done timer_was_set (it_value_of (deadline next))
          else reschedule_done timer_was_set (0, 0)
      else
        n <- tick ;;
        emit (EvSetWakeAlarm (wrap64 next_expiration) (set_wake_alarm n)) ;;
        reschedule_done timer_was_set (0, 0)
  end.

Definition schedule_next_instance (alarm : alarm_ptr) : M unit :=
  l <- the_alarms ;;
  let needs_reschedule := is_front l alarm in
  a <- load alarm ;;
  (if callback a is Some _ then remove_pending_alarm alarm else ret tt) ;;
  just_now <- now ;;
  a <- load alarm ;;
  ms_into_period <-
    (if is_periodic a && negb (period a =? 0)
     then umod (wrap64 (just_now - creation_time a)) (period a)
     else ret 0) ;;
  let d := wrap64 (just_now + wrap64 (period a - ms_into_period)) in
  store alarm (set_deadline d) ;;
  l <- the_alarms ;;
  l' <-
    match l with
    | [] => ret [alarm]
    | front :: _ =>
        f <- load front ;;
        if d <? deadline f then ret (alarm :: l)
        else insert_after_scan alarm d l
    end ;;
  put_alarms l' ;;
  if needs_reschedule || is_front l' alarm
  then reschedule_root_alarm
  else ret tt.

Definition alarm_cancel_internal (alarm : alarm_ptr) : M unit :=
  l <- the_alarms ;;
  let needs_reschedule := is_front l alarm in
  remove_pending_alarm alarm ;;
  store alarm (λ a,
    set_queue None
      (set_stats (incr_canceled_count (stats a))
        (set_data 0 (set_callback None
          (set_prev_deadline 0 (set_deadline 0 a)))))) ;;
  if needs_reschedule then reschedule_root_alarm else ret tt.

(** Modelled from the spec: the body of [update_scheduling_stats] is not
    part of the repository files. It counts the update, records the
    callback's execution time, and records the scheduling jitter
    [t0 - deadline] as overdue when positive and as premature, by its
    absolute value, when negative. *)
Definition update_scheduling_stats (st : alarm_stats_t)
    (now_ms deadline_ms execution_delta_ms : Z) : alarm_stats_t :=
  let exec' := update_stat (callback_execution st) execution_delta_ms in
  let overdue' :=
    if deadline_ms <? now_ms
    then update_stat (overdue_scheduling st) (wrap64 (now_ms - deadline_ms))
    else overdue_scheduling st in
  let premature' :=
    if now_ms <? deadline_ms
    then update_stat (premature_scheduling st) (wrap64 (deadline_ms - now_ms))
    else premature_scheduling st in
  mk_stats (name st) (scheduled_count st) (canceled_count st)
           (rescheduled_count st) (wrap64 (total_updates st + 1)) now_ms
           exec' overdue' premature'.

(** *** Lazy initialisation and teardown *)

Definition try_create : M bool :=
  n <- tick ;; ret (resource_created n).

(** The paths of [lazy_initialize] that leave through [goto error] end in
    [NotInSource]: the code at that label is not in the file. *)
Definition lazy_initialize : M bool :=
  al <- gets alarms ;;
  assert (bool_decide (al = None)) ;;
  have_list <- try_create ;;
  if negb have_list then ret false else
  put_alarms [] ;;
  have_timer <- try_create ;;
  if negb have_timer then ret false else
  have_wakeup_timer <- try_create ;;
  if negb have_wakeup_timer then abort NotInSource else
  have_semaphore <- try_create ;;
  if negb have_semaphore
  then modify (with_alarm_expired None) ;; ret false else
  modify (with_alarm_expired (Some 0%nat)) ;;
  have_thread <- try_create ;;
  if negb have_thread then abort NotInSource else
  q <- fixed_queue_new ;;
  modify (with_default_callback_queue q) ;;
  if negb (bool_decide (is_Some q)) then abort NotInSource else
  modify (with_dispatcher_thread_active true) ;;
  have_dispatcher <- try_create ;;
  if negb have_dispatcher then ret false else
  ret true.

Definition zeroed_stats (nm : string) : alarm_stats_t :=
  mk_stats nm 0 0 0 0 0 (mk_stat 0 0 0) (mk_stat 0 0 0) (mk_stat 0 0 0).

Definition zeroed_alarm (nm : string) (periodic : bool) : alarm_t :=
  mk_alarm 0 0 0 0 periodic None None 0 (zeroed_stats nm).

Definition alarm_new_internal (nm : string) (periodic : bool)
    : M (option alarm_ptr) :=
  al <- gets alarms ;;
  ready <- (if al is Some _ then ret true else lazy_initialize) ;;
  if negb ready then ret None else
  p <- gets next_alarm ;;
  modify (λ s, with_next_alarm (S p)
                 (with_heap (<[p := zeroed_alarm nm periodic]> (heap s)) s)) ;;
  ret (Some p).

Definition alarm_new (nm : string) : M (option alarm_ptr) :=
  alarm_new_internal nm false.

Definition alarm_new_periodic (nm : string) : M (option alarm_ptr) :=
  alarm_new_internal nm true.

Definition alarm_cleanup : M unit :=
  al <- gets alarms ;;
  if al is Some _ then
    modify (with_dispatcher_thread_active false) ;;
    semaphore_post ;;
    q <- gets default_callback_queue ;;
    fixed_queue_free q ;;
    modify (with_default_callback_queue None) ;;
    emit EvTimerDelete ;;
    emit EvTimerDelete ;;
    modify (with_alarm_expired None) ;;
    modify (with_alarms None)
  else ret tt.

(** *** The public operations *)

Definition alarm_set_internal (alarm : option alarm_ptr) (period_ms : Z)
    (cb : option alarm_callback_t) (arg : Z) (q : option queue_ptr) : M unit :=
  al <- gets alarms ;;
  assert (bool_decide (is_Some al)) ;;
  assert (bool_decide (is_Some alarm)) ;;
  assert (bool_decide (is_Some cb)) ;;
  match alarm with
  | None => abort AssertionFailed
  | Some alarm =>
      t <- now ;;
      store alarm (λ a,
        set_data arg (set_callback cb (set_queue q
          (set_period period_ms (set_creation_time t a))))) ;;
      schedule_next_instance alarm ;;
      store alarm (λ a, set_stats (incr_scheduled_count (stats a)) a)
  end.

Definition alarm_set_on_queue (alarm : option alarm_ptr) (interval_ms : Z)
    (cb : option alarm_callback_t) (arg : Z) (q : option queue_ptr) : M unit :=
  assert (bool_decide (is_Some q)) ;;
  alarm_set_internal alarm interval_ms cb arg q.

Definition alarm_set (alarm : option alarm_ptr) (interval_ms : Z)
    (cb : option alarm_callback_t) (arg : Z) : M unit :=
  q <- gets default_callback_queue ;;
  alarm_set_on_queue alarm interval_ms cb arg q.

Definition alarm_cancel (alarm : option alarm_ptr) : M unit :=
  al <- gets alarms ;;
  assert (bool_decide (is_Some al)) ;;
  match alarm with
  | None => ret tt
  | Some alarm => alarm_cancel_internal alarm
  end.

Definition alarm_free (alarm : option alarm_ptr) : M unit :=
  match alarm with
  | None => ret tt
  | Some p =>
      alarm_cancel (Some p) ;;
      modify (λ s, with_heap (delete p (heap s)) s)
  end.

Definition alarm_is_scheduled (alarm : option alarm_ptr) : M bool :=
  al <- gets alarms ;;
  match al, alarm with
  | Some _, Some p => a <- load p ;; ret (bool_decide (is_Some (callback a)))
  | _, _ => ret false
  end.

Definition alarm_get_remaining_ms (alarm : option alarm_ptr) : M Z :=
  match alarm with
  | None => abort AssertionFailed
  | Some p =>
      just_now <- now ;;
      a <- load p ;;
      if just_now <? deadline a
      then ret (wrap64 (deadline a - just_now))
      else ret 0
  end.

(** The loop of [alarm_unregister_processing_queue]: the successor of a
    node is read before the node's alarm is cancelled, so the loop visits
    the alarms that were in the list when it started. *)
Fixpoint cancel_alarms_on_queue (q : queue_ptr) (nodes : list alarm_ptr)
    : M unit :=
  match nodes with
  | [] => ret tt
  | alarm :: rest =>
      a <- load alarm ;;
      (if bool_decide (queue a = Some q)
       then alarm_cancel_internal alarm else ret tt) ;;
      cancel_alarms_on_queue q rest
  end.

Definition alarm_unregister_processing_queue (q : option queue_ptr) : M unit :=
  al <- gets alarms ;;
  assert (bool_decide (is_Some al)) ;;
  match q with
  | None => abort AssertionFailed
  | Some q => l <- the_alarms ;; cancel_alarms_on_queue q l
  end.

Definition timer_callback : M unit := semaphore_post.

(** One call of the public interface; results are dropped. *)
Definition do_call (c : api_call) : M unit :=
  match c with
  | Call_alarm_new nm => alarm_new nm ;; ret tt
  | Call_alarm_new_periodic nm => alarm_new_periodic nm ;; ret tt
  | Call_alarm_set alarm ms cb arg => alarm_set alarm ms cb arg
  | Call_alarm_set_on_queue alarm ms cb arg q =>
      alarm_set_on_queue alarm ms cb arg q
  | Call_alarm_cancel alarm => alarm_cancel alarm
  | Call_alarm_free alarm => alarm_free alarm
  | Call_alarm_is_scheduled alarm => alarm_is_scheduled alarm ;; ret tt
  | Call_alarm_get_remaining_ms alarm => alarm_get_remaining_ms alarm ;; ret tt
  | Call_alarm_unregister_processing_queue q =>
      alarm_unregister_processing_queue q
  | Call_alarm_cleanup => alarm_cleanup
  | Call_fixed_queue_new => fixed_queue_new ;; ret tt
  end.

Fixpoint do_calls (cs : list api_call) : M unit :=
  match cs with
  | [] => ret tt
  | c :: rest => do_call c ;; do_calls rest
  end.

(** *** The worker-queue handler *)

(** What [alarm_queue_ready] keeps in local variables across the
    callback. *)
Record captured := mk_captured {
  cap_alarm : alarm_ptr;
  cap_callback : option alarm_callback_t;
  cap_data : Z;
  cap_deadline : Z;
}.

(** The part of [alarm_queue_ready] that runs with the monitor held. *)
Definition alarm_queue_ready_locked (q : queue_ptr) : M (option captured) :=
  x <- fixed_queue_try_dequeue q ;;
  match x with
  | None => ret None
  | Some alarm =>
      a <- load alarm ;;
      (if is_periodic a then ret tt
       else store alarm (λ a,
              set_data 0 (set_callback None (set_deadline 0 a)))) ;;
      ret (Some (mk_captured alarm (callback a) (data a)
                   (if is_periodic a then prev_deadline a else deadline a)))
  end.

(** [callback(data)]: a call through a NULL function pointer is a fault. *)
Definition invoke (cb : option alarm_callback_t) (arg : Z) : M unit :=
  match cb with
  | None => abort InvalidPointer
  | Some f => emit (EvCallback f arg) ;; do_calls (callback_body f arg)
  end.

(** The part of [alarm_queue_ready] that runs after the monitor is
    released. *)
Definition alarm_queue_ready_unlocked (c : captured) : M unit :=
  t0 <- now ;;
  invoke (cap_callback c) (cap_data c) ;;
  t1 <- now ;;
  assert (t0 <=? t1) ;;
  let delta := wrap64 (t1 - t0) in
  store (cap_alarm c) (λ a,
    set_stats (update_scheduling_stats (stats a) t0 (cap_deadline c) delta) a).

Definition alarm_queue_ready (q : option queue_ptr) : M unit :=
  match q with
  | None => abort AssertionFailed
  | Some q =>
      c <- alarm_queue_ready_locked q ;;
      match c with
      | None => ret tt
      | Some c => alarm_queue_ready_unlocked c
      end
  end.

(** *** The dispatcher *)

Inductive dispatch_result :=
| Waiting
| Exited
| Rearmed
| Dispatched (alarm : alarm_ptr).

(** One pass through the body of the [while (true)] loop of
    [callback_dispatch]. [Waiting] is the thread blocked in
    [semaphore_wait]; [Exited] is the [break]; [Rearmed] is the
    [continue]. *)
Definition callback_dispatch_iteration : M dispatch_result :=
  sem <- gets alarm_expired ;;
  match sem with
  | None => abort AssertionFailed
  | Some O => ret Waiting
  | Some (S n) =>
      modify (with_alarm_expired (Some n)) ;;
      active <- gets dispatcher_thread_active ;;
      if negb active then ret Exited else
      l <- the_alarms ;;
      match l with
      | [] => reschedule_root_alarm ;; ret Rearmed
      | alarm :: _ =>
          a <- load alarm ;;
          t <- now ;;
          if t <? deadline a then reschedule_root_alarm ;; ret Rearmed
          else
            put_alarms (list_remove l alarm) ;;
            (if is_periodic a then
               store alarm (λ a, set_prev_deadline (deadline a) a) ;;
               schedule_next_instance alarm ;;
               store alarm (λ a, set_stats (incr_rescheduled_count (stats a)) a)
             else ret tt) ;;
            reschedule_root_alarm ;;
            a' <- load alarm ;;
            fixed_queue_enqueue (queue a') alarm ;;
            ret (Dispatched alarm)
      end
  end.

(** [callback_dispatch]: the loop runs until the thread blocks or exits. *)
Fixpoint callback_dispatch (fuel : nat) : M dispatch_result :=
  match fuel with
  | O => abort OutOfFuel
  | S fuel' =>
      r <- callback_dispatch_iteration ;;
      match r with
      | Waiting => ret Waiting
      | Exited => ret Exited
      | _ => callback_dispatch fuel'
      end
  end.

(** ** Runs of the whole service *)

(** What can happen next: a client calls the interface, a timer or wake
    alarm expires, the dispatcher thread makes one pass, or the reactor of
    a worker thread finds a queue ready. *)
Inductive step :=
| Client (c : api_call)
| Expire
| Dispatch
| Queue_ready (q : option queue_ptr).

Definition do_step (st : step) : M unit :=
  match st with
  | Client c => do_call c
  | Expire => timer_callback
  | Dispatch => callback_dispatch_iteration ;; ret tt
  | Queue_ready q => alarm_queue_ready q
  end.

Fixpoint run (sts : list step) : M unit :=
  match sts with
  | [] => ret tt
  | st :: rest => do_step st ;; run rest
  end.

(** The states the service can be in. *)
Definition reachable (s : state) : Prop :=
  ∃ sts, exec (run sts) initial_state = Some s.

(** * Vocabulary of the statements

    What the functions above do is told with the definitions below:
    the events of a call, the list an insertion leaves, the record a
    cancellation leaves, the account of the wake lock, and the
    conditions under which the pending list is well formed. *)

(** The reading of [now()] at the n-th interaction with the system. *)
Definition clock_ms (n : nat) : Z :=
  match clock_gettime n with
  | None => 0
  | Some (tv_sec, tv_nsec) => wrap64 (tv_sec * 1000 + tv_nsec `quot` 1000000)
  end.

(** Two states that hold the same alarms, list and queues; only the
    timer flag, the semaphore, the trace and the interaction count may
    differ. *)
Definition same_schedule (s s' : state) : Prop :=
  heap s' = heap s ∧ next_alarm s' = next_alarm s ∧
  queues s' = queues s ∧ next_queue s' = next_queue s ∧
  alarms s' = alarms s ∧
  dispatcher_thread_active s' = dispatcher_thread_active s ∧
  default_callback_queue s' = default_callback_queue s ∧
  TIMER_INTERVAL_FOR_WAKELOCK_IN_MS s' = TIMER_INTERVAL_FOR_WAKELOCK_IN_MS s ∧
  (is_Some (alarm_expired s) → is_Some (alarm_expired s')) ∧
  (ticks s ≤ ticks s')%nat.

(** The events of the code after [done]. *)
Definition done_events (timer_was_set : bool) (wakeup_time : Z * Z)
    : list event :=
  EvTimerSettime (fst wakeup_time) (snd wakeup_time)
  :: (if timer_was_set && negb (it_value_set wakeup_time)
      then [EvReleaseWakeLock] else []).

(** The number of milliseconds to the front deadline, as the signed
    value [next_expiration] that [reschedule_root_alarm] compares with
    the threshold. *)
Definition next_expiration (next : alarm_t) (t : Z) : Z :=
  to_int64 (wrap64 (deadline next - t)).

(** The events of one re-evaluation whose front alarm is [next], oldest
    last. *)
Definition rearm_events (s : state) (next : alarm_t) : list event :=
  let t := clock_ms (ticks s) in
  let n := S (ticks s) in
  if next_expiration next t <? TIMER_INTERVAL_FOR_WAKELOCK_IN_MS s then
    if timer_set s
    then done_events true (it_value_of (deadline next))
    else if acquire_wake_lock n =? BT_STATUS_SUCCESS
         then done_events false (it_value_of (deadline next))
              ++ [EvAcquireWakeLock (acquire_wake_lock n)]
         else done_events false (0, 0)
              ++ [EvAcquireWakeLock (acquire_wake_lock n)]
  else
    done_events (timer_set s) (0, 0)
    ++ [EvSetWakeAlarm (wrap64 (next_expiration next t)) (set_wake_alarm n)].

(** Whether the in-process timer is armed after that re-evaluation. *)
Definition rearm_timer_set (s : state) (next : alarm_t) : bool :=
  let t := clock_ms (ticks s) in
  if next_expiration next t <? TIMER_INTERVAL_FOR_WAKELOCK_IN_MS s then
    if timer_set s
    then it_value_set (it_value_of (deadline next))
    else (acquire_wake_lock (S (ticks s)) =? BT_STATUS_SUCCESS)
         && it_value_set (it_value_of (deadline next))
  else false.

(** The events a call added to the trace, newest first. *)
Definition events_since (s s' : state) : list event :=
  take (length (trace s') - length (trace s)) (trace s').

(** An event that leaves the in-process timer armed. *)
Definition arms_timer (e : event) : bool :=
  match e with
  | EvTimerSettime tv_sec tv_nsec => it_value_set (tv_sec, tv_nsec)
  | _ => false
  end.

(** An event that asks for a kernel wake alarm. *)
Definition requests_wake_alarm (e : event) : bool :=
  match e with
  | EvSetWakeAlarm _ _ => true
  | _ => false
  end.

(** The state after the copies of [alarm] left the queue it points to. *)
Definition without_queued (alarm : alarm_ptr) (a : alarm_t) (s : state)
    : state :=
  match queue a with
  | Some q =>
      with_queues
        (<[q := filter (λ y, y ≠ alarm) (default [] (queues s !! q))]> (queues s))
        s
  | None => s
  end.

(** The deadline of an alarm in a heap (0 for an address that holds no
    alarm). *)
Definition deadline_of (h : gmap nat alarm_t) (p : alarm_ptr) : Z :=
  match h !! p with
  | Some a => deadline a
  | None => 0
  end.

(** The deadline [schedule_next_instance] computes at time [just_now]. *)
Definition next_deadline (a : alarm_t) (just_now : Z) : Z :=
  let ms_into_period :=
    if is_periodic a && negb (period a =? 0)
    then wrap64 (just_now - creation_time a) mod period a
    else 0 in
  wrap64 (just_now + wrap64 (period a - ms_into_period)).

(** The list the scan of [schedule_next_instance] builds. *)
Fixpoint inserted_after (h : gmap nat alarm_t) (alarm : alarm_ptr) (d : Z)
    (nodes : list alarm_ptr) : list alarm_ptr :=
  match nodes with
  | [] => []
  | node :: rest =>
      match rest with
      | [] => [node; alarm]
      | next :: _ =>
          if d <? deadline_of h next then node :: alarm :: rest
          else node :: inserted_after h alarm d rest
      end
  end.

Definition inserted (h : gmap nat alarm_t) (alarm : alarm_ptr) (d : Z)
    (l : list alarm_ptr) : list alarm_ptr :=
  match l with
  | [] => [alarm]
  | front :: _ =>
      if d <? deadline_of h front then alarm :: l
      else inserted_after h alarm d l
  end.

(** The state [schedule_next_instance] reaches before it decides whether
    to re-evaluate the wake policy. *)
Definition inserted_state (alarm : alarm_ptr) (a : alarm_t)
    (l : list alarm_ptr) (s : state) : state :=
  let s1 :=
    if callback a is Some _
    then without_queued alarm a (with_alarms (Some (list_remove l alarm)) s)
    else s in
  let l1 := if callback a is Some _ then list_remove l alarm else l in
  let d := next_deadline a (clock_ms (ticks s)) in
  let h' := <[alarm := set_deadline d a]> (heap s) in
  with_alarms (Some (inserted h' alarm d l1))
    (with_heap h' (with_ticks (S (ticks s)) s1)).

(** The alarms of a list are all allocated. *)
Definition list_allocated (s : state) (l : list alarm_ptr) : Prop :=
  Forall (λ p, is_Some (heap s !! p)) l.

(** [avoids f c]: [c] never stops with the fault [f]. *)
Definition avoids {A} (f : fault) (c : M A) : Prop :=
  ∀ s, c s ≠ Abort f.

(** The fields [alarm_queue_ready] resets on a one-shot alarm. *)
Definition serviced (a : alarm_t) : alarm_t :=
  set_data 0 (set_callback None (set_deadline 0 a)).

(** An event that is the invocation of a user callback. *)
Definition is_callback (e : event) : bool :=
  match e with
  | EvCallback _ _ => true
  | _ => false
  end.

(** [preserves P c]: a normal return of [c] from a state in [P] ends in
    a state in [P]. *)
Definition preserves {A} (P : state → Prop) (c : M A) : Prop :=
  ∀ s a s', P s → c s = Ok (a, s') → P s'.

Definition is_acquire (e : event) : bool :=
  match e with
  | EvAcquireWakeLock _ => true
  | _ => false
  end.

Definition is_acquired (e : event) : bool :=
  match e with
  | EvAcquireWakeLock status => status =? BT_STATUS_SUCCESS
  | _ => false
  end.

Definition is_release (e : event) : bool :=
  match e with
  | EvReleaseWakeLock => true
  | _ => false
  end.

(** Calls of [acquire_wake_lock], those of them that succeeded, and
    calls of [release_wake_lock] in a trace. *)
Fixpoint count_events (f : event → bool) (tr : list event) : nat :=
  match tr with
  | [] => 0
  | e :: tl => ((if f e then 1 else 0) + count_events f tl)%nat
  end.

Definition acquire_calls (tr : list event) : nat :=
  count_events is_acquire tr.

Definition acquired (tr : list event) : nat :=
  count_events is_acquired tr.

Definition release_calls (tr : list event) : nat :=
  count_events is_release tr.

(** Re-evaluations that took the wake lock and then set the timer to the
    zero time: the lock is taken, but [timer_set] does not record it. *)
Fixpoint unrecorded (tr : list event) : nat :=
  match tr with
  | [] => 0
  | e :: tl =>
      (match e, tl with
       | EvTimerSettime tv_sec tv_nsec, e' :: _ =>
           if is_acquired e' && negb (it_value_set (tv_sec, tv_nsec))
           then 1 else 0
       | _, _ => 0
       end + unrecorded tl)%nat
  end.

(** The newest event is not the request for the wake lock: a request is
    always followed by the setting of the timer. *)
Definition settled (tr : list event) : Prop :=
  match tr with
  | e :: _ => is_acquire e = false
  | [] => True
  end.

(** The wake-lock account of a state: the successful requests are the
    releases, the lock [timer_set] stands for, and the unrecorded
    ones. *)
Definition wake_lock_account (s : state) : Prop :=
  acquired (trace s)
  = (release_calls (trace s) + (if timer_set s then 1 else 0)
     + unrecorded (trace s))%nat
  ∧ settled (trace s).

(** The record of an alarm after [alarm_cancel_internal]. *)
Definition cancelled (a : alarm_t) : alarm_t :=
  set_queue None
    (set_stats (incr_canceled_count (stats a))
      (set_data 0 (set_callback None
        (set_prev_deadline 0 (set_deadline 0 a))))).

(** The state [alarm_cancel_internal] reaches before it decides whether
    to re-evaluate the wake policy. *)
Definition cancelled_state (alarm : alarm_ptr) (a : alarm_t)
    (l : list alarm_ptr) (s : state) : state :=
  let s1 := without_queued alarm a
              (with_alarms (Some (list_remove l alarm)) s) in
  with_heap (<[alarm := cancelled a]> (heap s)) s1.

(** [x] is not due later than [y]. *)
Definition deadline_le (h : gmap nat alarm_t) : relation alarm_ptr :=
  λ x y, deadline_of h x ≤ deadline_of h y.

(** Any two adjacent entries of the list are in deadline order. *)
Definition pending_sorted (h : gmap nat alarm_t) (l : list alarm_ptr) : Prop :=
  Sorted (deadline_le h) l.

(** The list holds each alarm at most once, and only allocated alarms. *)
Definition pending_wf (s : state) : Prop :=
  ∀ l, alarms s = Some l → NoDup l ∧ list_allocated s l.

(** Whether the most recent [timer_settime] call of a trace (newest event
    first) passed a non-zero [it_value]. *)
Fixpoint last_settime_armed (tr : list event) : bool :=
  match tr with
  | [] => false
  | EvTimerSettime tv_sec tv_nsec :: _ => it_value_set (tv_sec, tv_nsec)
  | _ :: tl => last_settime_armed tl
  end.

(** The statistics after a series of measurements, oldest first. *)
Definition measured (st : stat_t) (deltas : list Z) : stat_t :=
  fold_left update_stat deltas st.
(** The record of an alarm after [alarm_set_internal] has stored its
    arguments, with the clock reading [t] as creation time. *)
Definition configured (a : alarm_t) (t period_ms : Z)
    (cb : alarm_callback_t) (arg : Z) (q : option queue_ptr) : alarm_t :=
  set_data arg (set_callback (Some cb) (set_queue q
    (set_period period_ms (set_creation_time t a)))).

(** Whether the alarm at address [p] is allocated and points to the
    processing queue [q]. *)
Definition uses_queue (h : gmap nat alarm_t) (q : queue_ptr) (p : alarm_ptr)
    : bool :=
  bool_decide (queue <$> h !! p = Some (Some q)).

(** The number of user callbacks run so far. *)
Definition callbacks_run (s : state) : nat :=
  count_events is_callback (trace s).

(** Whether [timer_gettime] reported a disarmed timer. *)
Definition reads_disarmed (time_to_expire : Z * Z) : bool :=
  (fst time_to_expire =? 0) && (snd time_to_expire =? 0).

(** The pending list is safe to dispatch from: addresses below the next
    one to allocate hold the alarms, the list holds each alarm once, and
    every alarm in it is allocated and points to a live queue. *)
Definition pending_safe (s : state) : Prop :=
  (∀ p, is_Some (heap s !! p) → (p < next_alarm s)%nat) ∧
  ∀ l, alarms s = Some l →
       NoDup l ∧
       Forall (λ p, ∃ a q, heap s !! p = Some a ∧ queue a = Some q ∧
                           is_Some (queues s !! q)) l.

End Engine.

(** * Environments and states of the concrete runs *)

(** An environment whose clock stands at [t] ms, whose wake-lock callout
    answers [status], and in which every other request succeeds. *)
Definition steady_env (t status : Z) : os_env := {|
  clock_gettime := λ _, Some (t / 1000, (t mod 1000) * 1000000);
  acquire_wake_lock := λ _, status;
  set_wake_alarm := λ _, true;
  timer_gettime := λ _, (1, 0);
  resource_created := λ _, true;
  callback_body := λ _ _, [];
|}.

(** An alarm set at 1000 ms on queue 1 with callback 7. *)
Definition sample_alarm (periodic : bool) (period_ms deadline_ms : Z)
    : alarm_t :=
  mk_alarm 1000 period_ms deadline_ms 0 periodic (Some 1%nat) (Some 7%nat) 5
           (zeroed_stats "A").

(** An initialised service with that alarm, at address 1, alone in the
    list, and the given contents of queue 1. *)
Definition sample_state (a : alarm_t) (held : bool)
    (queued : list alarm_ptr) : state :=
  mk_state {[1%nat := a]} 2%nat {[1%nat := queued]} 2%nat (Some [1%nat])
           held true (Some 0%nat) (Some 1%nat) 3000 [] 0%nat.

(** The claim of C2, on the events of one re-evaluation: some timer path
    is armed. *)
Definition arms_some_timer (s s' : state) : Prop :=
  existsb arms_timer (events_since s s')
  || existsb requests_wake_alarm (events_since s s') = true.

(** A clock that reads 1000 ms during the first thirteen interactions,
    1100 ms during the next six and 1150 ms from then on. *)
Definition staged_env : os_env := {|
  clock_gettime := λ n,
    if (n <? 13)%nat then Some (1, 0)
    else if (n <? 19)%nat then Some (1, 100000000)
    else Some (1, 150000000);
  acquire_wake_lock := λ _, BT_STATUS_SUCCESS;
  set_wake_alarm := λ _, true;
  timer_gettime := λ _, (1, 0);
  resource_created := λ _, true;
  callback_body := λ _ _, [];
|}.

(** Alarm 1 is set on queue 1 and expires, so the dispatcher moves it to
    queue 1. Before the worker of queue 1 runs, alarm 2 is set and alarm
    1 is set again, this time on queue 2: [alarm_set_internal] has
    already stored the new queue when [remove_pending_alarm] drains
    "its" queue, so the copy in queue 1 stays. The worker of queue 1
    then services that copy and zeroes the deadline of alarm 1, which is
    in the list behind alarm 2. A third alarm is set afterwards. *)
Definition requeue_run : list step :=
  [ Client (Call_alarm_new "A");
    Client (Call_alarm_new "B");
    Client Call_fixed_queue_new;
    Client (Call_alarm_set_on_queue (Some 1%nat) 100 (Some 7%nat) 0 (Some 1%nat));
    Expire;
    Dispatch;
    Client (Call_alarm_set_on_queue (Some 2%nat) 100 (Some 8%nat) 0 (Some 1%nat));
    Client (Call_alarm_set_on_queue (Some 1%nat) 200 (Some 7%nat) 0 (Some 2%nat));
    Queue_ready (Some 1%nat);
    Client (Call_alarm_new "C");
    Client (Call_alarm_set_on_queue (Some 3%nat) 500 (Some 9%nat) 0 (Some 1%nat)) ].


(** An environment whose clock stands at [t] ms and whose timer always
    reads as disarmed. *)
Definition overdue_env (t : Z) : os_env := {|
  clock_gettime := λ _, Some (t / 1000, (t mod 1000) * 1000000);
  acquire_wake_lock := λ _, BT_STATUS_SUCCESS;
  set_wake_alarm := λ _, true;
  timer_gettime := λ _, (0, 0);
  resource_created := λ _, true;
  callback_body := λ _ _, [];
|}.

(** * Properties *)

(** ** Arithmetic of the machine integers *)

Lemma wrap64_range z : 0 ≤ wrap64 z < 2 ^ 64.
Proof. unfold wrap64. apply Z.mod_pos_bound. lia. Qed.

Lemma wrap64_small z : 0 ≤ z < 2 ^ 64 → wrap64 z = z.
Proof. intros H. unfold wrap64. apply Z.mod_small. exact H. Qed.

Lemma to_int64_small z : 0 ≤ z < 2 ^ 63 → to_int64 z = z.
Proof.
  intros H. unfold to_int64. rewrite Z.mod_small by lia. lia.
Qed.

(** Membership of an event in an explicit list. *)
Ltac event_not_in H :=
  repeat (apply elem_of_cons in H as [H|H]; [discriminate H|]);
  apply elem_of_nil in H; exact H.

Ltac event_in :=
  first [ apply list_elem_of_here
        | apply list_elem_of_further; event_in ].

Section Facts.
Context {env : os_env}.

Lemma clock_ms_range n : 0 ≤ clock_ms n < 2 ^ 64.
Proof.
  unfold clock_ms. destruct (clock_gettime n) as [[sec nsec]|].
  - apply wrap64_range.
  - lia.
Qed.

(** ** Equations of the primitive operations *)

Lemma bind_ok {A B} (c : M A) (k : A → M B) s a s' :
  c s = Ok (a, s') → bind c k s = k a s'.
Proof. intros H. unfold bind. rewrite H. reflexivity. Qed.

Lemma bind_abort {A B} (c : M A) (k : A → M B) s f :
  c s = Abort f → bind c k s = Abort f.
Proof. intros H. unfold bind. rewrite H. reflexivity. Qed.

Lemma bind_inv {A B} (c : M A) (k : A → M B) s b s' :
  bind c k s = Ok (b, s') →
  ∃ a s1, c s = Ok (a, s1) ∧ k a s1 = Ok (b, s').
Proof.
  unfold bind. destruct (c s) as [[a s1]|f]; [|discriminate].
  intros H. exists a, s1. split; [reflexivity|exact H].
Qed.

Lemma load_ok s p a : heap s !! p = Some a → load p s = Ok (a, s).
Proof. intros H. unfold load. rewrite H. reflexivity. Qed.

Lemma load_inv s p a s' :
  load p s = Ok (a, s') → s' = s ∧ heap s !! p = Some a.
Proof.
  unfold load. destruct (heap s !! p) eqn:E; [|discriminate].
  intros H. injection H as -> ->. split; reflexivity.
Qed.

Lemma store_ok s p f a :
  heap s !! p = Some a →
  store p f s = Ok (tt, with_heap (<[p := f a]> (heap s)) s).
Proof.
  intros H. unfold store. rewrite (bind_ok _ _ _ _ _ (load_ok _ _ _ H)).
  reflexivity.
Qed.

Lemma the_alarms_ok s l : alarms s = Some l → the_alarms s = Ok (l, s).
Proof. intros H. unfold the_alarms. rewrite H. reflexivity. Qed.

Lemma the_alarms_inv s l s' :
  the_alarms s = Ok (l, s') → s' = s ∧ alarms s = Some l.
Proof.
  unfold the_alarms. destruct (alarms s) eqn:E; [|discriminate].
  intros H. injection H as -> ->. split; reflexivity.
Qed.

Lemma now_ok s :
  is_Some (alarms s) →
  now s = Ok (clock_ms (ticks s), with_ticks (S (ticks s)) s).
Proof.
  intros H. unfold now, bind, gets, assert, tick, clock_ms.
  rewrite bool_decide_eq_true_2 by exact H. simpl.
  destruct (clock_gettime (ticks s)) as [[sec nsec]|]; reflexivity.
Qed.

Lemma now_inv s t s' :
  now s = Ok (t, s') →
  is_Some (alarms s) ∧ t = clock_ms (ticks s) ∧ s' = with_ticks (S (ticks s)) s.
Proof.
  intros H. destruct (alarms s) as [l|] eqn:E.
  - rewrite now_ok in H by (rewrite E; eauto). injection H as <- <-. eauto.
  - unfold now, bind, gets, assert in H. rewrite E in H.
    rewrite bool_decide_eq_false_2 in H by (intros [? ?]; discriminate).
    discriminate.
Qed.

(** ** Re-evaluation of the wake policy *)

Lemma same_schedule_refl s : same_schedule s s.
Proof. unfold same_schedule. repeat split; auto. Qed.

Lemma same_schedule_trans s1 s2 s3 :
  same_schedule s1 s2 → same_schedule s2 s3 → same_schedule s1 s3.
Proof.
  unfold same_schedule.
  intros (?&?&?&?&?&?&?&?&?&?) (?&?&?&?&?&?&?&?&?&?).
  repeat split; try congruence; [auto | lia].
Qed.

Lemma semaphore_post_inv s s' :
  semaphore_post s = Ok (tt, s') →
  ∃ n, alarm_expired s = Some n ∧ s' = with_alarm_expired (Some (S n)) s.
Proof.
  unfold semaphore_post. destruct (alarm_expired s) as [n|]; [|discriminate].
  intros H. injection H as <-. eauto.
Qed.

Lemma reschedule_done_inv w wt s s' :
  reschedule_done w wt s = Ok (tt, s') →
  same_schedule s s' ∧
  timer_set s' = it_value_set wt ∧
  trace s' = done_events w wt ++ trace s.
Proof.
  unfold reschedule_done, done_events, bind, modify, gets, emit, tick, ret.
  simpl. destruct (it_value_set wt) eqn:Hset; simpl.
  - rewrite andb_false_r. simpl.
    destruct ((fst (timer_gettime (ticks s)) =? 0) &&
              (snd (timer_gettime (ticks s)) =? 0)).
    + intros H. apply semaphore_post_inv in H as (n & Hn & ->). simpl in *.
      unfold same_schedule. simpl. repeat split; auto; try lia.
    + intros H. injection H as <-. unfold same_schedule. simpl.
      repeat split; auto; try lia.
  - rewrite andb_true_r. destruct w; simpl; intros H; injection H as <-;
      unfold same_schedule; simpl; repeat split; auto.
Qed.

Lemma reschedule_done_total w wt s :
  is_Some (alarm_expired s) ∨ it_value_set wt = false →
  ∃ s', reschedule_done w wt s = Ok (tt, s').
Proof.
  intros H.
  unfold reschedule_done, bind, modify, gets, emit, tick, ret. simpl.
  destruct (it_value_set wt) eqn:Hset; simpl.
  - destruct H as [[n Hn]|H]; [|discriminate].
    rewrite andb_false_r. simpl.
    destruct ((fst (timer_gettime (ticks s)) =? 0) &&
              (snd (timer_gettime (ticks s)) =? 0)); [|eauto].
    unfold semaphore_post. simpl. rewrite Hn. eauto.
  - destruct w; simpl; eauto.
Qed.

Lemma reschedule_empty_inv s s' :
  alarms s = Some [] →
  reschedule_root_alarm s = Ok (tt, s') →
  same_schedule s s' ∧ timer_set s' = false ∧
  trace s' = done_events (timer_set s) (0, 0) ++ trace s.
Proof.
  intros Hl. unfold reschedule_root_alarm, bind, gets.
  rewrite (the_alarms_ok _ _ Hl).
  intros H. apply reschedule_done_inv in H. exact H.
Qed.

Lemma reschedule_front_inv s s' p l next :
  alarms s = Some (p :: l) → heap s !! p = Some next →
  reschedule_root_alarm s = Ok (tt, s') →
  same_schedule s s' ∧ timer_set s' = rearm_timer_set s next ∧
  trace s' = rearm_events s next ++ trace s.
Proof.
  intros Hl Hp. unfold reschedule_root_alarm, bind, gets.
  rewrite (the_alarms_ok _ _ Hl), (load_ok _ _ _ Hp).
  rewrite now_ok by (rewrite Hl; eauto).
  unfold rearm_timer_set, rearm_events, next_expiration. simpl.
  destruct (_ <? _) eqn:Hshort; simpl.
  - destruct (timer_set s) eqn:Hheld; simpl.
    + intros H. apply reschedule_done_inv in H as (Hsame & Hts & Htr).
      simpl in *. split; [|split]; auto.
      unfold same_schedule in *. simpl in *.
      destruct Hsame as (?&?&?&?&?&?&?&?&?&?). repeat split; auto; try lia.
    + destruct (_ =? BT_STATUS_SUCCESS) eqn:Hst; simpl;
        intros H; apply reschedule_done_inv in H as (Hsame & Hts & Htr);
        simpl in *; (split; [|split]); auto;
        try (unfold same_schedule in *; simpl in *;
             destruct Hsame as (?&?&?&?&?&?&?&?&?&?);
             repeat split; auto; lia; fail).
  - intros H; apply reschedule_done_inv in H as (Hsame & Hts & Htr).
    simpl in *. split; [|split]; auto.
    + unfold same_schedule in *; simpl in *.
      destruct Hsame as (?&?&?&?&?&?&?&?&?&?); repeat split; auto; try lia.
    + rewrite Htr. unfold done_events. simpl. rewrite <- app_assoc.
      reflexivity.
Qed.

Lemma reschedule_total s l :
  alarms s = Some l →
  (∀ p, head l = Some p → is_Some (heap s !! p)) →
  is_Some (alarm_expired s) →
  ∃ s', reschedule_root_alarm s = Ok (tt, s').
Proof.
  intros Hl Hfront Hsem. unfold reschedule_root_alarm, bind, gets.
  rewrite (the_alarms_ok _ _ Hl).
  destruct l as [|p l].
  - apply reschedule_done_total. left. exact Hsem.
  - destruct (Hfront p eq_refl) as [next Hp].
    rewrite (load_ok _ _ _ Hp).
    rewrite now_ok by (rewrite Hl; eauto). simpl.
    destruct (_ <? _); simpl.
    + destruct (timer_set s); simpl.
      * apply reschedule_done_total. left. exact Hsem.
      * destruct (_ =? BT_STATUS_SUCCESS);
          apply reschedule_done_total; left; exact Hsem.
    + apply reschedule_done_total. left. exact Hsem.
Qed.

Lemma events_since_app s s' evs :
  trace s' = evs ++ trace s → events_since s s' = evs.
Proof.
  intros H. unfold events_since. rewrite H, length_app.
  replace (length evs + length (trace s) - length (trace s))%nat
    with (length evs) by lia.
  apply take_app_length.
Qed.

(** C2 (as amended). When [acquire_wake_lock] fails in a re-evaluation
    whose front alarm is within the short horizon, the function jumps to
    [done] with a zeroed wake-up time: the in-process timer is disarmed,
    no wake alarm is requested, no wake lock is released and [timer_set]
    is false; the alarms, the list and the queues are as before. *)
Theorem failed_acquire_disarms s p l next :
  alarms s = Some (p :: l) → heap s !! p = Some next →
  timer_set s = false →
  next_expiration next (clock_ms (ticks s))
    < TIMER_INTERVAL_FOR_WAKELOCK_IN_MS s →
  acquire_wake_lock (S (ticks s)) ≠ BT_STATUS_SUCCESS →
  ∃ s', reschedule_root_alarm s = Ok (tt, s') ∧
        trace s' = EvTimerSettime 0 0
                   :: EvAcquireWakeLock (acquire_wake_lock (S (ticks s)))
                   :: trace s ∧
        timer_set s' = false ∧
        existsb arms_timer (events_since s s') = false ∧
        existsb requests_wake_alarm (events_since s s') = false ∧
        same_schedule s s'.
Proof.
  intros Hl Hp Hheld Hshort Hfail.
  assert (Hrun : ∃ s', reschedule_root_alarm s = Ok (tt, s')).
  { unfold reschedule_root_alarm, bind, gets.
    rewrite (the_alarms_ok _ _ Hl), (load_ok _ _ _ Hp).
    rewrite now_ok by (rewrite Hl; eauto). simpl.
    unfold next_expiration in Hshort.
    apply Z.ltb_lt in Hshort. rewrite Hshort. simpl. rewrite Hheld. simpl.
    apply Z.eqb_neq in Hfail. rewrite Hfail.
    apply reschedule_done_total. right. reflexivity. }
  destruct Hrun as [s' Hrun]. exists s'. split; [exact Hrun|].
  destruct (reschedule_front_inv _ _ _ _ _ Hl Hp Hrun) as (Hsame & Hts & Htr).
  unfold rearm_timer_set in Hts. unfold rearm_events in Htr.
  apply Z.ltb_lt in Hshort. apply Z.eqb_neq in Hfail.
  rewrite Hshort, Hheld, Hfail in *. simpl in *.
  repeat split; auto; try apply Hsame.
  - rewrite (events_since_app s s' [_; _] Htr). reflexivity.
  - rewrite (events_since_app s s' [_; _] Htr). reflexivity.
Qed.

(** C5 (as amended). A re-evaluation with a non-empty list returns, and
    with [delta] the signed distance from now to the front deadline:
    below the threshold the wake lock is requested exactly when it is not
    already held and, if it is held or the request succeeds, the
    in-process timer is set to the absolute time of the front deadline;
    from the threshold on, the wake-alarm callout is asked for [delta]
    ms, the in-process timer is disarmed and a wake lock that was held is
    released. *)
Theorem wake_policy_by_horizon s p l next :
  alarms s = Some (p :: l) → heap s !! p = Some next →
  is_Some (alarm_expired s) →
  let delta := next_expiration next (clock_ms (ticks s)) in
  let status := acquire_wake_lock (S (ticks s)) in
  ∃ s', reschedule_root_alarm s = Ok (tt, s') ∧
    (delta < TIMER_INTERVAL_FOR_WAKELOCK_IN_MS s →
       (timer_set s = true →
          ∀ st, EvAcquireWakeLock st ∉ events_since s s') ∧
       (timer_set s = false →
          last (events_since s s') = Some (EvAcquireWakeLock status)) ∧
       existsb requests_wake_alarm (events_since s s') = false ∧
       (timer_set s = true ∨ status = BT_STATUS_SUCCESS →
          head (trace s')
            = Some (EvTimerSettime (deadline next / 1000)
                      ((deadline next mod 1000) * 1000000)) ∧
          timer_set s' = it_value_set (it_value_of (deadline next)))) ∧
    (TIMER_INTERVAL_FOR_WAKELOCK_IN_MS s ≤ delta →
       last (events_since s s')
         = Some (EvSetWakeAlarm (wrap64 delta) (set_wake_alarm (S (ticks s)))) ∧
       head (trace s') = Some (EvTimerSettime 0 0) ∧
       timer_set s' = false ∧
       (∀ st, EvAcquireWakeLock st ∉ events_since s s') ∧
       (timer_set s = true → EvReleaseWakeLock ∈ events_since s s')).
Proof.
  intros Hl Hp Hsem delta status.
  destruct (reschedule_total s _ Hl) as [s' Hrun]; [|exact Hsem|].
  { intros q Hq. injection Hq as <-. eauto. }
  exists s'. split; [exact Hrun|].
  destruct (reschedule_front_inv _ _ _ _ _ Hl Hp Hrun) as (Hsame & Hts & Htr).
  pose proof (events_since_app _ _ _ Htr) as Hev.
  unfold rearm_timer_set in Hts. unfold rearm_events in Htr, Hev.
  fold delta in Hts, Htr, Hev. fold status in Hts, Htr, Hev.
  rewrite Hev, Htr, Hts. clear Hev Htr Hts.
  unfold done_events, it_value_of. simpl.
  split.
  - intros Hshort. apply Z.ltb_lt in Hshort. rewrite Hshort.
    destruct (timer_set s) eqn:Hheld.
    + split; [|split; [|split]].
      * intros _ st Hin.
        destruct (it_value_set _); simpl in Hin; event_not_in Hin.
      * discriminate.
      * destruct (it_value_set _); reflexivity.
      * intros _. split; reflexivity.
    + destruct (status =? BT_STATUS_SUCCESS) eqn:Hst.
      * split; [|split; [|split]]; try discriminate; try reflexivity.
        intros _. split; reflexivity.
      * split; [|split; [|split]]; try discriminate; try reflexivity.
        intros [?|Hok]; [discriminate|].
        apply Z.eqb_neq in Hst. contradiction.
  - intros Hlong. apply Z.ltb_ge in Hlong. rewrite Hlong.
    destruct (timer_set s) eqn:Hheld; simpl.
    + do 3 (split; [reflexivity|]). split.
      * intros st Hin. event_not_in Hin.
      * intros _. event_in.
    + do 3 (split; [reflexivity|]). split.
      * intros st Hin. event_not_in Hin.
      * discriminate.
Qed.

(** ** Removal from the list and from the queue *)

Lemma list_remove_not_in (l : list alarm_ptr) x : x ∉ l → list_remove l x = l.
Proof.
  induction l as [|y tl IH]; [reflexivity|].
  intros Hnot. simpl. destruct (decide (y = x)) as [->|Hne].
  - exfalso. apply Hnot. apply list_elem_of_here.
  - f_equal. apply IH. intros Hin. apply Hnot.
    apply list_elem_of_further. exact Hin.
Qed.

Lemma list_remove_subset (l : list alarm_ptr) x y :
  y ∈ list_remove l x → y ∈ l.
Proof.
  induction l as [|z tl IH]; simpl; [auto|].
  destruct (decide (z = x)) as [->|Hne].
  - intros H. apply list_elem_of_further. exact H.
  - intros H. apply elem_of_cons in H as [->|H].
    + apply list_elem_of_here.
    + apply list_elem_of_further. apply IH. exact H.
Qed.

Lemma list_remove_other (l : list alarm_ptr) x y :
  y ≠ x → y ∈ l → y ∈ list_remove l x.
Proof.
  intros Hne. induction l as [|z tl IH]; simpl; [auto|].
  intros H. apply elem_of_cons in H as [->|H].
  - destruct (decide (z = x)) as [->|_]; [contradiction|].
    apply list_elem_of_here.
  - destruct (decide (z = x)) as [->|_]; [exact H|].
    apply list_elem_of_further. apply IH. exact H.
Qed.

Lemma list_remove_NoDup (l : list alarm_ptr) x :
  NoDup l → NoDup (list_remove l x) ∧ x ∉ list_remove l x.
Proof.
  induction l as [|y tl IH]; simpl.
  - intros _. split; [constructor|]. apply not_elem_of_nil.
  - intros Hnd. apply NoDup_cons in Hnd as [Hy Hnd].
    destruct (decide (y = x)) as [->|Hne].
    + split; assumption.
    + destruct (IH Hnd) as [IH1 IH2]. split.
      * apply NoDup_cons. split; [|exact IH1].
        intros Hin. apply Hy. eapply list_remove_subset. exact Hin.
      * intros Hin. apply elem_of_cons in Hin as [Heq|Hin]; auto.
Qed.

Lemma list_remove_length (l : list alarm_ptr) x :
  x ∈ l → S (length (list_remove l x)) = length l.
Proof.
  induction l as [|y tl IH]; simpl.
  - intros H. apply elem_of_nil in H. contradiction.
  - intros H. destruct (decide (y = x)) as [->|Hne]; [reflexivity|].
    apply elem_of_cons in H as [Heq|H]; [congruence|].
    simpl. f_equal. apply IH. exact H.
Qed.

Lemma list_remove_filter (l : list alarm_ptr) x :
  filter (λ y, y ≠ x) (list_remove l x) = filter (λ y, y ≠ x) l.
Proof.
  induction l as [|y tl IH]; simpl; [reflexivity|].
  destruct (decide (y = x)) as [->|Hne].
  - rewrite filter_cons_False; [reflexivity|]. intros H. apply H. reflexivity.
  - rewrite !filter_cons_True by exact Hne. f_equal. exact IH.
Qed.

Lemma filter_not_in (l : list alarm_ptr) x :
  x ∉ l → filter (λ y, y ≠ x) l = l.
Proof.
  induction l as [|y tl IH]; [reflexivity|].
  intros Hnot. apply not_elem_of_cons in Hnot as [Hne Hnot].
  rewrite filter_cons_True by auto. f_equal. apply IH. exact Hnot.
Qed.

Lemma with_queues_id s q items :
  queues s !! q = Some items → with_queues (<[q := items]> (queues s)) s = s.
Proof.
  intros H. destruct s. unfold with_queues. simpl in *.
  rewrite insert_id by exact H. reflexivity.
Qed.

(** The loop that drains the copies of an alarm from its queue returns
    when it is given one pass more than the queue is long, and leaves
    the queue without the alarm. *)
Lemma remove_queued_copies_ok fuel alarm a q s items :
  heap s !! alarm = Some a → queue a = Some q →
  queues s !! q = Some items →
  (length items < fuel)%nat →
  remove_queued_copies fuel alarm s
  = Ok (tt, with_queues (<[q := filter (λ y, y ≠ alarm) items]> (queues s)) s).
Proof.
  revert s items. induction fuel as [|fuel IH]; intros s items Ha Hq Hitems Hlen.
  - lia.
  - simpl. rewrite (bind_ok _ _ _ _ _ (load_ok _ _ _ Ha)).
    rewrite Hq. unfold fixed_queue_try_remove_from_queue, bind, load_queue.
    rewrite Hitems. simpl. case_bool_decide as Hin.
    + unfold store_queue, modify, ret. simpl.
      erewrite IH; [| exact Ha | exact Hq | apply lookup_insert_eq | ].
      * simpl. rewrite insert_insert_eq, list_remove_filter. reflexivity.
      * pose proof (list_remove_length _ _ Hin). lia.
    + rewrite filter_not_in by exact Hin.
      rewrite with_queues_id by exact Hitems. reflexivity.
Qed.

Lemma remove_queued_copies_no_queue fuel alarm a s :
  heap s !! alarm = Some a → queue a = None →
  remove_queued_copies (S fuel) alarm s = Ok (tt, s).
Proof.
  intros Ha Hq. simpl. rewrite (bind_ok _ _ _ _ _ (load_ok _ _ _ Ha)).
  rewrite Hq. reflexivity.
Qed.

Lemma remove_pending_alarm_ok alarm a l s :
  alarms s = Some l → heap s !! alarm = Some a →
  (∀ q, queue a = Some q → is_Some (queues s !! q)) →
  remove_pending_alarm alarm s
  = Ok (tt, without_queued alarm a
              (with_alarms (Some (list_remove l alarm)) s)).
Proof.
  intros Hl Ha Hq. unfold remove_pending_alarm.
  rewrite (bind_ok _ _ _ _ _ (the_alarms_ok _ _ Hl)).
  unfold put_alarms, bind, modify, gets, queue_fuel, without_queued. simpl.
  rewrite Ha. destruct (queue a) as [q|] eqn:Hqa.
  - destruct (Hq q eq_refl) as [items Hitems]. rewrite Hitems.
    apply (remove_queued_copies_ok _ alarm a q
             (with_alarms (Some (list_remove l alarm)) s) items);
      auto; simpl; lia.
  - apply (remove_queued_copies_no_queue _ alarm a); auto.
Qed.

Lemma remove_pending_alarm_inv alarm s s' :
  remove_pending_alarm alarm s = Ok (tt, s') →
  ∃ l a, alarms s = Some l ∧ heap s !! alarm = Some a ∧
         (∀ q, queue a = Some q → is_Some (queues s !! q)) ∧
         s' = without_queued alarm a
                (with_alarms (Some (list_remove l alarm)) s).
Proof.
  intros H.
  destruct (alarms s) as [l|] eqn:Hl.
  2: { unfold remove_pending_alarm, bind, the_alarms in H.
       rewrite Hl in H. discriminate. }
  assert (Hstep : ∀ r, remove_pending_alarm alarm s = r →
            (fuel <- gets (queue_fuel alarm) ;; remove_queued_copies fuel alarm)
              (with_alarms (Some (list_remove l alarm)) s) = r).
  { intros r <-. unfold remove_pending_alarm.
    rewrite (bind_ok _ _ _ _ _ (the_alarms_ok _ _ Hl)). reflexivity. }
  apply Hstep in H as H1. clear Hstep.
  unfold bind, gets, queue_fuel in H1. simpl in H1.
  destruct (heap s !! alarm) as [a|] eqn:Ha.
  2: { simpl in H1. unfold bind, load in H1. simpl in H1.
       rewrite Ha in H1. discriminate. }
  assert (Hq : ∀ q, queue a = Some q → is_Some (queues s !! q)).
  { intros q Hqa. destruct (queues s !! q) as [items|] eqn:Hitems; [eauto|].
    exfalso. rewrite Hqa, Hitems in H1. simpl in H1.
    unfold bind, load in H1. simpl in H1. rewrite Ha, Hqa in H1.
    unfold fixed_queue_try_remove_from_queue, bind, load_queue in H1.
    simpl in H1. rewrite Hitems in H1. discriminate. }
  exists l, a. repeat split; auto.
  rewrite (remove_pending_alarm_ok _ _ _ _ Hl Ha Hq) in H.
  injection H as <-. reflexivity.
Qed.

(** ** Scheduling the next instance *)

Lemma insert_after_scan_ok alarm d nodes s :
  Forall (λ p, is_Some (heap s !! p)) nodes →
  insert_after_scan alarm d nodes s
  = Ok (inserted_after (heap s) alarm d nodes, s).
Proof.
  induction nodes as [|node rest IH]; intros Hall; [reflexivity|].
  simpl. destruct rest as [|next rest']; [reflexivity|].
  apply Forall_cons in Hall as [_ Hall].
  pose proof Hall as Hall'. apply Forall_cons in Hall' as [[n Hn] _].
  rewrite (bind_ok _ _ _ _ _ (load_ok _ _ _ Hn)).
  unfold deadline_of. rewrite Hn.
  destruct (d <? deadline n); [reflexivity|].
  rewrite (bind_ok _ _ _ _ _ (IH Hall)). reflexivity.
Qed.

Lemma inserted_state_alarms alarm a l s :
  alarms (inserted_state alarm a l s)
  = Some (inserted (<[alarm := set_deadline (next_deadline a (clock_ms (ticks s))) a]> (heap s))
            alarm (next_deadline a (clock_ms (ticks s)))
            (if callback a is Some _ then list_remove l alarm else l)).
Proof. reflexivity. Qed.

Lemma inserted_state_heap alarm a l s :
  heap (inserted_state alarm a l s)
  = <[alarm := set_deadline (next_deadline a (clock_ms (ticks s))) a]> (heap s).
Proof. reflexivity. Qed.

Lemma without_queued_fields alarm a s :
  heap (without_queued alarm a s) = heap s ∧
  alarms (without_queued alarm a s) = alarms s ∧
  ticks (without_queued alarm a s) = ticks s ∧
  timer_set (without_queued alarm a s) = timer_set s ∧
  trace (without_queued alarm a s) = trace s ∧
  alarm_expired (without_queued alarm a s) = alarm_expired s.
Proof. unfold without_queued. destruct (queue a); simpl; auto 10. Qed.

Lemma schedule_next_instance_eq alarm a l s :
  alarms s = Some l → heap s !! alarm = Some a →
  (∀ q, queue a = Some q → is_Some (queues s !! q)) →
  list_allocated s l →
  schedule_next_instance alarm s
  = (if is_front l alarm
        || is_front (default [] (alarms (inserted_state alarm a l s))) alarm
     then reschedule_root_alarm else ret tt) (inserted_state alarm a l s).
Proof.
  intros Hl Ha Hq Hall. unfold schedule_next_instance.
  rewrite (bind_ok _ _ _ _ _ (the_alarms_ok _ _ Hl)).
  rewrite (bind_ok _ _ _ _ _ (load_ok _ _ _ Ha)).
  set (s1 := if callback a is Some _
             then without_queued alarm a
                    (with_alarms (Some (list_remove l alarm)) s)
             else s).
  set (l1 := if callback a is Some _ then list_remove l alarm else l).
  assert (Hrem : (if callback a is Some _
                  then remove_pending_alarm alarm else ret tt) s
                 = Ok (tt, s1)).
  { subst s1. destruct (callback a); [|reflexivity].
    apply remove_pending_alarm_ok; auto. }
  rewrite (bind_ok _ _ _ _ _ Hrem).
  assert (Hh1 : heap s1 = heap s ∧ alarms s1 = Some l1 ∧ ticks s1 = ticks s).
  { subst s1 l1. destruct (callback a); [|auto].
    destruct (without_queued_fields alarm a
                (with_alarms (Some (list_remove l alarm)) s))
      as (-> & -> & -> & _). auto. }
  destruct Hh1 as (Hh1 & Hl1 & Ht1).
  rewrite (bind_ok _ _ _ _ _ (now_ok s1 ltac:(rewrite Hl1; eauto))).
  rewrite Ht1.
  assert (Ha1 : heap (with_ticks (S (ticks s)) s1) !! alarm = Some a).
  { simpl. rewrite Hh1. exact Ha. }
  rewrite (bind_ok _ _ _ _ _ (load_ok _ _ _ Ha1)).
  set (t := clock_ms (ticks s)).
  set (d := next_deadline a t).
  assert (Hms : ∀ B (k : Z → M B) s0,
    bind (if is_periodic a && negb (period a =? 0)
          then umod (wrap64 (t - creation_time a)) (period a)
          else ret 0) k s0
    = k (if is_periodic a && negb (period a =? 0)
         then wrap64 (t - creation_time a) mod period a else 0) s0).
  { intros B k s0. destruct (is_periodic a); simpl; [|reflexivity].
    unfold umod. destruct (period a =? 0); reflexivity. }
  rewrite Hms. fold (next_deadline a t). fold d.
  rewrite (bind_ok _ _ _ _ _ (store_ok _ _ _ _ Ha1)).
  set (h' := <[alarm := set_deadline d a]> (heap s)).
  set (s2 := with_heap _ _).
  assert (Hs2 : heap s2 = h' ∧ alarms s2 = Some l1).
  { subst s2 h'. simpl. rewrite Hh1. auto. }
  destruct Hs2 as (Hh2 & Hl2).
  rewrite (bind_ok _ _ _ _ _ (the_alarms_ok _ _ Hl2)).
  assert (Hall1 : Forall (λ p, is_Some (h' !! p)) l1).
  { apply Forall_forall. intros x Hx.
    assert (Hxl : x ∈ l).
    { subst l1. destruct (callback a); [|exact Hx].
      eapply list_remove_subset. exact Hx. }
    unfold list_allocated in Hall. rewrite Forall_forall in Hall.
    subst h'. destruct (decide (x = alarm)) as [->|Hne].
    - rewrite lookup_insert_eq. eauto.
    - rewrite lookup_insert_ne by auto. apply Hall. exact Hxl. }
  assert (Hins : (match l1 with
                  | [] => ret [alarm]
                  | front :: _ =>
                      f <- load front ;;
                      if d <? deadline f then ret (alarm :: l1)
                      else insert_after_scan alarm d l1
                  end) s2 = Ok (inserted h' alarm d l1, s2)).
  { destruct l1 as [|front rest]; [reflexivity|].
    pose proof Hall1 as Hf. apply Forall_cons in Hf as [[f Hf] _].
    rewrite <- Hh2 in Hf.
    rewrite (bind_ok _ _ _ _ _ (load_ok _ _ _ Hf)).
    unfold inserted, deadline_of. rewrite <- Hh2, Hf.
    destruct (d <? deadline f); [reflexivity|].
    apply insert_after_scan_ok. rewrite Hh2. exact Hall1. }
  rewrite (bind_ok _ _ _ _ _ Hins).
  unfold put_alarms. unfold bind at 1. unfold modify at 1.
  assert (Hfinal : with_alarms (Some (inserted h' alarm d l1)) s2
                   = inserted_state alarm a l s).
  { subst s2 h' d t l1 s1. unfold inserted_state.
    destruct (callback a); simpl.
    - destruct (without_queued_fields alarm a
                  (with_alarms (Some (list_remove l alarm)) s))
        as (-> & _). reflexivity.
    - reflexivity. }
  rewrite Hfinal. rewrite inserted_state_alarms. simpl.
  fold t. fold d. fold h'. fold l1. reflexivity.
Qed.

(** Where the scan puts the alarm: after the longest prefix of entries
    whose deadline is not later than its own. *)
Lemma inserted_after_split h alarm d node rest :
  deadline_of h node ≤ d →
  ∃ l1 l2, node :: rest = l1 ++ l2 ∧ l1 ≠ [] ∧
           inserted_after h alarm d (node :: rest) = l1 ++ alarm :: l2 ∧
           Forall (λ x, deadline_of h x ≤ d) l1 ∧
           (∀ y, head l2 = Some y → d < deadline_of h y).
Proof.
  revert node. induction rest as [|next rest' IH]; intros node Hnode.
  - exists [node], []. simpl. repeat split; auto; try discriminate.
  - simpl. destruct (d <? deadline_of h next) eqn:Hlt.
    + exists [node], (next :: rest'). simpl.
      repeat split; auto; try discriminate.
      intros y Hy. injection Hy as <-. apply Z.ltb_lt. exact Hlt.
    + apply Z.ltb_ge in Hlt.
      destruct (IH next Hlt) as (l1 & l2 & Heq & Hne & Hins & Hall & Hhd).
      exists (node :: l1), l2. simpl. rewrite <- Heq.
      change (inserted_after h alarm d (next :: rest'))
        with (match rest' with
              | [] => [next; alarm]
              | next0 :: _ =>
                  if d <? deadline_of h next0 then next :: alarm :: rest'
                  else next :: inserted_after h alarm d rest'
              end) in Hins.
      rewrite Hins. repeat split; auto; try discriminate.
Qed.

Lemma inserted_split h alarm d l :
  ∃ l1 l2, l = l1 ++ l2 ∧
           inserted h alarm d l = l1 ++ alarm :: l2 ∧
           Forall (λ x, deadline_of h x ≤ d) l1 ∧
           (∀ y, head l2 = Some y → d < deadline_of h y).
Proof.
  destruct l as [|front rest].
  - exists [], []. simpl. repeat split; auto; discriminate.
  - unfold inserted. destruct (d <? deadline_of h front) eqn:Hlt.
    + exists [], (front :: rest). simpl. repeat split; auto.
      intros y Hy. injection Hy as <-. apply Z.ltb_lt. exact Hlt.
    + apply Z.ltb_ge in Hlt.
      destruct (inserted_after_split h alarm d front rest Hlt)
        as (l1 & l2 & Heq & _ & Hins & Hall & Hhd).
      exists l1, l2. auto.
Qed.

Lemma inserted_elem_of h alarm d l x :
  x ∈ inserted h alarm d l ↔ x = alarm ∨ x ∈ l.
Proof.
  destruct (inserted_split h alarm d l) as (l1 & l2 & -> & -> & _).
  rewrite !elem_of_app, elem_of_cons. tauto.
Qed.

Lemma inserted_NoDup h alarm d l :
  NoDup l → alarm ∉ l → NoDup (inserted h alarm d l).
Proof.
  destruct (inserted_split h alarm d l) as (l1 & l2 & -> & -> & _).
  intros Hnd Hnot. apply NoDup_app in Hnd as (Hnd1 & Hdisj & Hnd2).
  apply NoDup_app. repeat split; auto.
  - intros x Hx1 Hx2. apply elem_of_cons in Hx2 as [->|Hx2].
    + apply Hnot. apply elem_of_app. left. exact Hx1.
    + exact (Hdisj x Hx1 Hx2).
  - apply NoDup_cons. split; auto.
    intros Hin. apply Hnot. apply elem_of_app. right. exact Hin.
Qed.

Lemma insert_after_scan_inv alarm d nodes s r s' :
  insert_after_scan alarm d nodes s = Ok (r, s') →
  s' = s ∧ r = inserted_after (heap s) alarm d nodes.
Proof.
  revert r s'. induction nodes as [|node rest IH]; intros r s' H.
  - injection H as <- <-. auto.
  - simpl in H. destruct rest as [|next rest'].
    + injection H as <- <-. auto.
    + apply bind_inv in H as (n & s1 & Hn & H).
      apply load_inv in Hn as [-> Hn].
      change (inserted_after (heap s) alarm d (node :: next :: rest'))
        with (if d <? deadline_of (heap s) next then node :: alarm :: next :: rest'
              else node :: inserted_after (heap s) alarm d (next :: rest')).
      unfold deadline_of. rewrite Hn.
      destruct (d <? deadline n).
      * injection H as <- <-. auto.
      * apply bind_inv in H as (tl & s2 & Htl & H).
        apply IH in Htl as [-> ->]. injection H as <- <-. auto.
Qed.

(** Every normal return of a re-evaluation, read backwards. *)
Lemma reschedule_inv s s' :
  reschedule_root_alarm s = Ok (tt, s') →
  same_schedule s s' ∧
  ∃ l, alarms s = Some l ∧
    match l with
    | [] => timer_set s' = false ∧
            trace s' = done_events (timer_set s) (0, 0) ++ trace s
    | p :: _ => ∃ next, heap s !! p = Some next ∧
                        timer_set s' = rearm_timer_set s next ∧
                        trace s' = rearm_events s next ++ trace s
    end.
Proof.
  intros H.
  destruct (alarms s) as [l|] eqn:Hl.
  2: { unfold reschedule_root_alarm, bind, gets, the_alarms in H.
       rewrite Hl in H. discriminate. }
  destruct l as [|p l].
  - destruct (reschedule_empty_inv _ _ Hl H) as (? & ? & ?).
    split; [auto|]. exists []. auto.
  - destruct (heap s !! p) as [next|] eqn:Hp.
    2: { unfold reschedule_root_alarm, bind, gets in H.
         rewrite (the_alarms_ok _ _ Hl) in H. unfold load in H.
         rewrite Hp in H. discriminate. }
    destruct (reschedule_front_inv _ _ _ _ _ Hl Hp H) as (? & ? & ?).
    split; [auto|]. exists (p :: l). split; [reflexivity|]. eauto.
Qed.

Lemma schedule_next_instance_inv alarm s s' :
  schedule_next_instance alarm s = Ok (tt, s') →
  ∃ a l, alarms s = Some l ∧ heap s !! alarm = Some a ∧
    (if is_front l alarm
        || is_front (default [] (alarms (inserted_state alarm a l s))) alarm
     then reschedule_root_alarm else ret tt) (inserted_state alarm a l s)
    = Ok (tt, s').
Proof.
  intros H. unfold schedule_next_instance in H.
  apply bind_inv in H as (l & s0 & Hl & H).
  apply the_alarms_inv in Hl as [-> Hl].
  apply bind_inv in H as (a & s0 & Ha & H).
  apply load_inv in Ha as [-> Ha].
  exists a, l. split; [exact Hl|]. split; [exact Ha|].
  apply bind_inv in H as ([] & s1 & Hrem & H).
  set (l1 := if callback a is Some _ then list_remove l alarm else l).
  assert (Hs1 : s1 = if callback a is Some _
                     then without_queued alarm a
                            (with_alarms (Some (list_remove l alarm)) s)
                     else s).
  { destruct (callback a).
    - apply remove_pending_alarm_inv in Hrem
        as (l0 & a' & Hl0 & Ha0 & _ & ->).
      rewrite Hl in Hl0. injection Hl0 as <-.
      rewrite Ha in Ha0. injection Ha0 as <-. reflexivity.
    - injection Hrem as <-. reflexivity. }
  assert (Hh1 : heap s1 = heap s ∧ alarms s1 = Some l1 ∧ ticks s1 = ticks s).
  { subst s1 l1. destruct (callback a); [|auto].
    destruct (without_queued_fields alarm a
                (with_alarms (Some (list_remove l alarm)) s))
      as (-> & -> & -> & _). auto. }
  destruct Hh1 as (Hh1 & Hl1 & Ht1).
  rewrite (bind_ok _ _ _ _ _ (now_ok s1 ltac:(rewrite Hl1; eauto))) in H.
  rewrite Ht1 in H.
  assert (Ha1 : heap (with_ticks (S (ticks s)) s1) !! alarm = Some a).
  { simpl. rewrite Hh1. exact Ha. }
  rewrite (bind_ok _ _ _ _ _ (load_ok _ _ _ Ha1)) in H.
  set (t := clock_ms (ticks s)) in *.
  set (d := next_deadline a t).
  assert (Hms : ∀ B (k : Z → M B) s0,
    bind (if is_periodic a && negb (period a =? 0)
          then umod (wrap64 (t - creation_time a)) (period a)
          else ret 0) k s0
    = k (if is_periodic a && negb (period a =? 0)
         then wrap64 (t - creation_time a) mod period a else 0) s0).
  { intros B k s0. destruct (is_periodic a); simpl; [|reflexivity].
    unfold umod. destruct (period a =? 0); reflexivity. }
  rewrite Hms in H. fold (next_deadline a t) in H. fold d in H.
  rewrite (bind_ok _ _ _ _ _ (store_ok _ _ _ _ Ha1)) in H.
  set (h' := <[alarm := set_deadline d a]> (heap s)).
  set (s2 := with_heap _ _) in H.
  assert (Hs2 : heap s2 = h' ∧ alarms s2 = Some l1).
  { subst s2 h'. simpl. rewrite Hh1. auto. }
  destruct Hs2 as (Hh2 & Hl2).
  rewrite (bind_ok _ _ _ _ _ (the_alarms_ok _ _ Hl2)) in H.
  apply bind_inv in H as (l' & s3 & Hins & H).
  assert (Hl' : s3 = s2 ∧ l' = inserted h' alarm d l1).
  { destruct l1 as [|front rest].
    - injection Hins as <- <-. auto.
    - apply bind_inv in Hins as (f & s4 & Hf & Hins).
      apply load_inv in Hf as [-> Hf].
      unfold inserted, deadline_of. rewrite <- Hh2, Hf.
      destruct (d <? deadline f).
      + injection Hins as <- <-. auto.
      + apply insert_after_scan_inv in Hins. exact Hins. }
  destruct Hl' as [-> ->].
  unfold put_alarms in H. unfold bind at 1 in H. unfold modify at 1 in H.
  assert (Hfinal : with_alarms (Some (inserted h' alarm d l1)) s2
                   = inserted_state alarm a l s).
  { subst s2 h' d t l1 s1. unfold inserted_state.
    destruct (callback a); simpl.
    - destruct (without_queued_fields alarm a
                  (with_alarms (Some (list_remove l alarm)) s))
        as (-> & _). reflexivity.
    - reflexivity. }
  rewrite Hfinal in H. rewrite inserted_state_alarms. simpl.
  fold t. fold d. fold h'. fold l1. exact H.
Qed.

Lemma inserted_state_expired alarm a l s :
  alarm_expired (inserted_state alarm a l s) = alarm_expired s.
Proof.
  unfold inserted_state. simpl. destruct (callback a); [|reflexivity].
  destruct (without_queued_fields alarm a
              (with_alarms (Some (list_remove l alarm)) s))
    as (_ & _ & _ & _ & _ & ->). reflexivity.
Qed.

(** [schedule_next_instance] returns in every state whose list holds
    allocated alarms and whose alarm points to a live queue. *)
Lemma schedule_next_instance_total alarm a l s :
  alarms s = Some l → heap s !! alarm = Some a →
  (∀ q, queue a = Some q → is_Some (queues s !! q)) →
  list_allocated s l →
  is_Some (alarm_expired s) →
  ∃ s', schedule_next_instance alarm s = Ok (tt, s') ∧
        same_schedule (inserted_state alarm a l s) s'.
Proof.
  intros Hl Ha Hq Hall Hsem.
  rewrite (schedule_next_instance_eq _ _ _ _ Hl Ha Hq Hall).
  destruct (_ || _).
  - destruct (reschedule_total (inserted_state alarm a l s) _
                (inserted_state_alarms alarm a l s)) as [s' Hs'].
    + intros p Hp. apply head_Some_elem_of in Hp.
      apply inserted_elem_of in Hp. rewrite inserted_state_heap.
      destruct Hp as [->|Hp].
      * rewrite lookup_insert_eq. eauto.
      * assert (Hpl : p ∈ l).
        { destruct (callback a); [|exact Hp].
          eapply list_remove_subset. exact Hp. }
        unfold list_allocated in Hall. rewrite Forall_forall in Hall.
        destruct (decide (p = alarm)) as [->|Hne].
        -- rewrite lookup_insert_eq. eauto.
        -- rewrite lookup_insert_ne by auto. apply Hall. exact Hpl.
    + rewrite inserted_state_expired. exact Hsem.
    + exists s'. split; [exact Hs'|]. apply reschedule_inv in Hs'. apply Hs'.
  - exists (inserted_state alarm a l s). split; [reflexivity|].
    apply same_schedule_refl.
Qed.

Lemma next_deadline_range a t : 0 ≤ next_deadline a t < 2 ^ 64.
Proof. unfold next_deadline. apply wrap64_range. Qed.

(** Without wrap-around the deadline is the next multiple of the period
    after [t], counted from the creation time. *)
Lemma next_deadline_exact a t :
  0 ≤ period a < 2 ^ 64 → 0 ≤ creation_time a ≤ t → t + period a < 2 ^ 64 →
  next_deadline a t
  = if is_periodic a && (0 <? period a)
    then t + (period a - (t - creation_time a) mod period a)
    else t + period a.
Proof.
  intros Hp Hc Ht. unfold next_deadline.
  destruct (is_periodic a); simpl.
  - destruct (period a =? 0) eqn:Hz; simpl.
    + apply Z.eqb_eq in Hz. rewrite Hz. simpl.
      change (0 - 0) with 0.
      rewrite (wrap64_small 0) by lia. rewrite wrap64_small by lia. lia.
    + apply Z.eqb_neq in Hz.
      assert (Hpos : 0 < period a) by lia.
      apply Z.ltb_lt in Hpos as Hpos'. rewrite Hpos'.
      rewrite (wrap64_small (t - creation_time a)) by lia.
      pose proof (Z.mod_pos_bound (t - creation_time a) (period a) Hpos).
      rewrite (wrap64_small (period a - _)) by lia.
      rewrite wrap64_small by lia. reflexivity.
  - rewrite Z.sub_0_r. rewrite (wrap64_small (period a)) by lia.
    rewrite wrap64_small by lia. reflexivity.
Qed.

(** The alarm record after any return of [schedule_next_instance]. *)
Lemma schedule_next_instance_heap alarm a s s' :
  heap s !! alarm = Some a →
  schedule_next_instance alarm s = Ok (tt, s') →
  heap s' !! alarm
  = Some (set_deadline (next_deadline a (clock_ms (ticks s))) a).
Proof.
  intros Ha H.
  apply schedule_next_instance_inv in H as (a0 & l & _ & Ha0 & H).
  rewrite Ha in Ha0. injection Ha0 as <-.
  assert (Hsame : same_schedule (inserted_state alarm a l s) s').
  { destruct (_ || _).
    - apply reschedule_inv in H. apply H.
    - injection H as <-. apply same_schedule_refl. }
  destruct Hsame as (-> & _). rewrite inserted_state_heap.
  apply lookup_insert_eq.
Qed.

(** *** No division by zero *)

Lemma avoids_ok {A} f (c : M A) :
  (∀ s, ∃ r, c s = Ok r) → avoids f c.
Proof. intros H s. destruct (H s) as [r ->]. discriminate. Qed.

Lemma avoids_bind {A B} f (c : M A) (k : A → M B) :
  avoids f c → (∀ a, avoids f (k a)) → avoids f (bind c k).
Proof.
  intros Hc Hk s. unfold bind. specialize (Hc s).
  destruct (c s) as [[a s1]|f']; [apply Hk|].
  intros H. apply Hc. injection H as ->. reflexivity.
Qed.

Lemma avoids_abort {A} f f' : f' ≠ f → avoids (A := A) f (abort f').
Proof. intros Hne s H. injection H as H. exact (Hne H). Qed.

Lemma avoids_load f p : f ≠ InvalidPointer → avoids f (load p).
Proof.
  intros Hne s. unfold load. destruct (heap s !! p); [discriminate|].
  intros H. injection H as H. exact (Hne (eq_sym H)).
Qed.

Lemma avoids_the_alarms f : f ≠ AssertionFailed → avoids f the_alarms.
Proof.
  intros Hne s. unfold the_alarms. destruct (alarms s); [discriminate|].
  intros H. injection H as H. exact (Hne (eq_sym H)).
Qed.

Lemma avoids_load_queue f q : f ≠ InvalidPointer → avoids f (load_queue q).
Proof.
  intros Hne s. unfold load_queue. destruct (queues s !! q); [discriminate|].
  intros H. injection H as H. exact (Hne (eq_sym H)).
Qed.

Lemma avoids_semaphore_post f :
  f ≠ AssertionFailed → avoids f semaphore_post.
Proof.
  intros Hne s. unfold semaphore_post.
  destruct (alarm_expired s); [discriminate|].
  intros H. injection H as H. exact (Hne (eq_sym H)).
Qed.

Create HintDb avoided discriminated.

Ltac avoid :=
  repeat first
    [ assumption
    | solve [auto 1 with avoided nocore]
    | apply avoids_ok; intros ?; eexists; reflexivity
    | apply avoids_abort; discriminate
    | apply avoids_load; discriminate
    | apply avoids_the_alarms; discriminate
    | apply avoids_load_queue; discriminate
    | apply avoids_semaphore_post; discriminate
    | apply avoids_bind; [|intros ?]
    | match goal with
      | |- avoids _ (assert ?b) => destruct b
      | |- avoids _ (if ?b then _ else _) => destruct b
      | |- avoids _ (match ?x with _ => _ end) => destruct x
      | |- avoids _ (let _ := _ in _) => cbv zeta
      end ].

Lemma avoids_remove_queued_copies fuel alarm :
  avoids DivisionByZero (remove_queued_copies fuel alarm).
Proof.
  induction fuel as [|fuel IH]; simpl;
    unfold fixed_queue_try_remove_from_queue, store_queue; avoid.
Qed.
#[local] Hint Resolve avoids_remove_queued_copies : avoided.

Lemma avoids_insert_after_scan alarm d nodes :
  avoids DivisionByZero (insert_after_scan alarm d nodes).
Proof. induction nodes as [|node rest IH]; simpl; avoid. Qed.
#[local] Hint Resolve avoids_insert_after_scan : avoided.

Lemma avoids_reschedule_root_alarm :
  avoids DivisionByZero reschedule_root_alarm.
Proof.
  unfold reschedule_root_alarm, reschedule_done, now, tick, emit. avoid.
Qed.
#[local] Hint Resolve avoids_reschedule_root_alarm : avoided.

(** The guard on the period keeps the modulo away from a zero divisor,
    whatever the alarm and the state. *)
Lemma avoids_schedule_next_instance alarm :
  avoids DivisionByZero (schedule_next_instance alarm).
Proof.
  unfold schedule_next_instance.
  apply avoids_bind; [avoid|intros l].
  apply avoids_bind; [avoid|intros a].
  apply avoids_bind.
  { destruct (callback a); [|avoid].
    unfold remove_pending_alarm, put_alarms. avoid. }
  intros _. apply avoids_bind; [unfold now, tick; avoid|intros t].
  apply avoids_bind; [avoid|intros a'].
  apply avoids_bind.
  { destruct (is_periodic a'); simpl; [|avoid].
    unfold umod. destruct (period a' =? 0); simpl; avoid. }
  intros ms_into_period. unfold store, put_alarms. avoid.
Qed.

(** C4. Whenever [schedule_next_instance] returns, the alarm's new
    deadline is [now + (period - ((now - creation_time) mod period))]
    when the alarm is periodic with a positive period, and
    [now + period] otherwise, in 64-bit unsigned arithmetic; it does
    return when the list holds allocated alarms, the alarm's queue is
    live and the expiration semaphore exists. When nothing wraps around
    these are the integer formulas, and the deadline of a periodic alarm
    is [creation_time + k * period] for some k ≥ 1: the first such
    instant after now. *)
Theorem schedule_next_instance_deadline alarm a s :
  heap s !! alarm = Some a →
  0 ≤ period a < 2 ^ 64 →
  let just_now := clock_ms (ticks s) in
  let d := if is_periodic a && (0 <? period a)
           then wrap64 (just_now
                        + wrap64 (period a
                                  - wrap64 (just_now - creation_time a)
                                    mod period a))
           else wrap64 (just_now + period a) in
  (∀ s', schedule_next_instance alarm s = Ok (tt, s') →
         ∃ a', heap s' !! alarm = Some a' ∧ deadline a' = d) ∧
  (∀ l, alarms s = Some l →
        (∀ q, queue a = Some q → is_Some (queues s !! q)) →
        list_allocated s l → is_Some (alarm_expired s) →
        ∃ s', schedule_next_instance alarm s = Ok (tt, s')) ∧
  (0 ≤ creation_time a ≤ just_now → just_now + period a < 2 ^ 64 →
     d = (if is_periodic a && (0 <? period a)
          then just_now
               + (period a - (just_now - creation_time a) mod period a)
          else just_now + period a) ∧
     (is_periodic a = true → 0 < period a →
        ∃ k, 1 ≤ k ∧ d = creation_time a + k * period a ∧
             just_now < d ≤ just_now + period a)).
Proof.
  intros Ha Hp just_now d.
  assert (Hd : next_deadline a just_now = d).
  { subst d. unfold next_deadline. destruct (is_periodic a); simpl.
    + destruct (period a =? 0) eqn:Hz; simpl.
      * apply Z.eqb_eq in Hz. rewrite Hz. reflexivity.
      * apply Z.eqb_neq in Hz.
        assert (Hpos : (0 <? period a) = true) by (apply Z.ltb_lt; lia).
        rewrite Hpos. reflexivity.
    + rewrite Z.sub_0_r. unfold wrap64. rewrite Zplus_mod_idemp_r.
      reflexivity. }
  split; [|split].
  - intros s' Hrun. eexists. split.
    + exact (schedule_next_instance_heap _ _ _ _ Ha Hrun).
    + exact Hd.
  - intros l Hl Hq Hall Hsem.
    destruct (schedule_next_instance_total _ _ _ _ Hl Ha Hq Hall Hsem)
      as (s' & Hrun & _).
    exists s'. exact Hrun.
  - intros Hc Hno. rewrite <- Hd. split.
    + apply next_deadline_exact; auto.
    + intros Hper Hpos.
      rewrite next_deadline_exact by auto.
      assert (Hpos' : (0 <? period a) = true) by (apply Z.ltb_lt; lia).
      rewrite Hper, Hpos'. simpl.
      pose proof (Z.mod_pos_bound (just_now - creation_time a) (period a) Hpos).
      pose proof (Z.div_mod (just_now - creation_time a) (period a)
                    ltac:(lia)) as Hdm.
      exists ((just_now - creation_time a) / period a + 1).
      assert (0 ≤ (just_now - creation_time a) / period a).
      { apply Z.div_pos; lia. }
      split; [lia|]. split; [|lia]. nia.
Qed.

(** C9. A periodic alarm whose period is 0 is accepted:
    [alarm_set_on_queue] with interval 0 returns, in a state whose list
    holds allocated alarms and whose expiration semaphore exists, and
    leaves the alarm with period 0 and the clock reading as deadline.
    [schedule_next_instance] on a periodic alarm with period 0 skips the
    modulo, so it never stops on a division by zero; whenever it returns
    the new deadline is the clock reading itself, and it does return
    when moreover the alarm's queue is live. *)
Theorem periodic_zero_period_reschedules_now alarm a s :
  heap s !! alarm = Some a →
  is_periodic a = true →
  (∀ l cb arg q,
     alarms s = Some l → is_Some (queues s !! q) →
     list_allocated s l → is_Some (alarm_expired s) →
     ∃ s' a', alarm_set_on_queue (Some alarm) 0 (Some cb) arg (Some q) s
              = Ok (tt, s') ∧
              heap s' !! alarm = Some a' ∧ period a' = 0 ∧
              callback a' = Some cb ∧
              deadline a' = clock_ms (S (ticks s))) ∧
  (period a = 0 →
     schedule_next_instance alarm s ≠ Abort DivisionByZero ∧
     (∀ s', schedule_next_instance alarm s = Ok (tt, s') →
            ∃ a', heap s' !! alarm = Some a' ∧
                  deadline a' = clock_ms (ticks s) ∧
                  period a' = 0 ∧ is_periodic a' = true) ∧
     (∀ l, alarms s = Some l →
           (∀ q, queue a = Some q → is_Some (queues s !! q)) →
           list_allocated s l → is_Some (alarm_expired s) →
           ∃ s', schedule_next_instance alarm s = Ok (tt, s'))).
Proof.
  intros Ha Hper.
  assert (Hnow : ∀ a0 t, is_periodic a0 = true → period a0 = 0 →
                         0 ≤ t < 2 ^ 64 → next_deadline a0 t = t).
  { intros a0 t Hp0 Hz0 Ht. unfold next_deadline. rewrite Hp0, Hz0. simpl.
    change (0 - 0) with 0.
    rewrite (wrap64_small 0) by lia. rewrite Z.add_0_r.
    apply wrap64_small. exact Ht. }
  split.
  - intros l cb arg q Hl Hq Hall Hsem.
    set (s1 := with_ticks (S (ticks s)) s).
    set (a1 := set_data arg (set_callback (Some cb) (set_queue (Some q)
                 (set_period 0
                    (set_creation_time (clock_ms (ticks s)) a))))).
    set (s2 := with_heap (<[alarm := a1]> (heap s1)) s1).
    assert (Hnow_s : now s = Ok (clock_ms (ticks s), s1))
      by (apply now_ok; rewrite Hl; eauto).
    assert (Ha1 : heap s1 !! alarm = Some a) by exact Ha.
    assert (Ha2 : heap s2 !! alarm = Some a1) by apply lookup_insert_eq.
    destruct (schedule_next_instance_total alarm a1 l s2)
      as (s3 & Hrun & _); auto.
    { intros q0 Hq0. injection Hq0 as <-. exact Hq. }
    { unfold list_allocated in *. rewrite Forall_forall in *.
      intros p Hp. subst s2. simpl.
      destruct (decide (p = alarm)) as [->|Hne].
      - rewrite lookup_insert_eq. eauto.
      - rewrite lookup_insert_ne by auto. apply Hall. exact Hp. }
    pose proof (schedule_next_instance_heap _ _ _ _ Ha2 Hrun) as Ha3.
    assert (Hassert : ∀ P `{Decision P}, P →
                      assert (bool_decide P) s = Ok (tt, s)).
    { intros P HP HPyes. rewrite bool_decide_eq_true_2 by exact HPyes.
      reflexivity. }
    unfold alarm_set_on_queue.
    rewrite (bind_ok _ _ s tt s) by (apply Hassert; eauto).
    unfold alarm_set_internal.
    rewrite (bind_ok _ _ s (alarms s) s) by reflexivity.
    rewrite (bind_ok _ _ s tt s) by (apply Hassert; rewrite Hl; eauto).
    rewrite (bind_ok _ _ s tt s) by (apply Hassert; eauto).
    rewrite (bind_ok _ _ s tt s) by (apply Hassert; eauto).
    rewrite (bind_ok _ _ _ _ _ Hnow_s).
    rewrite (bind_ok _ _ _ _ _ (store_ok _ _ _ _ Ha1)).
    fold a1. fold s2.
    rewrite (bind_ok _ _ _ _ _ Hrun).
    rewrite (store_ok _ _ _ _ Ha3).
    eexists. eexists. split; [reflexivity|]. simpl.
    split; [apply lookup_insert_eq|]. simpl.
    do 2 (split; [reflexivity|]).
    apply Hnow; [exact Hper|reflexivity|apply clock_ms_range].
  - intros Hzero. split; [apply avoids_schedule_next_instance|].
    split.
    + intros s' Hrun. eexists. split.
      * exact (schedule_next_instance_heap _ _ _ _ Ha Hrun).
      * simpl. repeat split; auto.
        apply Hnow; auto. apply clock_ms_range.
    + intros l Hl Hq Hall Hsem.
      destruct (schedule_next_instance_total _ _ _ _ Hl Ha Hq Hall Hsem)
        as (s' & Hrun & _).
      exists s'. exact Hrun.
Qed.

(** ** The public interface on NULL *)

(** C10 (as amended). [alarm_free(NULL)] returns and changes nothing;
    [alarm_cancel(NULL)] does so once the service is initialised, and
    fails its assertion on [alarms] before that; [alarm_is_scheduled]
    answers false for a NULL alarm and, whatever the alarm, while the
    list [alarms] is NULL. *)
Theorem null_pointer_tolerance s :
  alarm_free None s = Ok (tt, s) ∧
  alarm_cancel None s
  = (if alarms s is Some _ then Ok (tt, s) else Abort AssertionFailed) ∧
  alarm_is_scheduled None s = Ok (false, s) ∧
  (∀ alarm, alarm_is_scheduled alarm (with_alarms None s)
            = Ok (false, with_alarms None s)).
Proof.
  split; [reflexivity|]. split; [|split].
  - unfold alarm_cancel, bind, gets, assert.
    destruct (alarms s) as [l|] eqn:Hl.
    + rewrite bool_decide_eq_true_2 by eauto. reflexivity.
    + rewrite bool_decide_eq_false_2; [reflexivity|].
      intros [? ?]. discriminate.
  - unfold alarm_is_scheduled, bind, gets. destruct (alarms s); reflexivity.
  - intros alarm. reflexivity.
Qed.

(** ** The worker-queue handler *)

Lemma fixed_queue_try_dequeue_ok q x tl s :
  queues s !! q = Some (x :: tl) →
  fixed_queue_try_dequeue q s
  = Ok (Some x, with_queues (<[q := tl]> (queues s)) s).
Proof.
  intros Hq. unfold fixed_queue_try_dequeue, bind, load_queue.
  rewrite Hq. reflexivity.
Qed.

(** C7. With alarm A at the head of the queue, the handler takes it off
    the queue and captures A's callback, data and the deadline used for
    the statistics ([prev_deadline] for a periodic alarm, [deadline]
    otherwise); when A is one-shot it has cleared A's callback, data and
    deadline by the time the captured callback is invoked, and when A is
    periodic it has left A's record alone. *)
Theorem alarm_queue_ready_captures q alarm rest a s :
  queues s !! q = Some (alarm :: rest) → heap s !! alarm = Some a →
  let c := mk_captured alarm (callback a) (data a)
             (if is_periodic a then prev_deadline a else deadline a) in
  let s0 := with_queues (<[q := rest]> (queues s)) s in
  let s1 := if is_periodic a then s0
            else with_heap (<[alarm := serviced a]> (heap s)) s0 in
  alarm_queue_ready_locked q s = Ok (Some c, s1) ∧
  heap s1 !! alarm = Some (if is_periodic a then a else serviced a) ∧
  callback (serviced a) = None ∧ data (serviced a) = 0 ∧
  deadline (serviced a) = 0 ∧
  alarm_queue_ready (Some q) s
  = (t0 <- now ;;
     invoke (callback a) (data a) ;;
     t1 <- now ;;
     assert (t0 <=? t1) ;;
     store alarm (λ a',
       set_stats (update_scheduling_stats (stats a') t0
                    (if is_periodic a then prev_deadline a else deadline a)
                    (wrap64 (t1 - t0))) a')) s1.
Proof.
  intros Hq Ha c s0 s1.
  assert (Hlocked : alarm_queue_ready_locked q s = Ok (Some c, s1)).
  { unfold alarm_queue_ready_locked.
    rewrite (bind_ok _ _ _ _ _ (fixed_queue_try_dequeue_ok _ _ _ _ Hq)).
    fold s0.
    assert (Ha0 : heap s0 !! alarm = Some a) by exact Ha.
    rewrite (bind_ok _ _ _ _ _ (load_ok _ _ _ Ha0)).
    subst s1 c. destruct (is_periodic a).
    - reflexivity.
    - rewrite (bind_ok _ _ _ _ _ (store_ok _ _ _ _ Ha0)). reflexivity. }
  split; [exact Hlocked|]. split.
  { subst s1. destruct (is_periodic a).
    - exact Ha.
    - simpl. apply lookup_insert_eq. }
  do 3 (split; [reflexivity|]).
  unfold alarm_queue_ready. rewrite (bind_ok _ _ _ _ _ Hlocked).
  reflexivity.
Qed.

(** ** The dispatcher *)

Lemma callback_dispatch_rearm s n l :
  alarm_expired s = Some (S n) → dispatcher_thread_active s = true →
  alarms s = Some l →
  match l with
  | [] => True
  | alarm :: _ =>
      ∃ a, heap s !! alarm = Some a ∧ clock_ms (ticks s) < deadline a
  end →
  callback_dispatch_iteration s
  = (reschedule_root_alarm ;; ret Rearmed)
      (match l with
       | [] => with_alarm_expired (Some n) s
       | _ :: _ => with_ticks (S (ticks s)) (with_alarm_expired (Some n) s)
       end).
Proof.
  intros Hsem Hactive Hl Hfront.
  unfold callback_dispatch_iteration. unfold bind at 1. unfold gets at 1.
  rewrite Hsem. unfold bind at 1. unfold modify at 1.
  unfold bind at 1. unfold gets at 1. simpl. rewrite Hactive. simpl.
  set (s0 := with_alarm_expired (Some n) s).
  assert (Hl0 : alarms s0 = Some l) by exact Hl.
  rewrite (bind_ok _ _ _ _ _ (the_alarms_ok _ _ Hl0)).
  destruct l as [|alarm l']; [reflexivity|].
  destruct Hfront as (a & Ha & Hdue).
  assert (Ha0 : heap s0 !! alarm = Some a) by exact Ha.
  cbv beta iota.
  rewrite (bind_ok _ _ _ _ _ (load_ok _ _ _ Ha0)).
  rewrite (bind_ok _ _ _ _ _ (now_ok s0 ltac:(rewrite Hl0; eauto))).
  simpl. apply Z.ltb_lt in Hdue. rewrite Hdue. reflexivity.
Qed.

Lemma done_events_no_callback w wt :
  existsb is_callback (done_events w wt) = false.
Proof. unfold done_events. destruct (_ && _); reflexivity. Qed.

Lemma rearm_events_no_callback s next :
  existsb is_callback (rearm_events s next) = false.
Proof.
  unfold rearm_events.
  destruct (_ <? _); [destruct (timer_set s); [|destruct (_ =? _)]|];
    rewrite ?existsb_app, ?done_events_no_callback; reflexivity.
Qed.

Lemma reschedule_no_callback s s' :
  reschedule_root_alarm s = Ok (tt, s') →
  existsb is_callback (events_since s s') = false.
Proof.
  intros H. apply reschedule_inv in H as (_ & l & _ & H).
  destruct l as [|p l].
  - destruct H as (_ & Htr). rewrite (events_since_app _ _ _ Htr).
    apply done_events_no_callback.
  - destruct H as (next & _ & _ & Htr). rewrite (events_since_app _ _ _ Htr).
    apply rearm_events_no_callback.
Qed.

(** C6. A pass of the dispatcher that finds the list empty, or its front
    alarm due later than the clock reading, returns through [continue]:
    it is the re-evaluation of the wake policy and nothing else, so no
    alarm moves to a queue, the list and the alarms are as before and no
    callback runs; this also holds for the pass a spurious post of the
    expiration signal causes. And a pass that does dispatch an alarm took
    it from the front of the list with a deadline not later than the
    clock reading. *)
Theorem dispatcher_validates_front :
  (∀ s n l,
     alarm_expired s = Some n → alarms s = Some l →
     match l with
     | [] => True
     | alarm :: _ =>
         ∃ a, heap s !! alarm = Some a ∧ clock_ms (ticks s) < deadline a
     end →
     ∃ s1 r s',
       timer_callback s = Ok (tt, s1) ∧
       callback_dispatch_iteration s1 = Ok (r, s') ∧
       (if dispatcher_thread_active s
        then r = Rearmed ∧
             reschedule_root_alarm
               (match l with
                | [] => s
                | _ :: _ => with_ticks (S (ticks s)) s
                end) = Ok (tt, s')
        else r = Exited ∧ s' = s) ∧
       queues s' = queues s ∧ alarms s' = alarms s ∧ heap s' = heap s ∧
       existsb is_callback (events_since s s') = false) ∧
  (∀ s alarm s',
     callback_dispatch_iteration s = Ok (Dispatched alarm, s') →
     ∃ a l, alarms s = Some (alarm :: l) ∧ heap s !! alarm = Some a ∧
            deadline a ≤ clock_ms (ticks s)).
Proof.
  split.
  - intros s n l Hsem Hl Hfront.
    set (s1 := with_alarm_expired (Some (S n)) s).
    assert (Hpost : timer_callback s = Ok (tt, s1)).
    { unfold timer_callback, semaphore_post. rewrite Hsem. reflexivity. }
    assert (Hback : with_alarm_expired (Some n) s1 = s).
    { subst s1. destruct s. simpl in *. subst. reflexivity. }
    destruct (dispatcher_thread_active s) eqn:Hactive.
    2: { exists s1, Exited, s. split; [exact Hpost|]. split.
         { unfold callback_dispatch_iteration, bind, gets, modify. simpl.
           rewrite Hback, Hactive. reflexivity. }
         split; [auto|]. repeat split.
         unfold events_since. rewrite Nat.sub_diag. reflexivity. }
    pose proof (callback_dispatch_rearm s1 n l eq_refl Hactive Hl Hfront)
      as Hiter.
    set (s2 := match l with
               | [] => with_alarm_expired (Some n) s1
               | _ :: _ => with_ticks (S (ticks s1))
                             (with_alarm_expired (Some n) s1)
               end) in Hiter.
    assert (Hs2 : s2 = match l with
                       | [] => s
                       | _ :: _ => with_ticks (S (ticks s)) s
                       end).
    { subst s2. rewrite Hback. destruct l; reflexivity. }
    destruct (reschedule_total s2 l) as [s' Hs'].
    { subst s2. destruct l; exact Hl. }
    { intros p Hp. subst s2. destruct l as [|alarm l']; [discriminate|].
      injection Hp as <-. destruct Hfront as (a & Ha & _). simpl. eauto. }
    { subst s2. destruct l; simpl; eauto. }
    exists s1, Rearmed, s'. split; [exact Hpost|].
    split. { rewrite Hiter. rewrite (bind_ok _ _ _ _ _ Hs'). reflexivity. }
    rewrite <- Hs2. split; [split; [reflexivity|exact Hs']|].
    pose proof (reschedule_no_callback _ _ Hs') as Hcb.
    apply reschedule_inv in Hs' as (Hsame & _).
    destruct Hsame as (Hh & _ & Hq & _ & Hal & _).
    assert (Hev : events_since s s' = events_since s2 s').
    { unfold events_since. rewrite Hs2. destruct l; reflexivity. }
    rewrite Hev. rewrite Hh, Hq, Hal, Hs2.
    destruct l; simpl; auto.
  - intros s alarm s' H. unfold callback_dispatch_iteration in H.
    apply bind_inv in H as (sem & s0 & Hsem & H).
    injection Hsem as <- <-.
    destruct (alarm_expired s) as [[|n]|]; try discriminate.
    apply bind_inv in H as ([] & s1 & Hmod & H). injection Hmod as <-.
    apply bind_inv in H as (active & s2 & Hact & H). injection Hact as <- <-.
    destruct (negb _); [discriminate|].
    apply bind_inv in H as (l & s3 & Hl & H).
    apply the_alarms_inv in Hl as [-> Hl]. simpl in Hl.
    destruct l as [|front l'].
    { apply bind_inv in H as (? & ? & _ & H). discriminate. }
    apply bind_inv in H as (a & s4 & Ha & H).
    apply load_inv in Ha as [-> Ha]. simpl in Ha.
    apply bind_inv in H as (t & s5 & Ht & H).
    apply now_inv in Ht as (_ & -> & ->). simpl in H.
    destruct (clock_ms (ticks s) <? deadline a) eqn:Hdue.
    { apply bind_inv in H as (? & ? & _ & H). discriminate. }
    apply Z.ltb_ge in Hdue.
    repeat (apply bind_inv in H as (? & ? & _ & H)).
    injection H as <- _.
    exists a, l'. auto.
Qed.

(** ** Properties kept by every operation *)

Lemma preserves_ret {A} P (a : A) : preserves P (ret a).
Proof. intros s a' s' HP H. injection H as <- <-. exact HP. Qed.

Lemma preserves_abort {A} P f : preserves P (abort (A := A) f).
Proof. intros s a s' _ H. discriminate. Qed.

Lemma preserves_gets {A} P (f : state → A) : preserves P (gets f).
Proof. intros s a s' HP H. injection H as <- <-. exact HP. Qed.

Lemma preserves_assert P b : preserves P (assert b).
Proof.
  destruct b; [apply preserves_ret | apply preserves_abort].
Qed.

Lemma preserves_bind {A B} P (c : M A) (k : A → M B) :
  preserves P c → (∀ a, preserves P (k a)) → preserves P (bind c k).
Proof.
  intros Hc Hk s b s' HP H. apply bind_inv in H as (a & s1 & H1 & H2).
  exact (Hk a s1 b s' (Hc s a s1 HP H1) H2).
Qed.

(** Operations that only read the state keep every property. *)
Lemma preserves_load P p : preserves P (load p).
Proof.
  intros s a s' HP H. apply load_inv in H as [-> _]. exact HP.
Qed.

Lemma preserves_the_alarms P : preserves P the_alarms.
Proof.
  intros s a s' HP H. apply the_alarms_inv in H as [-> _]. exact HP.
Qed.

Lemma preserves_load_queue P q : preserves P (load_queue q).
Proof.
  intros s a s' HP H. unfold load_queue in H.
  destruct (queues s !! q); [|discriminate]. injection H as <- <-. exact HP.
Qed.

Create HintDb kept discriminated.

(** Walks through the binds and the case distinctions of a function;
    the operations that write the state are looked up in [kept]. *)
Ltac keep :=
  repeat first
    [ assumption
    | solve [auto 1 with kept nocore]
    | apply preserves_ret
    | apply preserves_abort
    | apply preserves_gets
    | apply preserves_assert
    | apply preserves_load
    | apply preserves_the_alarms
    | apply preserves_load_queue
    | apply preserves_bind; [|intros ?]
    | match goal with
      | |- preserves _ (if ?b then _ else _) => destruct b
      | |- preserves _ (match ?x with _ => _ end) => destruct x
      | |- preserves _ (let _ := _ in _) => cbv zeta
      end ].

Section Timer_bookkeeping.

(** A property of the trace and of [timer_set] alone, kept by a
    re-evaluation and by the events of the other functions. *)
Variable P : state → Prop.
Hypothesis P_frame :
  ∀ s s', trace s' = trace s → timer_set s' = timer_set s → P s → P s'.
Hypothesis P_reschedule : preserves P reschedule_root_alarm.
Hypothesis P_timer_delete : preserves P (emit EvTimerDelete).
Hypothesis P_callback : ∀ cb arg, preserves P (emit (EvCallback cb arg)).

Lemma preserves_modify f :
  (∀ s, trace (f s) = trace s ∧ timer_set (f s) = timer_set s) →
  preserves P (modify f).
Proof.
  intros Hf s [] s' HP H. injection H as <-.
  destruct (Hf s) as [Htr Hts]. exact (P_frame _ _ Htr Hts HP).
Qed.
#[local] Hint Extern 1 (preserves _ (modify _)) =>
  apply preserves_modify; intros ?; split; reflexivity : kept.

Lemma preserves_tick : preserves P tick.
Proof.
  intros s a s' HP H. injection H as <- <-.
  apply (P_frame s); auto.
Qed.
#[local] Hint Resolve preserves_tick : kept.

Lemma preserves_semaphore_post : preserves P semaphore_post.
Proof.
  intros s [] s' HP H. apply semaphore_post_inv in H as (n & _ & ->).
  apply (P_frame s); auto.
Qed.
#[local] Hint Resolve preserves_semaphore_post : kept.

Lemma preserves_store p f : preserves P (store p f).
Proof. unfold store. keep. Qed.
#[local] Hint Resolve preserves_store : kept.

Lemma preserves_put_alarms l : preserves P (put_alarms l).
Proof. unfold put_alarms. keep. Qed.
#[local] Hint Resolve preserves_put_alarms : kept.

Lemma preserves_store_queue q items : preserves P (store_queue q items).
Proof. unfold store_queue. keep. Qed.
#[local] Hint Resolve preserves_store_queue : kept.

Lemma preserves_now : preserves P now.
Proof. unfold now. keep. Qed.
#[local] Hint Resolve preserves_now : kept.

Lemma preserves_try_remove q x :
  preserves P (fixed_queue_try_remove_from_queue q x).
Proof.
  unfold fixed_queue_try_remove_from_queue. keep.
Qed.
#[local] Hint Resolve preserves_try_remove : kept.

Lemma preserves_enqueue q x : preserves P (fixed_queue_enqueue q x).
Proof.
  unfold fixed_queue_enqueue. keep.
Qed.
#[local] Hint Resolve preserves_enqueue : kept.

Lemma preserves_try_dequeue q : preserves P (fixed_queue_try_dequeue q).
Proof.
  unfold fixed_queue_try_dequeue. keep.
Qed.
#[local] Hint Resolve preserves_try_dequeue : kept.

Lemma preserves_fixed_queue_new : preserves P fixed_queue_new.
Proof. unfold fixed_queue_new. keep. Qed.
#[local] Hint Resolve preserves_fixed_queue_new : kept.

Lemma preserves_fixed_queue_free q : preserves P (fixed_queue_free q).
Proof. unfold fixed_queue_free. keep. Qed.
#[local] Hint Resolve preserves_fixed_queue_free : kept.

Lemma preserves_remove_queued_copies fuel alarm :
  preserves P (remove_queued_copies fuel alarm).
Proof.
  induction fuel as [|fuel IH]; simpl; keep.
Qed.
#[local] Hint Resolve preserves_remove_queued_copies : kept.

Lemma preserves_remove_pending_alarm alarm :
  preserves P (remove_pending_alarm alarm).
Proof.
  unfold remove_pending_alarm. keep.
Qed.
#[local] Hint Resolve preserves_remove_pending_alarm : kept.

Lemma preserves_insert_after_scan alarm d nodes :
  preserves P (insert_after_scan alarm d nodes).
Proof.
  induction nodes as [|node rest IH]; simpl; keep.
Qed.
#[local] Hint Resolve preserves_insert_after_scan : kept.

Lemma preserves_umod a b : preserves P (umod a b).
Proof. unfold umod. keep. Qed.
#[local] Hint Resolve preserves_umod : kept.

Lemma preserves_schedule_next_instance alarm :
  preserves P (schedule_next_instance alarm).
Proof.
  unfold schedule_next_instance. keep.
Qed.
#[local] Hint Resolve preserves_schedule_next_instance : kept.

Lemma preserves_alarm_cancel_internal alarm :
  preserves P (alarm_cancel_internal alarm).
Proof.
  unfold alarm_cancel_internal. keep.
Qed.
#[local] Hint Resolve preserves_alarm_cancel_internal : kept.

Lemma preserves_lazy_initialize : preserves P lazy_initialize.
Proof.
  unfold lazy_initialize, try_create. keep.
Qed.
#[local] Hint Resolve preserves_lazy_initialize : kept.

Lemma preserves_alarm_new_internal nm periodic :
  preserves P (alarm_new_internal nm periodic).
Proof.
  unfold alarm_new_internal. keep.
Qed.
#[local] Hint Resolve preserves_alarm_new_internal : kept.

Lemma preserves_alarm_cleanup : preserves P alarm_cleanup.
Proof.
  unfold alarm_cleanup. keep.
Qed.
#[local] Hint Resolve preserves_alarm_cleanup : kept.

Lemma preserves_alarm_set_internal alarm ms cb arg q :
  preserves P (alarm_set_internal alarm ms cb arg q).
Proof.
  unfold alarm_set_internal. keep.
Qed.
#[local] Hint Resolve preserves_alarm_set_internal : kept.

Lemma preserves_cancel_alarms_on_queue q nodes :
  preserves P (cancel_alarms_on_queue q nodes).
Proof.
  induction nodes as [|alarm rest IH]; simpl; keep.
Qed.
#[local] Hint Resolve preserves_cancel_alarms_on_queue : kept.

Lemma preserves_alarm_cancel alarm : preserves P (alarm_cancel alarm).
Proof.
  unfold alarm_cancel. keep.
Qed.
#[local] Hint Resolve preserves_alarm_cancel : kept.

Lemma preserves_do_call c : preserves P (do_call c).
Proof.
  destruct c; simpl; unfold alarm_new, alarm_new_periodic, alarm_set,
    alarm_set_on_queue, alarm_free, alarm_is_scheduled,
    alarm_get_remaining_ms, alarm_unregister_processing_queue; keep.
Qed.
#[local] Hint Resolve preserves_do_call : kept.

Lemma preserves_do_calls cs : preserves P (do_calls cs).
Proof.
  induction cs as [|c rest IH]; simpl; keep.
Qed.
#[local] Hint Resolve preserves_do_calls : kept.

Lemma preserves_alarm_queue_ready q : preserves P (alarm_queue_ready q).
Proof.
  unfold alarm_queue_ready, alarm_queue_ready_locked,
    alarm_queue_ready_unlocked, invoke. keep.
Qed.
#[local] Hint Resolve preserves_alarm_queue_ready : kept.

Lemma preserves_callback_dispatch_iteration :
  preserves P callback_dispatch_iteration.
Proof.
  unfold callback_dispatch_iteration. keep.
Qed.
#[local] Hint Resolve preserves_callback_dispatch_iteration : kept.

Lemma preserves_do_step st : preserves P (do_step st).
Proof.
  destruct st; simpl; unfold timer_callback; keep.
Qed.
#[local] Hint Resolve preserves_do_step : kept.

Lemma preserves_run sts : preserves P (run sts).
Proof.
  induction sts as [|st rest IH]; simpl; keep.
Qed.
#[local] Hint Resolve preserves_run : kept.

(** Such a property holds in every state of the service once it holds
    in the initial one. *)
Lemma reachable_invariant s : P initial_state → reachable s → P s.
Proof.
  intros H0 [sts Hrun]. unfold exec in Hrun.
  destruct (run sts initial_state) as [[[] s1]|] eqn:E; [|discriminate].
  injection Hrun as <-. exact (preserves_run sts _ _ _ H0 E).
Qed.

End Timer_bookkeeping.

(** ** The wake lock *)

Lemma count_events_app f tr1 tr2 :
  count_events f (tr1 ++ tr2)
  = (count_events f tr1 + count_events f tr2)%nat.
Proof.
  induction tr1 as [|e tr1 IH]; simpl; [reflexivity|]. rewrite IH. lia.
Qed.

Lemma unrecorded_app evs tr :
  settled tr → evs ≠ [] →
  unrecorded (evs ++ tr) = (unrecorded evs + unrecorded tr)%nat.
Proof.
  intros Hset. induction evs as [|e evs IH]; [contradiction|]. intros _.
  destruct evs as [|e' evs'].
  - simpl. destruct e; try reflexivity.
    destruct tr as [|e0 tr']; [reflexivity|].
    simpl in Hset. destruct e0; try discriminate; reflexivity.
  - change ((e :: e' :: evs') ++ tr) with (e :: (e' :: evs') ++ tr).
    change (unrecorded (e :: (e' :: evs') ++ tr))
      with ((match e with
             | EvTimerSettime tv_sec tv_nsec =>
                 if is_acquired e' && negb (it_value_set (tv_sec, tv_nsec))
                 then 1 else 0
             | _ => 0
             end + unrecorded ((e' :: evs') ++ tr))%nat).
    rewrite IH by discriminate.
    change (unrecorded (e :: e' :: evs'))
      with ((match e with
             | EvTimerSettime tv_sec tv_nsec =>
                 if is_acquired e' && negb (it_value_set (tv_sec, tv_nsec))
                 then 1 else 0
             | _ => 0
             end + unrecorded (e' :: evs'))%nat).
    lia.
Qed.

Lemma account_step s s' evs :
  wake_lock_account s →
  trace s' = evs ++ trace s → evs ≠ [] →
  settled evs →
  (acquired evs + (if timer_set s then 1 else 0)
   = release_calls evs + (if timer_set s' then 1 else 0) + unrecorded evs)%nat →
  wake_lock_account s'.
Proof.
  intros [Hacc Hset] Htr Hne Hhd Hcount. unfold wake_lock_account.
  rewrite Htr. split.
  - unfold acquired, release_calls in *.
    rewrite !count_events_app, (unrecorded_app _ _ Hset Hne). lia.
  - destruct evs; [contradiction|exact Hhd].
Qed.

Lemma account_reschedule : preserves wake_lock_account reschedule_root_alarm.
Proof.
  intros s [] s' Hacc H. apply reschedule_inv in H as (_ & l & _ & H).
  destruct l as [|p l].
  - destruct H as (Hts & Htr).
    apply (account_step s s' _ Hacc Htr); rewrite ?Hts; unfold done_events;
      try discriminate; destruct (timer_set s); reflexivity.
  - destruct H as (next & _ & Hts & Htr).
    unfold rearm_timer_set in Hts. unfold rearm_events in Htr.
    destruct (_ <? _).
    + destruct (timer_set s) eqn:Hheld.
      * apply (account_step s s' _ Hacc Htr); rewrite ?Hts, ?Hheld;
          unfold done_events; try discriminate;
          destruct (it_value_set _); reflexivity.
      * destruct (_ =? BT_STATUS_SUCCESS) eqn:Hst;
          apply (account_step s s' _ Hacc Htr); rewrite ?Hts, ?Hheld;
          unfold done_events; try discriminate; try reflexivity;
          simpl; unfold acquired, release_calls; simpl; rewrite ?Hst;
          try destruct (it_value_set _); reflexivity.
    + apply (account_step s s' _ Hacc Htr); rewrite ?Hts; unfold done_events;
        try discriminate; destruct (timer_set s); reflexivity.
Qed.

Lemma account_frame s s' :
  trace s' = trace s → timer_set s' = timer_set s →
  wake_lock_account s → wake_lock_account s'.
Proof.
  unfold wake_lock_account. intros -> ->. auto.
Qed.

Lemma account_other_event e :
  is_acquire e = false → is_release e = false →
  (∀ tv_sec tv_nsec, e ≠ EvTimerSettime tv_sec tv_nsec) →
  preserves wake_lock_account (emit e).
Proof.
  intros Ha Hr Ht s [] s' [Hacc Hset] H. injection H as <-.
  unfold wake_lock_account. simpl. split; [|exact Ha].
  unfold acquired, release_calls in *.
  assert (Ha' : is_acquired e = false).
  { destruct e; try reflexivity. discriminate. }
  simpl. rewrite Ha', Hr.
  destruct e; try exact Hacc. exfalso. exact (Ht _ _ eq_refl).
Qed.

(** The account holds in every state of the service. *)
Lemma reachable_account s : reachable s → wake_lock_account s.
Proof.
  apply reachable_invariant.
  - exact account_frame.
  - exact account_reschedule.
  - apply account_other_event; try reflexivity. discriminate.
  - intros cb arg. apply account_other_event; try reflexivity. discriminate.
  - split; [reflexivity|exact I].
Qed.

Lemma filter_all_acquired tr :
  Forall (λ e, is_acquire e = true → is_acquired e = true) tr →
  acquire_calls tr = acquired tr.
Proof.
  unfold acquire_calls, acquired.
  induction tr as [|e tr IH]; [reflexivity|].
  intros Hall. apply Forall_cons in Hall as [He Hall].
  simpl. destruct (is_acquire e) eqn:Ha.
  - rewrite (He eq_refl). f_equal. exact (IH Hall).
  - assert (Ha' : is_acquired e = false).
    { destruct e; try reflexivity. discriminate. }
    rewrite Ha'. exact (IH Hall).
Qed.

(** C1 (as amended). In every state the service reaches, if each call of
    [acquire_wake_lock] succeeded and no re-evaluation took the lock for
    a timer it then set to the zero time, the calls of
    [acquire_wake_lock] are the calls of [release_wake_lock], plus one
    while [timer_set] is true. A re-evaluation that finds the list empty
    leaves [timer_set] false, and releases the lock if it was held.
    [alarm_cleanup] makes no wake-lock call and does not touch
    [timer_set]: a lock held when it runs stays held. *)
Theorem wake_lock_balance :
  (∀ s, reachable s →
        Forall (λ e, is_acquire e = true → is_acquired e = true) (trace s) →
        unrecorded (trace s) = 0%nat →
        acquire_calls (trace s)
        = (release_calls (trace s) + (if timer_set s then 1 else 0))%nat) ∧
  (∀ s s', alarms s = Some [] → reschedule_root_alarm s = Ok (tt, s') →
           timer_set s' = false ∧
           release_calls (trace s')
           = (release_calls (trace s) + (if timer_set s then 1 else 0))%nat ∧
           acquire_calls (trace s') = acquire_calls (trace s)) ∧
  (∀ s s', alarm_cleanup s = Ok (tt, s') →
           timer_set s' = timer_set s ∧
           acquire_calls (trace s') = acquire_calls (trace s) ∧
           release_calls (trace s') = release_calls (trace s)).
Proof.
  split; [|split].
  - intros s Hreach Hall Hzero.
    destruct (reachable_account s Hreach) as [Hacc _].
    rewrite (filter_all_acquired _ Hall), Hacc, Hzero. lia.
  - intros s s' Hl H.
    destruct (reschedule_empty_inv _ _ Hl H) as (_ & Hts & Htr).
    split; [exact Hts|]. rewrite Htr.
    unfold done_events, release_calls, acquire_calls.
    rewrite !count_events_app.
    destruct (timer_set s); simpl; split; lia.
  - intros s s' H. unfold alarm_cleanup in H.
    apply bind_inv in H as (al & s0 & Hal & H). injection Hal as <- <-.
    destruct (alarms s) as [l|].
    + apply bind_inv in H as ([] & s1 & H1 & H). injection H1 as <-.
      apply bind_inv in H as ([] & s2 & H2 & H).
      apply semaphore_post_inv in H2 as (n & _ & ->).
      apply bind_inv in H as (q & s3 & H3 & H). injection H3 as <- <-.
      apply bind_inv in H as ([] & s4 & H4 & H).
      assert (Hfree : timer_set s4 = timer_set s ∧ trace s4 = trace s).
      { unfold fixed_queue_free in H4.
        destruct (default_callback_queue _); injection H4 as <-; auto. }
      destruct Hfree as [Hts4 Htr4].
      unfold bind, modify, emit in H. simpl in H. injection H as <-.
      simpl. rewrite Hts4, Htr4. auto.
    + injection H as <-. auto.
Qed.

(** ** Cancellation *)

Lemma rearm_events_nonempty s next :
  ∃ e evs, rearm_events s next = e :: evs.
Proof.
  unfold rearm_events, done_events.
  destruct (_ <? _); [destruct (timer_set s); [|destruct (_ =? _)]|];
    simpl; eauto.
Qed.

Lemma alarm_cancel_internal_eq alarm a l s :
  alarms s = Some l → heap s !! alarm = Some a →
  (∀ q, queue a = Some q → is_Some (queues s !! q)) →
  alarm_cancel_internal alarm s
  = (if is_front l alarm then reschedule_root_alarm else ret tt)
      (cancelled_state alarm a l s).
Proof.
  intros Hl Ha Hq. unfold alarm_cancel_internal.
  rewrite (bind_ok _ _ _ _ _ (the_alarms_ok _ _ Hl)).
  rewrite (bind_ok _ _ _ _ _ (remove_pending_alarm_ok _ _ _ _ Hl Ha Hq)).
  set (s1 := without_queued _ _ _).
  assert (Hh1 : heap s1 = heap s).
  { subst s1.
    destruct (without_queued_fields alarm a
                (with_alarms (Some (list_remove l alarm)) s)) as (-> & _).
    reflexivity. }
  assert (Ha1 : heap s1 !! alarm = Some a) by (rewrite Hh1; exact Ha).
  rewrite (bind_ok _ _ _ _ _ (store_ok _ _ _ _ Ha1)).
  rewrite Hh1. reflexivity.
Qed.

Lemma cancelled_state_fields alarm a l s :
  heap (cancelled_state alarm a l s) = <[alarm := cancelled a]> (heap s) ∧
  alarms (cancelled_state alarm a l s) = Some (list_remove l alarm) ∧
  alarm_expired (cancelled_state alarm a l s) = alarm_expired s ∧
  trace (cancelled_state alarm a l s) = trace s ∧
  (∀ q, queue a = Some q →
        queues (cancelled_state alarm a l s) !! q
        = Some (filter (λ y, y ≠ alarm) (default [] (queues s !! q)))).
Proof.
  unfold cancelled_state. simpl.
  destruct (without_queued_fields alarm a
              (with_alarms (Some (list_remove l alarm)) s))
    as (_ & Hal & _ & _ & Htr & Hsem).
  rewrite Hal, Hsem, Htr. simpl. repeat split; auto.
  intros q Hq. unfold without_queued. rewrite Hq. simpl.
  apply lookup_insert_eq.
Qed.

Lemma not_elem_of_filter_ne (items : list alarm_ptr) x :
  x ∉ filter (λ y, y ≠ x) items.
Proof.
  intros Hin. apply list_elem_of_filter in Hin as [Hne _]. apply Hne.
  reflexivity.
Qed.

Lemma alarm_cancel_internal_inv alarm s s' :
  alarm_cancel_internal alarm s = Ok (tt, s') →
  ∃ a l, alarms s = Some l ∧ heap s !! alarm = Some a ∧
         (∀ q, queue a = Some q → is_Some (queues s !! q)) ∧
         (if is_front l alarm then reschedule_root_alarm else ret tt)
           (cancelled_state alarm a l s) = Ok (tt, s').
Proof.
  intros H. pose proof H as H0. unfold alarm_cancel_internal in H0.
  apply bind_inv in H0 as (l & s0 & Hl & H0).
  apply the_alarms_inv in Hl as [-> Hl].
  apply bind_inv in H0 as ([] & s1 & Hrem & _).
  apply remove_pending_alarm_inv in Hrem as (l0 & a & Hl0 & Ha & Hq & _).
  rewrite Hl in Hl0. injection Hl0 as <-.
  exists a, l. repeat split; auto.
  rewrite <- (alarm_cancel_internal_eq _ _ _ _ Hl Ha Hq). exact H.
Qed.

(** What holds after the cancellation of an alarm that was in the list
    at most once. *)
Lemma alarm_cancel_post alarm a l s s' :
  alarms s = Some l → NoDup l → heap s !! alarm = Some a →
  (if is_front l alarm then reschedule_root_alarm else ret tt)
    (cancelled_state alarm a l s) = Ok (tt, s') →
  alarms s' = Some (list_remove l alarm) ∧
  (alarm ∉ list_remove l alarm) ∧
  (∀ q, queue a = Some q →
        ∃ items, queues s' !! q = Some items ∧ (alarm ∉ items)) ∧
  heap s' !! alarm = Some (cancelled a) ∧
  (if is_front l alarm
   then reschedule_root_alarm (cancelled_state alarm a l s) = Ok (tt, s')
   else s' = cancelled_state alarm a l s) ∧
  (events_since s s' ≠ [] ↔ is_front l alarm = true) ∧
  alarm_is_scheduled (Some alarm) s' = Ok (false, s').
Proof.
  intros Hl Hnd Ha Hrun.
  destruct (cancelled_state_fields alarm a l s)
    as (Hch & Hcl & Hcsem & Hctr & Hcq).
  assert (Hsame : same_schedule (cancelled_state alarm a l s) s').
  { destruct (is_front l alarm).
    - apply reschedule_inv in Hrun. apply Hrun.
    - injection Hrun as <-. apply same_schedule_refl. }
  destruct Hsame as (Hh & _ & Hqs & _ & Hal & _).
  assert (Hheap : heap s' !! alarm = Some (cancelled a)).
  { rewrite Hh, Hch. apply lookup_insert_eq. }
  split; [rewrite Hal; exact Hcl|].
  split; [apply list_remove_NoDup; exact Hnd|].
  split.
  { intros q Hqa. eexists. rewrite Hqs. split; [apply Hcq; exact Hqa|].
    apply not_elem_of_filter_ne. }
  split; [exact Hheap|].
  split.
  { destruct (is_front l alarm); [exact Hrun|].
    injection Hrun as <-. reflexivity. }
  split.
  { destruct (is_front l alarm).
    - split; [reflexivity|]. intros _.
      apply reschedule_inv in Hrun as (_ & l0 & _ & Hev).
      assert (Hne : ∃ e evs, trace s' = (e :: evs) ++ trace s).
      { rewrite <- Hctr. destruct l0 as [|p0 l0'].
        - destruct Hev as (_ & ->). unfold done_events. eauto.
        - destruct Hev as (next & _ & _ & ->).
          destruct (rearm_events_nonempty (cancelled_state alarm a l s) next)
            as (e & evs & ->). eauto. }
      destruct Hne as (e & evs & Hne).
      rewrite (events_since_app _ _ _ Hne). discriminate.
    - split; [|discriminate]. intros Hev. exfalso. apply Hev.
      injection Hrun as <-. unfold events_since.
      rewrite Hctr, Nat.sub_diag. reflexivity. }
  unfold alarm_is_scheduled, bind, gets. rewrite Hal, Hcl.
  rewrite (load_ok _ _ _ Hheap). reflexivity.
Qed.

(** ** The order of the pending list *)

#[local] Instance deadline_le_trans h : Transitive (deadline_le h).
Proof. unfold deadline_le. intros x y z Hxy Hyz. lia. Qed.

Lemma pending_sorted_strongly h l :
  pending_sorted h l ↔ StronglySorted (deadline_le h) l.
Proof.
  split.
  - apply Sorted_StronglySorted. apply _.
  - apply StronglySorted_Sorted.
Qed.

Lemma list_remove_sorted h l x :
  pending_sorted h l → pending_sorted h (list_remove l x).
Proof.
  rewrite !pending_sorted_strongly.
  induction l as [|y tl IH]; simpl; [auto|].
  intros Hs. apply StronglySorted_cons in Hs as [Hall Hs].
  destruct (decide (y = x)); [exact Hs|].
  apply StronglySorted_cons. split; [|apply IH; exact Hs].
  rewrite Forall_forall in *. intros z Hz. apply Hall.
  eapply list_remove_subset. exact Hz.
Qed.

Lemma pending_sorted_ext h h' l :
  (∀ x, x ∈ l → deadline_of h' x = deadline_of h x) →
  pending_sorted h l → pending_sorted h' l.
Proof.
  rewrite !pending_sorted_strongly.
  induction l as [|y tl IH]; intros Hext Hs; [constructor|].
  apply StronglySorted_cons in Hs as [Hall Hs].
  apply StronglySorted_cons. split.
  - rewrite Forall_forall in *. intros z Hz. unfold deadline_le.
    rewrite (Hext y), (Hext z).
    + apply Hall. exact Hz.
    + apply list_elem_of_further. exact Hz.
    + apply list_elem_of_here.
  - apply IH; [|exact Hs]. intros z Hz. apply Hext.
    apply list_elem_of_further. exact Hz.
Qed.

(** In a sorted list the scan leaves, before the new alarm, the entries
    that are due no later than it and, after it, the entries due strictly
    later. *)
Lemma inserted_sorted_split h alarm d l :
  pending_sorted h l → deadline_of h alarm = d →
  ∃ l1 l2, l = l1 ++ l2 ∧ inserted h alarm d l = l1 ++ alarm :: l2 ∧
           Forall (λ x, deadline_of h x ≤ d) l1 ∧
           Forall (λ y, d < deadline_of h y) l2 ∧
           pending_sorted h (l1 ++ alarm :: l2).
Proof.
  intros Hs Hd.
  destruct (inserted_split h alarm d l) as (l1 & l2 & -> & Hins & Hl1 & Hhd).
  exists l1, l2. split; [reflexivity|]. split; [exact Hins|].
  split; [exact Hl1|].
  apply pending_sorted_strongly in Hs.
  apply StronglySorted_app in Hs as (Hcross & Hs1 & Hs2).
  assert (Hl2 : Forall (λ y, d < deadline_of h y) l2).
  { destruct l2 as [|y l2']; [constructor|].
    specialize (Hhd y eq_refl).
    apply StronglySorted_cons in Hs2 as [Hall2 _].
    constructor; [exact Hhd|].
    rewrite Forall_forall in *. intros z Hz.
    specialize (Hall2 z Hz). unfold deadline_le in Hall2. lia. }
  split; [exact Hl2|].
  apply pending_sorted_strongly. apply StronglySorted_app.
  rewrite Forall_forall in Hl1, Hl2.
  split; [|split; [exact Hs1|]].
  - intros x1 x2 Hx1 Hx2. apply elem_of_cons in Hx2 as [->|Hx2].
    + unfold deadline_le. rewrite Hd. apply Hl1. exact Hx1.
    + apply Hcross; assumption.
  - apply StronglySorted_cons. split; [|exact Hs2].
    rewrite Forall_forall. intros z Hz. unfold deadline_le. rewrite Hd.
    specialize (Hl2 z Hz). lia.
Qed.

(** X1. Insertion keeps the order. When the list is sorted and holds each
    alarm once, and the alarm either has a callback (so that it is first
    taken off the list) or is not in the list, a return of
    [schedule_next_instance] leaves the alarm once in a sorted list,
    after every entry that is due no later, entries with the same
    deadline included, and before every entry due strictly later. *)
Theorem schedule_next_instance_keeps_order alarm a l s s' :
  alarms s = Some l → heap s !! alarm = Some a →
  NoDup l → pending_sorted (heap s) l →
  is_Some (callback a) ∨ alarm ∉ l →
  schedule_next_instance alarm s = Ok (tt, s') →
  ∃ l1 l2,
    alarms s' = Some (l1 ++ alarm :: l2) ∧
    l1 ++ l2 = list_remove l alarm ∧
    pending_sorted (heap s') (l1 ++ alarm :: l2) ∧
    NoDup (l1 ++ alarm :: l2) ∧
    Forall (λ x, deadline_of (heap s') x ≤ deadline_of (heap s') alarm) l1 ∧
    Forall (λ y, deadline_of (heap s') alarm < deadline_of (heap s') y) l2.
Proof.
  intros Hl Ha Hnd Hsorted Hcb Hrun.
  apply schedule_next_instance_inv in Hrun as (a0 & l0 & Hl0 & Ha0 & Hrun).
  rewrite Hl in Hl0. injection Hl0 as <-.
  rewrite Ha in Ha0. injection Ha0 as <-.
  set (d := next_deadline a (clock_ms (ticks s))) in *.
  set (h' := <[alarm := set_deadline d a]> (heap s)).
  assert (Hsame : same_schedule (inserted_state alarm a l s) s').
  { destruct (_ || _).
    - apply reschedule_inv in Hrun. apply Hrun.
    - injection Hrun as <-. apply same_schedule_refl. }
  destruct Hsame as (Hh & _ & _ & _ & Hal & _).
  rewrite inserted_state_heap in Hh. fold d in Hh. fold h' in Hh.
  rewrite inserted_state_alarms in Hal. fold d in Hal. fold h' in Hal.
  assert (Hl1 : (if callback a is Some _ then list_remove l alarm else l)
                = list_remove l alarm).
  { destruct (callback a) as [cb|] eqn:Hc; [reflexivity|].
    destruct Hcb as [[? ?]|Hnot]; [discriminate|].
    symmetry. apply list_remove_not_in. exact Hnot. }
  rewrite Hl1 in Hal.
  destruct (list_remove_NoDup l alarm Hnd) as [Hnd1 Hnot1].
  assert (Hd : deadline_of h' alarm = d).
  { unfold deadline_of, h'. rewrite lookup_insert_eq. reflexivity. }
  assert (Hsorted1 : pending_sorted h' (list_remove l alarm)).
  { apply (pending_sorted_ext (heap s)).
    - intros x Hx. unfold deadline_of, h'.
      rewrite lookup_insert_ne; [reflexivity|].
      intros ->. exact (Hnot1 Hx).
    - apply list_remove_sorted. exact Hsorted. }
  destruct (inserted_sorted_split h' alarm d _ Hsorted1 Hd)
    as (l1 & l2 & Hsplit & Hins & Hbefore & Hafter & Hsorted').
  exists l1, l2. rewrite Hal, Hins, Hh, Hd.
  split; [reflexivity|]. split; [symmetry; exact Hsplit|].
  split; [exact Hsorted'|]. split; [|split; assumption].
  rewrite <- Hins. apply inserted_NoDup; assumption.
Qed.

(** ** Each alarm is in the list at most once *)

Lemma gets_inv {A} (f : state → A) s a s' :
  gets f s = Ok (a, s') → a = f s ∧ s' = s.
Proof. intros H. injection H as <- <-. auto. Qed.

Lemma assert_inv b s s' : assert b s = Ok (tt, s') → b = true ∧ s' = s.
Proof. destruct b; intros H; [injection H as <-; auto|discriminate]. Qed.

Lemma modify_inv f s s' : modify f s = Ok (tt, s') → s' = f s.
Proof. intros H. injection H as <-. reflexivity. Qed.

Lemma store_inv p f s s' :
  store p f s = Ok (tt, s') →
  ∃ a, heap s !! p = Some a ∧ s' = with_heap (<[p := f a]> (heap s)) s.
Proof.
  intros H. unfold store in H. apply bind_inv in H as (a & s1 & Ha & H).
  apply load_inv in Ha as [-> Ha]. apply modify_inv in H.
  exists a. auto.
Qed.

Lemma wf_frame s s' :
  alarms s' = alarms s →
  (∀ p, is_Some (heap s !! p) → is_Some (heap s' !! p)) →
  pending_wf s → pending_wf s'.
Proof.
  intros Hal Hheap Hwf l Hl. rewrite Hal in Hl.
  destruct (Hwf l Hl) as [Hnd Hall]. split; [exact Hnd|].
  unfold list_allocated in *. rewrite Forall_forall in *.
  intros p Hp. apply Hheap. apply Hall. exact Hp.
Qed.

Lemma wf_same_schedule s s' :
  same_schedule s s' → pending_wf s → pending_wf s'.
Proof.
  intros (Hh & _ & _ & _ & Hal & _). apply wf_frame; [exact Hal|].
  intros p. rewrite Hh. auto.
Qed.

Section List_bookkeeping.

Lemma wf_modify f :
  (∀ s, alarms (f s) = alarms s ∧ heap (f s) = heap s) →
  preserves pending_wf (modify f).
Proof.
  intros Hf s [] s' Hwf H. apply modify_inv in H as ->.
  destruct (Hf s) as [Hal Hh]. apply (wf_frame s); [exact Hal| |exact Hwf].
  intros p. rewrite Hh. auto.
Qed.
#[local] Hint Extern 1 (preserves _ (modify _)) =>
  apply wf_modify; intros ?; split; reflexivity : kept.

Lemma wf_tick : preserves pending_wf tick.
Proof.
  intros s a s' Hwf H. injection H as <- <-.
  apply (wf_frame s); auto.
Qed.
#[local] Hint Resolve wf_tick : kept.

Lemma wf_semaphore_post : preserves pending_wf semaphore_post.
Proof.
  intros s [] s' Hwf H. apply semaphore_post_inv in H as (n & _ & ->).
  apply (wf_frame s); auto.
Qed.
#[local] Hint Resolve wf_semaphore_post : kept.

Lemma wf_emit e : preserves pending_wf (emit e).
Proof. unfold emit. keep. Qed.
#[local] Hint Resolve wf_emit : kept.

Lemma wf_store p f : preserves pending_wf (store p f).
Proof.
  intros s [] s' Hwf H. apply store_inv in H as (a & Ha & ->).
  apply (wf_frame s); [reflexivity| |exact Hwf].
  intros q Hq. simpl. destruct (decide (q = p)) as [->|Hne].
  - rewrite lookup_insert_eq. eauto.
  - rewrite lookup_insert_ne by auto. exact Hq.
Qed.
#[local] Hint Resolve wf_store : kept.

Lemma wf_reschedule : preserves pending_wf reschedule_root_alarm.
Proof.
  intros s [] s' Hwf H. apply reschedule_inv in H as (Hsame & _).
  exact (wf_same_schedule _ _ Hsame Hwf).
Qed.
#[local] Hint Resolve wf_reschedule : kept.

Lemma wf_put_empty : preserves pending_wf (put_alarms []).
Proof.
  intros s [] s' _ H. apply modify_inv in H as ->.
  intros l Hl. injection Hl as <-. split; constructor.
Qed.
#[local] Hint Resolve wf_put_empty : kept.

Lemma wf_store_queue q items : preserves pending_wf (store_queue q items).
Proof. unfold store_queue. keep. Qed.
#[local] Hint Resolve wf_store_queue : kept.

Lemma wf_now : preserves pending_wf now.
Proof. unfold now. keep. Qed.
#[local] Hint Resolve wf_now : kept.

Lemma wf_enqueue q x : preserves pending_wf (fixed_queue_enqueue q x).
Proof. unfold fixed_queue_enqueue. keep. Qed.
#[local] Hint Resolve wf_enqueue : kept.

Lemma wf_try_dequeue q : preserves pending_wf (fixed_queue_try_dequeue q).
Proof. unfold fixed_queue_try_dequeue. keep. Qed.
#[local] Hint Resolve wf_try_dequeue : kept.

Lemma wf_fixed_queue_new : preserves pending_wf fixed_queue_new.
Proof. unfold fixed_queue_new. keep. Qed.
#[local] Hint Resolve wf_fixed_queue_new : kept.

Lemma wf_fixed_queue_free q : preserves pending_wf (fixed_queue_free q).
Proof. unfold fixed_queue_free. keep. Qed.
#[local] Hint Resolve wf_fixed_queue_free : kept.

Lemma wf_removed alarm a l s :
  pending_wf s → alarms s = Some l →
  pending_wf (without_queued alarm a
                (with_alarms (Some (list_remove l alarm)) s)) ∧
  alarm ∉ list_remove l alarm.
Proof.
  intros Hwf Hl. destruct (Hwf l Hl) as [Hnd Hall].
  destruct (list_remove_NoDup l alarm Hnd) as [Hnd' Hnot].
  split; [|exact Hnot].
  destruct (without_queued_fields alarm a
              (with_alarms (Some (list_remove l alarm)) s))
    as (Hh & Hal & _).
  intros l' Hl'. rewrite Hal in Hl'. injection Hl' as <-.
  split; [exact Hnd'|].
  unfold list_allocated in *. rewrite Forall_forall in *.
  intros p Hp. rewrite Hh. apply Hall. eapply list_remove_subset. exact Hp.
Qed.

Lemma wf_remove_pending_alarm alarm :
  preserves pending_wf (remove_pending_alarm alarm).
Proof.
  intros s [] s' Hwf H.
  apply remove_pending_alarm_inv in H as (l & a & Hl & _ & _ & ->).
  apply wf_removed; assumption.
Qed.
#[local] Hint Resolve wf_remove_pending_alarm : kept.

(** Insertion keeps the list duplicate-free when the alarm has a
    callback, so that it is taken off the list first, or is not in the
    list. *)
Lemma wf_schedule_next_instance alarm s s' :
  pending_wf s →
  (∀ a l, heap s !! alarm = Some a → alarms s = Some l →
          is_Some (callback a) ∨ alarm ∉ l) →
  schedule_next_instance alarm s = Ok (tt, s') →
  pending_wf s'.
Proof.
  intros Hwf Hpre H.
  apply schedule_next_instance_inv in H as (a & l & Hl & Ha & H).
  assert (Hsame : same_schedule (inserted_state alarm a l s) s').
  { destruct (_ || _).
    - apply reschedule_inv in H. apply H.
    - injection H as <-. apply same_schedule_refl. }
  apply (wf_same_schedule _ _ Hsame). clear H Hsame.
  destruct (Hwf l Hl) as [Hnd Hall].
  intros l' Hl'. rewrite inserted_state_alarms in Hl'. injection Hl' as <-.
  unfold list_allocated. rewrite inserted_state_heap.
  set (d := next_deadline a (clock_ms (ticks s))).
  set (l1 := if callback a is Some _ then list_remove l alarm else l).
  assert (Hl1 : NoDup l1 ∧ (alarm ∉ l1) ∧ ∀ x, x ∈ l1 → x ∈ l).
  { subst l1. destruct (callback a) as [cb|] eqn:Hcb.
    - destruct (list_remove_NoDup l alarm Hnd) as [? ?].
      split; [assumption|]. split; [assumption|].
      intros x. apply list_remove_subset.
    - destruct (Hpre a l Ha Hl) as [[? Hsome]|Hnot]; [congruence|].
      split; [assumption|]. split; [assumption|]. auto. }
  destruct Hl1 as (Hnd1 & Hnot1 & Hsub).
  split; [apply inserted_NoDup; assumption|].
  unfold list_allocated in *. rewrite Forall_forall in *.
  intros p Hp. apply inserted_elem_of in Hp.
  destruct (decide (p = alarm)) as [->|Hne].
  - rewrite lookup_insert_eq. eauto.
  - rewrite lookup_insert_ne by auto. destruct Hp as [?|Hp]; [contradiction|].
    apply Hall. apply Hsub. exact Hp.
Qed.

Lemma wf_alarm_cancel_internal alarm :
  preserves pending_wf (alarm_cancel_internal alarm).
Proof. unfold alarm_cancel_internal. keep. Qed.
#[local] Hint Resolve wf_alarm_cancel_internal : kept.

(** After a cancellation the alarm is not in the list. *)
Lemma alarm_cancel_internal_gone alarm s s' l' :
  pending_wf s → alarm_cancel_internal alarm s = Ok (tt, s') →
  alarms s' = Some l' → alarm ∉ l'.
Proof.
  intros Hwf H Hl'. unfold alarm_cancel_internal in H.
  apply bind_inv in H as (l & s0 & Hl & H).
  apply the_alarms_inv in Hl as [-> Hl].
  apply bind_inv in H as ([] & s1 & Hrem & H).
  apply remove_pending_alarm_inv in Hrem as (l0 & a & Hl0 & Ha & _ & ->).
  rewrite Hl in Hl0. injection Hl0 as <-.
  destruct (wf_removed alarm a l s Hwf Hl) as [_ Hnot].
  apply bind_inv in H as ([] & s2 & Hst & H).
  apply store_inv in Hst as (a1 & _ & ->).
  assert (Hal2 : alarms s' = Some (list_remove l alarm)).
  { destruct (is_front l alarm).
    - apply reschedule_inv in H as ((_ & _ & _ & _ & -> & _) & _). simpl.
      apply without_queued_fields.
    - injection H as <-. simpl. apply without_queued_fields. }
  rewrite Hal2 in Hl'. injection Hl' as <-. exact Hnot.
Qed.

Lemma wf_lazy_initialize : preserves pending_wf lazy_initialize.
Proof. unfold lazy_initialize, try_create. keep. Qed.
#[local] Hint Resolve wf_lazy_initialize : kept.

Lemma wf_allocate p a :
  preserves pending_wf
    (modify (λ s, with_next_alarm (S p)
                    (with_heap (<[p := a]> (heap s)) s))).
Proof.
  intros s [] s' Hwf H. apply modify_inv in H as ->.
  apply (wf_frame s); [reflexivity| |exact Hwf].
  intros x Hx. simpl. destruct (decide (x = p)) as [->|Hne].
  - rewrite lookup_insert_eq. eauto.
  - rewrite lookup_insert_ne by auto. exact Hx.
Qed.
#[local] Hint Resolve wf_allocate : kept.

Lemma wf_alarm_new_internal nm periodic :
  preserves pending_wf (alarm_new_internal nm periodic).
Proof. unfold alarm_new_internal. keep. Qed.
#[local] Hint Resolve wf_alarm_new_internal : kept.

Lemma wf_forget_list : preserves pending_wf (modify (with_alarms None)).
Proof.
  intros s [] s' _ H. apply modify_inv in H as ->.
  intros l0 Hl0. discriminate.
Qed.
#[local] Hint Resolve wf_forget_list : kept.

Lemma wf_alarm_cleanup : preserves pending_wf alarm_cleanup.
Proof. unfold alarm_cleanup. keep. Qed.
#[local] Hint Resolve wf_alarm_cleanup : kept.

Lemma wf_alarm_set_internal alarm ms cb arg q :
  preserves pending_wf (alarm_set_internal alarm ms cb arg q).
Proof.
  intros s [] s' Hwf H. unfold alarm_set_internal in H.
  apply bind_inv in H as (al & s0 & Hal & H). apply gets_inv in Hal as [-> ->].
  apply bind_inv in H as ([] & s0 & H0 & H). apply assert_inv in H0 as [_ ->].
  apply bind_inv in H as ([] & s0 & H0 & H). apply assert_inv in H0 as [_ ->].
  apply bind_inv in H as ([] & s0 & H0 & H). apply assert_inv in H0 as [Hcb ->].
  apply bool_decide_eq_true in Hcb.
  destruct alarm as [alarm|]; [|discriminate].
  apply bind_inv in H as (t & s1 & Ht & H).
  pose proof (wf_now _ _ _ Hwf Ht) as Hwf1.
  apply bind_inv in H as ([] & s2 & Hst & H).
  pose proof (wf_store _ _ _ _ _ Hwf1 Hst) as Hwf2.
  apply store_inv in Hst as (a & Ha & ->).
  apply bind_inv in H as ([] & s3 & Hsched & H).
  apply (wf_store _ _ _ _ _ (wf_schedule_next_instance _ _ _ Hwf2
           ltac:(intros a' l'; simpl; rewrite lookup_insert_eq;
                 intros Ha' _; injection Ha' as <-; left; exact Hcb)
           Hsched) H).
Qed.
#[local] Hint Resolve wf_alarm_set_internal : kept.

Lemma wf_cancel_alarms_on_queue q nodes :
  preserves pending_wf (cancel_alarms_on_queue q nodes).
Proof. induction nodes as [|alarm rest IH]; simpl; keep. Qed.
#[local] Hint Resolve wf_cancel_alarms_on_queue : kept.

Lemma wf_alarm_cancel alarm : preserves pending_wf (alarm_cancel alarm).
Proof. unfold alarm_cancel. keep. Qed.
#[local] Hint Resolve wf_alarm_cancel : kept.

Lemma wf_alarm_free alarm : preserves pending_wf (alarm_free alarm).
Proof.
  destruct alarm as [p|]; [|apply preserves_ret].
  intros s [] s' Hwf H. unfold alarm_free in H.
  apply bind_inv in H as ([] & s1 & Hcancel & H).
  pose proof (wf_alarm_cancel _ _ _ _ Hwf Hcancel) as Hwf1.
  apply modify_inv in H as ->.
  assert (Hgone : ∀ l, alarms s1 = Some l → p ∉ l).
  { intros l Hl. unfold alarm_cancel in Hcancel.
    apply bind_inv in Hcancel as (al & s0 & H0 & Hcancel).
    apply gets_inv in H0 as [-> ->].
    apply bind_inv in Hcancel as ([] & s0 & H0 & Hcancel).
    apply assert_inv in H0 as [_ ->].
    exact (alarm_cancel_internal_gone _ _ _ _ Hwf Hcancel Hl). }
  intros l Hl. simpl in Hl. destruct (Hwf1 l Hl) as [Hnd Hall].
  split; [exact Hnd|].
  unfold list_allocated in *. rewrite Forall_forall in *.
  intros x Hx. simpl. rewrite lookup_delete_ne.
  - apply Hall. exact Hx.
  - intros <-. exact (Hgone l Hl Hx).
Qed.
#[local] Hint Resolve wf_alarm_free : kept.

Lemma wf_do_call c : preserves pending_wf (do_call c).
Proof.
  destruct c; simpl; unfold alarm_new, alarm_new_periodic, alarm_set,
    alarm_set_on_queue, alarm_is_scheduled,
    alarm_get_remaining_ms, alarm_unregister_processing_queue; keep.
Qed.
#[local] Hint Resolve wf_do_call : kept.

Lemma wf_do_calls cs : preserves pending_wf (do_calls cs).
Proof. induction cs as [|c rest IH]; simpl; keep. Qed.
#[local] Hint Resolve wf_do_calls : kept.

Lemma wf_alarm_queue_ready q : preserves pending_wf (alarm_queue_ready q).
Proof.
  unfold alarm_queue_ready, alarm_queue_ready_locked,
    alarm_queue_ready_unlocked, invoke. keep.
Qed.
#[local] Hint Resolve wf_alarm_queue_ready : kept.

Lemma wf_callback_dispatch_iteration :
  preserves pending_wf callback_dispatch_iteration.
Proof.
  intros s r s' Hwf H. unfold callback_dispatch_iteration in H.
  apply bind_inv in H as (sem & s0 & H0 & H). apply gets_inv in H0 as [-> ->].
  destruct (alarm_expired s) as [[|n]|] eqn:Hsem; try discriminate.
  { injection H as _ <-. exact Hwf. }
  apply bind_inv in H as ([] & s1 & H1 & H).
  pose proof (wf_modify (with_alarm_expired (Some n))
                ltac:(intros ?; split; reflexivity) _ _ _ Hwf H1) as Hwf1.
  apply bind_inv in H as (active & s0 & H0 & H). apply gets_inv in H0 as [-> ->].
  destruct (negb _). { injection H as _ <-. exact Hwf1. }
  apply bind_inv in H as (l & s0 & Hl & H).
  apply the_alarms_inv in Hl as [-> Hl].
  destruct l as [|alarm rest].
  { apply bind_inv in H as ([] & s2 & H2 & H). injection H as _ <-.
    exact (wf_reschedule _ _ _ Hwf1 H2). }
  apply bind_inv in H as (a & s0 & Ha & H). apply load_inv in Ha as [-> Ha].
  apply bind_inv in H as (t & s2 & Ht & H).
  pose proof (wf_now _ _ _ Hwf1 Ht) as Hwf2.
  apply now_inv in Ht as (_ & -> & ->).
  destruct (_ <? _).
  { apply bind_inv in H as ([] & s3 & H3 & H). injection H as _ <-.
    exact (wf_reschedule _ _ _ Hwf2 H3). }
  apply bind_inv in H as ([] & s3 & H3 & H). apply modify_inv in H3 as ->.
  set (s3 := with_alarms _ _) in H.
  assert (Hrest : list_remove (alarm :: rest) alarm = rest).
  { simpl. destruct (decide (alarm = alarm)); [reflexivity|contradiction]. }
  assert (Hwf3 : pending_wf s3 ∧ alarm ∉ rest).
  { destruct (Hwf1 _ Hl) as [Hnd Hall]. apply NoDup_cons in Hnd as [Hnot Hnd].
    split; [|exact Hnot].
    intros l' Hl'. subst s3.
    change (Some (list_remove (alarm :: rest) alarm) = Some l') in Hl'.
    rewrite Hrest in Hl'.
    injection Hl' as <-. split; [exact Hnd|].
    unfold list_allocated in *. apply Forall_cons in Hall as [_ Hall].
    exact Hall. }
  destruct Hwf3 as [Hwf3 Hnot].
  assert (Hal3 : alarms s3 = Some rest).
  { subst s3.
    change (Some (list_remove (alarm :: rest) alarm) = Some rest).
    rewrite Hrest. reflexivity. }
  apply bind_inv in H as ([] & s4 & H4 & H).
  assert (Hwf4 : pending_wf s4).
  { destruct (is_periodic a).
    - apply bind_inv in H4 as ([] & s5 & H5 & H4).
      pose proof (wf_store _ _ _ _ _ Hwf3 H5) as Hwf5.
      apply store_inv in H5 as (a5 & _ & ->).
      apply bind_inv in H4 as ([] & s6 & H6 & H4).
      apply (wf_store _ _ _ _ _ (wf_schedule_next_instance _ _ _ Hwf5
               ltac:(intros a' l' _ Hl';
                     change (alarms s3 = Some l') in Hl';
                     rewrite Hal3 in Hl';
                     injection Hl' as <-; right; exact Hnot)
               H6) H4).
    - injection H4 as <-. exact Hwf3. }
  apply bind_inv in H as ([] & s5 & H5 & H).
  pose proof (wf_reschedule _ _ _ Hwf4 H5) as Hwf5.
  apply bind_inv in H as (a' & s0 & Ha' & H). apply load_inv in Ha' as [-> _].
  apply bind_inv in H as ([] & s6 & H6 & H). injection H as _ <-.
  exact (wf_enqueue _ _ _ _ _ Hwf5 H6).
Qed.
#[local] Hint Resolve wf_callback_dispatch_iteration : kept.

Lemma wf_do_step st : preserves pending_wf (do_step st).
Proof. destruct st; simpl; unfold timer_callback; keep. Qed.
#[local] Hint Resolve wf_do_step : kept.

Lemma wf_run sts : preserves pending_wf (run sts).
Proof. induction sts as [|st rest IH]; simpl; keep. Qed.

End List_bookkeeping.

Lemma reachable_pending_wf s : reachable s → pending_wf s.
Proof.
  intros [sts Hrun]. unfold exec in Hrun.
  destruct (run sts initial_state) as [[[] s1]|] eqn:E; [|discriminate].
  injection Hrun as <-.
  assert (H0 : pending_wf initial_state).
  { intros l0 Hl0. discriminate Hl0. }
  exact (wf_run sts _ _ _ H0 E).
Qed.

(** X2. Uniqueness. In every state the service reaches, the pending
    list holds each alarm at most once, and every alarm in it is
    allocated. *)
Theorem pending_list_unique s l :
  reachable s → alarms s = Some l → NoDup l ∧ list_allocated s l.
Proof. intros Hreach Hl. exact (reachable_pending_wf s Hreach l Hl). Qed.

(** C8. In every state the service reaches, when [alarm_cancel] on an
    alarm A returns, A is neither in the list nor in the queue it
    pointed to; its deadline, previous deadline and data are 0, its
    callback and queue are NULL and its [canceled_count] is one higher;
    the wake policy was re-evaluated, after these updates, exactly when
    A was at the front of the list; and [alarm_is_scheduled] answers
    false. The call does return when A's queue is live and the
    expiration semaphore exists. *)
Theorem alarm_cancel_clears alarm a l s :
  reachable s → alarms s = Some l → heap s !! alarm = Some a →
  (∀ s', alarm_cancel (Some alarm) s = Ok (tt, s') →
     alarms s' = Some (list_remove l alarm) ∧
     (alarm ∉ list_remove l alarm) ∧
     (∀ q, queue a = Some q →
           ∃ items, queues s' !! q = Some items ∧ (alarm ∉ items)) ∧
     (∃ a', heap s' !! alarm = Some a' ∧
            deadline a' = 0 ∧ prev_deadline a' = 0 ∧ callback a' = None ∧
            data a' = 0 ∧ queue a' = None ∧
            canceled_count (stats a')
            = wrap64 (canceled_count (stats a) + 1)) ∧
     (if is_front l alarm
      then reschedule_root_alarm (cancelled_state alarm a l s) = Ok (tt, s')
      else s' = cancelled_state alarm a l s) ∧
     (events_since s s' ≠ [] ↔ is_front l alarm = true) ∧
     alarm_is_scheduled (Some alarm) s' = Ok (false, s')) ∧
  ((∀ q, queue a = Some q → is_Some (queues s !! q)) →
   is_Some (alarm_expired s) →
   ∃ s', alarm_cancel (Some alarm) s = Ok (tt, s')).
Proof.
  intros Hreach Hl Ha.
  destruct (reachable_pending_wf s Hreach l Hl) as [Hnd Hall].
  assert (Hcancel : ∀ r, alarm_cancel (Some alarm) s = r →
                         alarm_cancel_internal alarm s = r).
  { intros r <-. unfold alarm_cancel, bind, gets, assert.
    rewrite bool_decide_eq_true_2 by (rewrite Hl; eauto). reflexivity. }
  split.
  - intros s' Hrun. apply Hcancel in Hrun.
    apply alarm_cancel_internal_inv in Hrun
      as (a0 & l0 & Hl0 & Ha0 & _ & Hrun).
    rewrite Hl in Hl0. injection Hl0 as <-.
    rewrite Ha in Ha0. injection Ha0 as <-.
    destruct (alarm_cancel_post _ _ _ _ _ Hl Hnd Ha Hrun)
      as (H1 & H2 & H3 & H4 & H5 & H6 & H7).
    split; [exact H1|]. split; [exact H2|]. split; [exact H3|].
    split; [exists (cancelled a); repeat split; exact H4|].
    split; [exact H5|]. split; [exact H6|exact H7].
  - intros Hq Hsem.
    assert (Hsome : ∃ s', alarm_cancel_internal alarm s = Ok (tt, s')).
    { rewrite (alarm_cancel_internal_eq _ _ _ _ Hl Ha Hq).
      destruct (cancelled_state_fields alarm a l s)
        as (Hch & Hcl & Hcsem & _).
      destruct (is_front l alarm); [|eexists; reflexivity].
      apply (reschedule_total _ _ Hcl).
      + intros p Hp. apply head_Some_elem_of in Hp.
        apply list_remove_subset in Hp. rewrite Hch.
        unfold list_allocated in Hall. rewrite Forall_forall in Hall.
        destruct (decide (p = alarm)) as [->|Hne].
        * rewrite lookup_insert_eq. eauto.
        * rewrite lookup_insert_ne by auto. apply Hall. exact Hp.
      + rewrite Hcsem. exact Hsem. }
    destruct Hsome as [s' Hs']. exists s'.
    unfold alarm_cancel, bind, gets, assert.
    rewrite bool_decide_eq_true_2 by (rewrite Hl; eauto). exact Hs'.
Qed.

(** * Further properties of the engine *)

(** ** The timer flag and the trace *)

Lemma last_settime_armed_app evs tr tv_sec tv_nsec :
  last_settime_armed ((EvTimerSettime tv_sec tv_nsec :: evs) ++ tr)
  = it_value_set (tv_sec, tv_nsec).
Proof. reflexivity. Qed.

Lemma mirror_reschedule :
  preserves (λ s, timer_set s = last_settime_armed (trace s))
    reschedule_root_alarm.
Proof.
  intros s [] s' _ H. apply reschedule_inv in H as (_ & l & _ & H).
  destruct l as [|p l].
  - destruct H as (-> & ->). reflexivity.
  - destruct H as (next & _ & -> & ->).
    unfold rearm_timer_set, rearm_events.
    destruct (_ <? _); [|reflexivity].
    destruct (timer_set s); [reflexivity|].
    destruct (_ =? BT_STATUS_SUCCESS); reflexivity.
Qed.

(** X3. In every state the service reaches, [timer_set] tells whether
    the most recent [timer_settime] call armed the timer, that is, passed
    a non-zero [it_value]; the [timer_delete] calls of [alarm_cleanup] do
    not reset it. *)
Theorem timer_set_mirrors_settime s :
  reachable s → timer_set s = last_settime_armed (trace s).
Proof.
  apply (reachable_invariant
           (λ s, timer_set s = last_settime_armed (trace s))).
  - intros s1 s2 Htr Hts H. rewrite Htr, Hts. exact H.
  - exact mirror_reschedule.
  - intros s1 [] s2 H Hrun. injection Hrun as <-. exact H.
  - intros cb arg s1 [] s2 H Hrun. injection Hrun as <-. exact H.
  - reflexivity.
Qed.

(** ** Wake locks are never released in excess *)

Lemma acquired_le_calls tr : (acquired tr ≤ acquire_calls tr)%nat.
Proof.
  unfold acquired, acquire_calls.
  induction tr as [|e tr IH]; simpl; [lia|].
  destruct e; simpl; try lia. destruct (_ =? _); lia.
Qed.

(** X4. In every state the service reaches, whatever the callouts
    answered, the engine has called [release_wake_lock] at most as often
    as [acquire_wake_lock] succeeded, and strictly less often while
    [timer_set] is true. *)
Theorem wake_lock_never_over_released s :
  reachable s →
  (release_calls (trace s) + (if timer_set s then 1 else 0)
   ≤ acquired (trace s))%nat ∧
  (acquired (trace s) ≤ acquire_calls (trace s))%nat.
Proof.
  intros H. apply reachable_account in H as [H _].
  split; [lia|apply acquired_le_calls].
Qed.

(** ** Statistics *)

Lemma update_stat_fields st delta :
  count (update_stat st delta) = wrap64 (count st + 1) ∧
  total_ms (update_stat st delta) = wrap64 (total_ms st + delta) ∧
  max_ms (update_stat st delta) = Z.max (max_ms st) delta.
Proof.
  unfold update_stat. destruct (max_ms st <? delta) eqn:E; simpl.
  - apply Z.ltb_lt in E. repeat split; lia.
  - apply Z.ltb_ge in E. repeat split; lia.
Qed.

Lemma wrap64_add_l a b : wrap64 (wrap64 a + b) = wrap64 (a + b).
Proof. unfold wrap64. apply Zplus_mod_idemp_l. Qed.

Lemma foldr_max_start m d ds :
  foldr Z.max (Z.max m d) ds = Z.max d (foldr Z.max m ds).
Proof. induction ds as [|x ds IH]; simpl; lia. Qed.

(** X5. [update_stat] keeps a running count, sum and maximum: after a
    series of measurements the count has grown by their number and the
    total by their sum, both modulo 2^64, and [max_ms] is the largest of
    the old maximum and the measurements. *)
Theorem update_stat_accumulates st deltas :
  0 ≤ count st < 2 ^ 64 → 0 ≤ total_ms st < 2 ^ 64 →
  count (measured st deltas) = wrap64 (count st + Z.of_nat (length deltas)) ∧
  total_ms (measured st deltas) = wrap64 (total_ms st + foldr Z.add 0 deltas) ∧
  max_ms (measured st deltas) = foldr Z.max (max_ms st) deltas.
Proof.
  unfold measured. revert st.
  induction deltas as [|d ds IH]; intros st Hc Ht.
  - simpl. rewrite !Z.add_0_r, !wrap64_small by assumption. auto.
  - destruct (update_stat_fields st d) as (Ec & Et & Em).
    destruct (IH (update_stat st d)) as (Hc' & Ht' & Hm').
    { rewrite Ec. apply wrap64_range. }
    { rewrite Et. apply wrap64_range. }
    cbn [fold_left foldr length]. rewrite Hc', Ht', Hm', Ec, Et, Em.
    rewrite !wrap64_add_l, foldr_max_start.
    repeat split; try lia; f_equal; lia.
Qed.

(** ** Teardown and initialisation *)

Lemma uninitialised_asserts s :
  alarms s = None →
  alarm_cleanup s = Ok (tt, s) ∧
  (∀ alarm ms cb arg q,
     alarm_set_on_queue alarm ms cb arg q s = Abort AssertionFailed) ∧
  (∀ alarm ms cb arg, alarm_set alarm ms cb arg s = Abort AssertionFailed) ∧
  (∀ alarm, alarm_cancel alarm s = Abort AssertionFailed) ∧
  (∀ p, alarm_free (Some p) s = Abort AssertionFailed) ∧
  (∀ alarm, alarm_get_remaining_ms alarm s = Abort AssertionFailed) ∧
  (∀ q, alarm_unregister_processing_queue q s = Abort AssertionFailed).
Proof.
  intros H. destruct s as [h na qs nq al ts da ae dq thr tr tk].
  simpl in H; subst.
  split; [reflexivity|].
  split; [intros alarm ms cb arg [q|]; reflexivity|].
  split.
  { intros alarm ms cb arg. unfold alarm_set, bind, gets. simpl.
    destruct dq; reflexivity. }
  split; [reflexivity|].
  split; [reflexivity|].
  split; [intros [p|]; reflexivity|reflexivity].
Qed.

(** X6. [alarm_cleanup] does nothing before the service is initialised,
    and otherwise deletes both timers and forgets the list, without
    freeing any alarm. After it has returned a second call does nothing,
    and every operation on an alarm other than [alarm_is_scheduled] and
    [alarm_free(NULL)] fails the assertion [alarms != NULL]. *)
Theorem alarm_cleanup_shuts_down s :
  (alarms s = None → alarm_cleanup s = Ok (tt, s)) ∧
  (is_Some (alarms s) → is_Some (alarm_expired s) →
     ∃ s', alarm_cleanup s = Ok (tt, s') ∧
           events_since s s' = [EvTimerDelete; EvTimerDelete]) ∧
  (∀ s', alarm_cleanup s = Ok (tt, s') →
     alarms s' = None ∧ heap s' = heap s ∧
     alarm_cleanup s' = Ok (tt, s') ∧
     (∀ alarm ms cb arg q,
        alarm_set_on_queue alarm ms cb arg q s' = Abort AssertionFailed) ∧
     (∀ alarm ms cb arg,
        alarm_set alarm ms cb arg s' = Abort AssertionFailed) ∧
     (∀ alarm, alarm_cancel alarm s' = Abort AssertionFailed) ∧
     (∀ p, alarm_free (Some p) s' = Abort AssertionFailed) ∧
     (∀ alarm, alarm_get_remaining_ms alarm s' = Abort AssertionFailed) ∧
     (∀ q, alarm_unregister_processing_queue q s' = Abort AssertionFailed)).
Proof.
  split; [intros H; apply uninitialised_asserts; exact H|].
  split.
  - intros [l Hl] [n Hn]. unfold alarm_cleanup, bind, gets, semaphore_post.
    rewrite Hl. simpl. rewrite Hn. simpl.
    destruct (default_callback_queue s); simpl;
      (eexists; split; [reflexivity|]);
      apply (events_since_app _ _ [_; _]); reflexivity.
  - intros s' H.
    assert (Hs' : alarms s' = None ∧ heap s' = heap s).
    { unfold alarm_cleanup, bind, gets, semaphore_post in H.
      destruct (alarms s) eqn:Hl.
      - simpl in H. destruct (alarm_expired s); [|discriminate].
        simpl in H. destruct (default_callback_queue s);
          injection H as <-; split; reflexivity.
      - injection H as <-. split; [exact Hl|reflexivity]. }
    destruct Hs' as [Hnone Hheap].
    split; [exact Hnone|]. split; [exact Hheap|].
    apply uninitialised_asserts. exact Hnone.
Qed.


(** ** Setting an alarm *)

Lemma maybe_reschedule_inv (b : bool) s s' :
  (if b then reschedule_root_alarm else ret tt) s = Ok (tt, s') →
  same_schedule s s' ∧ (events_since s s' ≠ [] ↔ b = true) ∧
  (b = false → s' = s).
Proof.
  intros H. destruct b.
  - pose proof H as H0. apply reschedule_inv in H as (Hsame & l & _ & Hev).
    split; [exact Hsame|]. split; [|discriminate].
    split; [reflexivity|]. intros _.
    assert (Hne : ∃ e evs, trace s' = (e :: evs) ++ trace s).
    { destruct l as [|p l'].
      - destruct Hev as (_ & ->). unfold done_events. eauto.
      - destruct Hev as (next & _ & _ & ->).
        destruct (rearm_events_nonempty s next) as (e & evs & ->). eauto. }
    destruct Hne as (e & evs & Hne).
    rewrite (events_since_app _ _ _ Hne). discriminate.
  - injection H as <-. split; [apply same_schedule_refl|].
    split; [|reflexivity]. split; [|discriminate].
    intros Hev. exfalso. apply Hev. unfold events_since.
    rewrite Nat.sub_diag. reflexivity.
Qed.

Lemma inserted_state_trace alarm a l s :
  trace (inserted_state alarm a l s) = trace s ∧
  ticks (inserted_state alarm a l s) = S (ticks s) ∧
  timer_set (inserted_state alarm a l s) = timer_set s.
Proof.
  unfold inserted_state. destruct (callback a); simpl.
  - unfold without_queued. destruct (queue a); simpl; auto.
  - auto.
Qed.

Lemma events_since_frame s1 s2 s' :
  trace s2 = trace s1 → events_since s1 s' = events_since s2 s'.
Proof. intros H. unfold events_since. rewrite H. reflexivity. Qed.

Lemma alarm_set_internal_inv alarm ms cb arg q s s' :
  alarm_set_internal (Some alarm) ms (Some cb) arg q s = Ok (tt, s') →
  ∃ a l, alarms s = Some l ∧ heap s !! alarm = Some a ∧
    let a1 := configured a (clock_ms (ticks s)) ms cb arg q in
    let s1 := with_heap (<[alarm := a1]> (heap s)) (with_ticks (S (ticks s)) s) in
    let s2 := inserted_state alarm a1 l s1 in
    let a2 := set_deadline (next_deadline a1 (clock_ms (S (ticks s)))) a1 in
    ∃ s3,
      (if is_front l alarm || is_front (default [] (alarms s2)) alarm
       then reschedule_root_alarm else ret tt) s2 = Ok (tt, s3) ∧
      s' = with_heap
             (<[alarm := set_stats (incr_scheduled_count (stats a2)) a2]>
                (heap s3)) s3.
Proof.
  intros H. unfold alarm_set_internal in H.
  apply bind_inv in H as (al & s0 & Hal & H). apply gets_inv in Hal as [-> ->].
  apply bind_inv in H as ([] & s0 & H0 & H). apply assert_inv in H0 as [_ ->].
  apply bind_inv in H as ([] & s0 & H0 & H). apply assert_inv in H0 as [_ ->].
  apply bind_inv in H as ([] & s0 & H0 & H). apply assert_inv in H0 as [_ ->].
  apply bind_inv in H as (t & s1 & Ht & H).
  apply now_inv in Ht as (_ & -> & ->).
  apply bind_inv in H as ([] & s2 & Hst & H).
  apply store_inv in Hst as (a & Ha & ->).
  apply bind_inv in H as ([] & s3 & Hsched & H).
  match type of Hsched with
  | schedule_next_instance _ ?st = _ =>
      assert (Hh2 : heap st !! alarm
                    = Some (configured a (clock_ms (ticks s)) ms cb arg q))
        by apply lookup_insert_eq
  end.
  pose proof (schedule_next_instance_heap _ _ _ _ Hh2 Hsched) as Hh3.
  apply schedule_next_instance_inv in Hsched as (a0 & l & Hl & Ha0 & Hrun).
  simpl in Ha0. rewrite lookup_insert_eq in Ha0. injection Ha0 as <-.
  apply store_inv in H as (a3 & Ha3 & ->).
  rewrite Hh3 in Ha3. injection Ha3 as <-.
  exists a, l. split; [exact Hl|]. split; [exact Ha|].
  exists s3. split; [exact Hrun|reflexivity].
Qed.

Lemma alarm_set_on_queue_record alarm a l ms cb arg q s s' :
  alarms s = Some l → heap s !! alarm = Some a →
  alarm_set_on_queue (Some alarm) ms (Some cb) arg (Some q) s = Ok (tt, s') →
  let a1 := configured a (clock_ms (ticks s)) ms cb arg (Some q) in
  let a2 := set_deadline (next_deadline a1 (clock_ms (S (ticks s)))) a1 in
  heap s' !! alarm = Some (set_stats (incr_scheduled_count (stats a2)) a2) ∧
  is_Some (alarms s') ∧ (S (S (ticks s)) ≤ ticks s')%nat.
Proof.
  intros Hl Ha H. unfold alarm_set_on_queue in H.
  apply bind_inv in H as ([] & s0 & H0 & H). apply assert_inv in H0 as [_ ->].
  apply alarm_set_internal_inv in H as (a0 & l0 & Hl0 & Ha0 & H).
  rewrite Hl in Hl0. injection Hl0 as <-.
  rewrite Ha in Ha0. injection Ha0 as <-.
  cbv zeta in H. destruct H as (s3 & Hrun & ->).
  apply maybe_reschedule_inv in Hrun as (Hsame & _ & _).
  destruct Hsame as (_ & _ & _ & _ & Hal & _ & _ & _ & _ & Htk).
  cbv zeta. split; [simpl; apply lookup_insert_eq|]. split.
  - simpl. rewrite Hal, inserted_state_alarms. eauto.
  - simpl. etransitivity; [|exact Htk].
    match goal with
    | |- (_ ≤ ticks (inserted_state ?x ?y ?z ?w))%nat =>
        destruct (inserted_state_trace x y z w) as (_ & -> & _)
    end.
    reflexivity.
Qed.

Lemma next_deadline_one_shot a t :
  is_periodic a = false → 0 ≤ period a < 2 ^ 64 →
  next_deadline a t = wrap64 (t + period a).
Proof.
  intros Hone Hp. unfold next_deadline. rewrite Hone. simpl.
  rewrite Z.sub_0_r, (wrap64_small (period a)) by exact Hp. reflexivity.
Qed.

Lemma alarm_get_remaining_ms_ok alarm a s :
  is_Some (alarms s) → heap s !! alarm = Some a →
  0 ≤ deadline a < 2 ^ 64 →
  alarm_get_remaining_ms (Some alarm) s
  = Ok (Z.max 0 (deadline a - clock_ms (ticks s)),
        with_ticks (S (ticks s)) s).
Proof.
  intros Hal Ha Hd. unfold alarm_get_remaining_ms.
  rewrite (bind_ok _ _ _ _ _ (now_ok _ Hal)).
  rewrite (bind_ok _ _ _ a (with_ticks (S (ticks s)) s))
    by (apply load_ok; exact Ha).
  pose proof (clock_ms_range (ticks s)) as Ht.
  destruct (_ <? _) eqn:E.
  - apply Z.ltb_lt in E. rewrite wrap64_small by lia.
    unfold ret. do 2 f_equal. lia.
  - apply Z.ltb_ge in E. unfold ret. do 2 f_equal. lia.
Qed.

Lemma alarm_cancel_internal_record alarm s s' :
  alarm_cancel_internal alarm s = Ok (tt, s') →
  ∃ a l, alarms s = Some l ∧ heap s !! alarm = Some a ∧
         (∀ q, queue a = Some q → is_Some (queues s !! q)) ∧
         heap s' = <[alarm := cancelled a]> (heap s) ∧
         alarms s' = Some (list_remove l alarm) ∧
         queues s' = queues (cancelled_state alarm a l s) ∧
         (is_Some (alarm_expired s) → is_Some (alarm_expired s')) ∧
         (events_since s s' ≠ [] ↔ is_front l alarm = true).
Proof.
  intros H. apply alarm_cancel_internal_inv in H as (a & l & Hl & Ha & Hq & H).
  exists a, l. split; [exact Hl|]. split; [exact Ha|]. split; [exact Hq|].
  destruct (cancelled_state_fields alarm a l s) as (Hch & Hcl & Hcsem & Hctr & _).
  apply maybe_reschedule_inv in H as (Hsame & Hev & _).
  destruct Hsame as (Hh & _ & Hqs & _ & Hal & _ & _ & _ & Hsem & _).
  split; [rewrite Hh; exact Hch|]. split; [rewrite Hal; exact Hcl|].
  split; [exact Hqs|]. split; [rewrite Hcsem in Hsem; exact Hsem|].
  rewrite <- Hev. unfold events_since. rewrite Hctr. reflexivity.
Qed.

Lemma alarm_set_on_queue_total alarm a l ms cb arg q s :
  alarms s = Some l → heap s !! alarm = Some a →
  is_Some (queues s !! q) → list_allocated s l →
  is_Some (alarm_expired s) →
  ∃ s', alarm_set_on_queue (Some alarm) ms (Some cb) arg (Some q) s
        = Ok (tt, s').
Proof.
  intros Hl Ha Hq Hall Hsem.
  set (a1 := configured a (clock_ms (ticks s)) ms cb arg (Some q)).
  set (s1 := with_ticks (S (ticks s)) s).
  set (s2 := with_heap (<[alarm := a1]> (heap s1)) s1).
  assert (Hnow_s : now s = Ok (clock_ms (ticks s), s1))
    by (apply now_ok; rewrite Hl; eauto).
  assert (Ha1 : heap s1 !! alarm = Some a) by exact Ha.
  assert (Ha2 : heap s2 !! alarm = Some a1) by apply lookup_insert_eq.
  destruct (schedule_next_instance_total alarm a1 l s2)
    as (s3 & Hrun & _); auto.
  { intros q0 Hq0. injection Hq0 as <-. exact Hq. }
  { unfold list_allocated in *. rewrite Forall_forall in *.
    intros p Hp. subst s2. simpl.
    destruct (decide (p = alarm)) as [->|Hne].
    - rewrite lookup_insert_eq. eauto.
    - rewrite lookup_insert_ne by auto. apply Hall. exact Hp. }
  pose proof (schedule_next_instance_heap _ _ _ _ Ha2 Hrun) as Ha3.
  assert (Hassert : ∀ P `{Decision P}, P →
                    assert (bool_decide P) s = Ok (tt, s)).
  { intros P HP HPyes. rewrite bool_decide_eq_true_2 by exact HPyes.
    reflexivity. }
  unfold alarm_set_on_queue.
  rewrite (bind_ok _ _ s tt s) by (apply Hassert; eauto).
  unfold alarm_set_internal.
  rewrite (bind_ok _ _ s (alarms s) s) by reflexivity.
  rewrite (bind_ok _ _ s tt s) by (apply Hassert; rewrite Hl; eauto).
  rewrite (bind_ok _ _ s tt s) by (apply Hassert; eauto).
  rewrite (bind_ok _ _ s tt s) by (apply Hassert; eauto).
  rewrite (bind_ok _ _ _ _ _ Hnow_s).
  rewrite (bind_ok _ _ _ _ _ (store_ok _ _ _ _ Ha1)).
  fold a1. fold s2.
  rewrite (bind_ok _ _ _ _ _ Hrun).
  rewrite (store_ok _ _ _ _ Ha3).
  eexists. reflexivity.
Qed.

(** X8. [alarm_set_on_queue]: whenever it returns the alarm holds the
    callback, argument, queue and interval it was given, its creation
    time is the clock reading, its scheduled count has grown by one, it
    is in the pending list, which otherwise holds the alarms it held
    before, and [alarm_is_scheduled] answers true. No other alarm is
    written. The timer, the wake lock and the wake alarm are touched
    exactly when the alarm was the front of the list or has become it.
    The call returns when the list holds allocated alarms, the queue is
    live and the expiration semaphore exists. *)
Theorem alarm_set_on_queue_arms alarm a l ms cb arg q s :
  alarms s = Some l → heap s !! alarm = Some a →
  (∀ s', alarm_set_on_queue (Some alarm) ms (Some cb) arg (Some q) s
         = Ok (tt, s') →
     (∃ a', heap s' !! alarm = Some a' ∧
            callback a' = Some cb ∧ data a' = arg ∧ queue a' = Some q ∧
            period a' = ms ∧ creation_time a' = clock_ms (ticks s) ∧
            is_periodic a' = is_periodic a ∧
            (is_periodic a = false → 0 ≤ ms < 2 ^ 64 →
               deadline a' = wrap64 (clock_ms (S (ticks s)) + ms)) ∧
            scheduled_count (stats a')
            = wrap64 (scheduled_count (stats a) + 1)) ∧
     (∀ p, p ≠ alarm → heap s' !! p = heap s !! p) ∧
     (∃ l', alarms s' = Some l' ∧ (∀ x, x ∈ l' ↔ x = alarm ∨ x ∈ l) ∧
            (events_since s s' ≠ []
             ↔ is_front l alarm || is_front l' alarm = true)) ∧
     alarm_is_scheduled (Some alarm) s' = Ok (true, s')) ∧
  (is_Some (queues s !! q) → list_allocated s l →
   is_Some (alarm_expired s) →
   ∃ s', alarm_set_on_queue (Some alarm) ms (Some cb) arg (Some q) s
         = Ok (tt, s')).
Proof.
  intros Hl Ha. split.
  - intros s' H. unfold alarm_set_on_queue in H.
    apply bind_inv in H as ([] & s0 & H0 & H). apply assert_inv in H0 as [_ ->].
    apply alarm_set_internal_inv in H as (a0 & l0 & Hl0 & Ha0 & H).
    rewrite Hl in Hl0. injection Hl0 as <-.
    rewrite Ha in Ha0. injection Ha0 as <-.
    cbv zeta in H. destruct H as (s3 & Hrun & ->).
    set (a1 := configured a (clock_ms (ticks s)) ms cb arg (Some q)) in *.
    set (s1 := with_heap (<[alarm := a1]> (heap s))
                 (with_ticks (S (ticks s)) s)) in *.
    apply maybe_reschedule_inv in Hrun as (Hsame & Hev & _).
    destruct Hsame as (Hh & _ & _ & _ & Hal & _).
    pose proof (inserted_state_alarms alarm a1 l s1) as Hins.
    pose proof (inserted_state_heap alarm a1 l s1) as Hinsh.
    destruct (inserted_state_trace alarm a1 l s1) as (Htr & _ & _).
    split.
    { eexists. split; [simpl; apply lookup_insert_eq|]. simpl.
      repeat split; try reflexivity.
      intros Hone Hms. unfold next_deadline. simpl. rewrite Hone. simpl.
      rewrite Z.sub_0_r, (wrap64_small ms) by exact Hms. reflexivity. }
    split.
    { intros p Hp. simpl. rewrite lookup_insert_ne by auto.
      rewrite Hh, Hinsh. rewrite lookup_insert_ne by auto.
      simpl. rewrite lookup_insert_ne by auto. reflexivity. }
    split.
    { eexists. split; [simpl; rewrite Hal; exact Hins|]. split.
      - intros x. rewrite inserted_elem_of. simpl.
        split.
        + intros [->|Hx]; [left; reflexivity|].
          right. eapply list_remove_subset. exact Hx.
        + intros [->|Hx]; [left; reflexivity|].
          destruct (decide (x = alarm)) as [->|Hne]; [left; reflexivity|].
          right. apply list_remove_other; assumption.
      - rewrite Hins in Hev. unfold events_since in *.
        rewrite Htr in Hev. exact Hev. }
    unfold alarm_is_scheduled, bind, gets. simpl. rewrite Hal, Hins.
    unfold load. simpl. rewrite lookup_insert_eq. reflexivity.
  - intros Hq Hall Hsem.
    apply (alarm_set_on_queue_total alarm a l); assumption.
Qed.

(** X9. Round trip of [alarm_set_on_queue] and [alarm_get_remaining_ms]
    for a one-shot alarm, when the deadline does not wrap around: the
    time remaining is the interval less the time that has passed between
    the clock reading of the set and that of the query, and 0 once the
    interval has passed; after [alarm_cancel] it is 0. *)
Theorem remaining_after_set alarm a l ms cb arg q s s' :
  alarms s = Some l → heap s !! alarm = Some a →
  is_periodic a = false →
  0 ≤ ms → clock_ms (S (ticks s)) + ms < 2 ^ 64 →
  alarm_set_on_queue (Some alarm) ms (Some cb) arg (Some q) s = Ok (tt, s') →
  alarm_get_remaining_ms (Some alarm) s'
  = Ok (Z.max 0 (ms - (clock_ms (ticks s') - clock_ms (S (ticks s)))),
        with_ticks (S (ticks s')) s') ∧
  (∀ s'', alarm_cancel (Some alarm) s' = Ok (tt, s'') →
          alarm_get_remaining_ms (Some alarm) s''
          = Ok (0, with_ticks (S (ticks s'')) s'')).
Proof.
  intros Hl Ha Hone Hms Hno H.
  pose proof (clock_ms_range (S (ticks s))) as Hclk.
  destruct (alarm_set_on_queue_record _ _ _ _ _ _ _ _ _ Hl Ha H)
    as (Hrec & Hal & _).
  cbv zeta in Hrec.
  split.
  - rewrite (alarm_get_remaining_ms_ok _ _ _ Hal Hrec).
    + simpl. rewrite next_deadline_one_shot by (simpl; auto; lia).
      simpl. rewrite wrap64_small by lia. do 2 f_equal. lia.
    + simpl. apply next_deadline_range.
  - intros s'' Hc. unfold alarm_cancel in Hc.
    apply bind_inv in Hc as (al & s0 & Hg & Hc). apply gets_inv in Hg as [-> ->].
    apply bind_inv in Hc as ([] & s0 & H0 & Hc). apply assert_inv in H0 as [_ ->].
    apply alarm_cancel_internal_record in Hc
      as (a' & l' & _ & Ha' & _ & Hh & Hal' & _).
    assert (Hrec' : heap s'' !! alarm = Some (cancelled a'))
      by (rewrite Hh; apply lookup_insert_eq).
    rewrite (alarm_get_remaining_ms_ok _ _ _ ltac:(rewrite Hal'; eauto) Hrec').
    + simpl. pose proof (clock_ms_range (ticks s'')). do 2 f_equal. lia.
    + simpl. lia.
Qed.

(** ** Unregistering a processing queue *)

Lemma cancelled_state_queue_live alarm a l s q :
  is_Some (queues s !! q) →
  is_Some (queues (cancelled_state alarm a l s) !! q).
Proof.
  intros Hq. unfold cancelled_state, without_queued. simpl.
  destruct (queue a) as [q'|]; simpl; [|exact Hq].
  destruct (decide (q' = q)) as [->|Hne].
  - rewrite lookup_insert_eq. eauto.
  - rewrite lookup_insert_ne by exact Hne. exact Hq.
Qed.

Lemma alarm_cancel_internal_total alarm a l s :
  alarms s = Some l → heap s !! alarm = Some a →
  (∀ q, queue a = Some q → is_Some (queues s !! q)) →
  list_allocated s l → is_Some (alarm_expired s) →
  ∃ s', alarm_cancel_internal alarm s = Ok (tt, s').
Proof.
  intros Hl Ha Hq Hall Hsem.
  rewrite (alarm_cancel_internal_eq _ _ _ _ Hl Ha Hq).
  destruct (is_front l alarm); [|eexists; reflexivity].
  destruct (cancelled_state_fields alarm a l s) as (Hch & Hcl & Hcsem & _).
  apply (reschedule_total _ _ Hcl).
  - intros p Hp. rewrite Hch.
    assert (Hin : p ∈ l).
    { apply (list_remove_subset l alarm). destruct (list_remove l alarm).
      - discriminate.
      - injection Hp as <-. apply list_elem_of_here. }
    unfold list_allocated in Hall. rewrite Forall_forall in Hall.
    destruct (decide (p = alarm)) as [->|Hne].
    + rewrite lookup_insert_eq. eauto.
    + rewrite lookup_insert_ne by auto. apply Hall. exact Hin.
  - rewrite Hcsem. exact Hsem.
Qed.

Lemma list_remove_NoDup_filter (l : list alarm_ptr) x :
  NoDup l → list_remove l x = filter (λ y, y ≠ x) l.
Proof.
  induction 1 as [|y l Hy Hnd IH]; [reflexivity|]. simpl.
  destruct (decide (y = x)) as [->|Hne].
  - rewrite filter_cons_False by auto. symmetry. apply filter_not_in. exact Hy.
  - rewrite filter_cons_True by auto. rewrite IH. reflexivity.
Qed.

Lemma filter_ext_in {A} (P1 P2 : A → Prop)
    `{!∀ x, Decision (P1 x), !∀ x, Decision (P2 x)} (l : list A) :
  (∀ x, x ∈ l → P1 x ↔ P2 x) → filter P1 l = filter P2 l.
Proof.
  induction l as [|y l IH]; intros Hext; [reflexivity|].
  assert (Hy : P1 y ↔ P2 y) by (apply Hext; left).
  assert (Hl : filter P1 l = filter P2 l).
  { apply IH. intros x Hx. apply Hext. right. exact Hx. }
  destruct (decide (P1 y)) as [Hp|Hp].
  - rewrite !filter_cons_True by tauto. rewrite Hl. reflexivity.
  - rewrite !filter_cons_False by tauto. exact Hl.
Qed.

Lemma filter_all {A} (P : A → Prop) `{!∀ x, Decision (P x)} (l : list A) :
  (∀ x, x ∈ l → P x) → filter P l = l.
Proof.
  induction l as [|y l IH]; intros Hall; [reflexivity|].
  rewrite filter_cons_True by (apply Hall; left).
  rewrite IH; [reflexivity|]. intros x Hx. apply Hall. right. exact Hx.
Qed.

Lemma uses_queue_insert_ne h q p x a :
  p ≠ x → uses_queue (<[x := a]> h) q p = uses_queue h q p.
Proof.
  intros Hne. unfold uses_queue. rewrite lookup_insert_ne by auto. reflexivity.
Qed.

Lemma cancel_alarms_on_queue_inv q nodes :
  ∀ s s' l,
    cancel_alarms_on_queue q nodes s = Ok (tt, s') →
    alarms s = Some l → NoDup l → NoDup nodes →
    alarms s'
    = Some (filter (λ p, ¬ (p ∈ nodes ∧ uses_queue (heap s) q p = true)) l) ∧
    (∀ p, heap s' !! p
          = if bool_decide (p ∈ nodes) && uses_queue (heap s) q p
            then cancelled <$> heap s !! p else heap s !! p).
Proof.
  induction nodes as [|x rest IH]; intros s s' l H Hl Hnd Hnodes.
  - injection H as <-. split.
    + rewrite Hl. f_equal. symmetry. apply filter_all.
      intros p _ [Hp _]. inversion Hp.
    + intros p. reflexivity.
  - apply NoDup_cons in Hnodes as [Hx Hrest].
    simpl in H.
    apply bind_inv in H as (a & s0 & Hld & H). apply load_inv in Hld as [-> Ha].
    apply bind_inv in H as ([] & s1 & Hc & H).
    assert (Huse : uses_queue (heap s) q x = bool_decide (queue a = Some q)).
    { unfold uses_queue. rewrite Ha. simpl.
      apply bool_decide_ext. split; congruence. }
    destruct (bool_decide (queue a = Some q)) eqn:Hqa.
    + apply alarm_cancel_internal_record in Hc
        as (a0 & l0 & Hl0 & Ha0 & _ & Hh & Hal & _).
      rewrite Hl in Hl0. injection Hl0 as <-.
      rewrite Ha in Ha0. injection Ha0 as <-.
      destruct (IH _ _ _ H Hal) as (Hal' & Hh'); auto.
      { apply list_remove_NoDup. exact Hnd. }
      split.
      * rewrite Hal'. f_equal.
        rewrite (list_remove_NoDup_filter _ _ Hnd), list_filter_filter.
        apply list_filter_iff. intros p. rewrite Hh. split.
        -- intros [Hn Hne] [Hin Hu]. apply elem_of_cons in Hin as [->|Hin].
           ++ apply Hne. reflexivity.
           ++ apply Hn. split; [exact Hin|].
              rewrite uses_queue_insert_ne by exact Hne. exact Hu.
        -- intros Hn. split.
           ++ intros [Hin Hu]. apply Hn. split; [right; exact Hin|].
              assert (p ≠ x) by (intros ->; contradiction).
              rewrite uses_queue_insert_ne in Hu by assumption. exact Hu.
           ++ intros ->. apply Hn. split; [left|exact Huse].
      * intros p. rewrite Hh', Hh.
        destruct (decide (p = x)) as [->|Hne].
        -- rewrite (bool_decide_eq_false_2 (x ∈ rest)) by exact Hx.
           rewrite (bool_decide_eq_true_2 (x ∈ x :: rest)) by left.
           rewrite Huse. simpl. rewrite lookup_insert_eq, Ha. reflexivity.
        -- rewrite uses_queue_insert_ne, lookup_insert_ne by auto.
           rewrite (bool_decide_ext (p ∈ x :: rest) (p ∈ rest)); [reflexivity|].
           rewrite elem_of_cons. tauto.
    + injection Hc as <-.
      destruct (IH _ _ _ H Hl) as (Hal' & Hh'); auto.
      split.
      * rewrite Hal'. f_equal. apply list_filter_iff. intros p. split.
        -- intros Hn [Hin Hu]. apply elem_of_cons in Hin as [->|Hin].
           ++ rewrite Huse in Hu. discriminate.
           ++ apply Hn. auto.
        -- intros Hn [Hin Hu]. apply Hn. split; [right; exact Hin|exact Hu].
      * intros p. rewrite Hh'.
        destruct (decide (p = x)) as [->|Hne].
        -- rewrite Huse, !andb_false_r. reflexivity.
        -- rewrite (bool_decide_ext (p ∈ x :: rest) (p ∈ rest)); [reflexivity|].
           rewrite elem_of_cons. tauto.
Qed.

Lemma cancel_alarms_on_queue_total q nodes :
  ∀ s l,
    alarms s = Some l → list_allocated s l → list_allocated s nodes →
    is_Some (queues s !! q) → is_Some (alarm_expired s) →
    ∃ s', cancel_alarms_on_queue q nodes s = Ok (tt, s').
Proof.
  induction nodes as [|x rest IH]; intros s l Hl Hall Hnodes Hq Hsem.
  - eexists. reflexivity.
  - unfold list_allocated in Hnodes. apply Forall_cons in Hnodes as [[a Ha] Hrest].
    simpl. rewrite (bind_ok _ _ _ _ _ (load_ok _ _ _ Ha)).
    destruct (bool_decide (queue a = Some q)) eqn:Hqa.
    + apply bool_decide_eq_true in Hqa.
      destruct (alarm_cancel_internal_total x a l s) as [s1 Hc]; auto.
      { intros q0 Hq0. rewrite Hqa in Hq0. injection Hq0 as <-. exact Hq. }
      rewrite (bind_ok _ _ _ _ _ Hc).
      apply alarm_cancel_internal_record in Hc
        as (a0 & l0 & Hl0 & Ha0 & _ & Hh & Hal & Hqs & Hsem' & _).
      rewrite Hl in Hl0. injection Hl0 as <-.
      rewrite Ha in Ha0. injection Ha0 as <-.
      assert (Hkeep : ∀ p, is_Some (heap s !! p) → is_Some (heap s1 !! p)).
      { intros p Hp. rewrite Hh. destruct (decide (p = x)) as [->|Hne].
        - rewrite lookup_insert_eq. eauto.
        - rewrite lookup_insert_ne by auto. exact Hp. }
      apply (IH s1 (list_remove l x)); auto.
      * unfold list_allocated in *. rewrite Forall_forall in *.
        intros p Hp. apply Hkeep, Hall. eapply list_remove_subset. exact Hp.
      * unfold list_allocated. eapply Forall_impl; [exact Hrest|]. exact Hkeep.
      * rewrite Hqs. apply cancelled_state_queue_live. exact Hq.
    + rewrite (bind_ok _ _ s tt s) by reflexivity.
      apply (IH s l); auto.
Qed.

(** X10. [alarm_unregister_processing_queue] cancels the pending alarms
    that use the queue and no other: afterwards the pending list holds,
    in their old order, the alarms that did not use the queue, so no
    pending alarm points to it; each alarm of the list that used it has
    the record [alarm_cancel] leaves; every other alarm, including one
    that uses the queue but was not in the list, is left as it was. The
    call returns when the list holds allocated alarms, the queue is live
    and the expiration semaphore exists. *)
Theorem alarm_unregister_processing_queue_cancels q l s :
  alarms s = Some l → NoDup l →
  (∀ s', alarm_unregister_processing_queue (Some q) s = Ok (tt, s') →
     alarms s' = Some (filter (λ p, uses_queue (heap s) q p = false) l) ∧
     (∀ p a, p ∈ l → heap s !! p = Some a → queue a = Some q →
             heap s' !! p = Some (cancelled a)) ∧
     (∀ p, p ∉ l ∨ uses_queue (heap s) q p = false →
           heap s' !! p = heap s !! p) ∧
     (∀ l' p, alarms s' = Some l' → p ∈ l' →
              uses_queue (heap s') q p = false)) ∧
  (list_allocated s l → is_Some (queues s !! q) →
   is_Some (alarm_expired s) →
   ∃ s', alarm_unregister_processing_queue (Some q) s = Ok (tt, s')).
Proof.
  intros Hl Hnd. split.
  - intros s' H. unfold alarm_unregister_processing_queue in H.
    apply bind_inv in H as (al & s0 & Hg & H). apply gets_inv in Hg as [-> ->].
    apply bind_inv in H as ([] & s0 & H0 & H). apply assert_inv in H0 as [_ ->].
    apply bind_inv in H as (l0 & s0 & Hl0 & H).
    apply the_alarms_inv in Hl0 as [-> Hl0].
    rewrite Hl in Hl0. injection Hl0 as <-.
    destruct (cancel_alarms_on_queue_inv _ _ _ _ _ H Hl Hnd Hnd) as (Hal & Hh).
    assert (Hlist : alarms s'
                    = Some (filter (λ p, uses_queue (heap s) q p = false) l)).
    { rewrite Hal. f_equal. apply filter_ext_in.
      intros p Hp. split.
      - intros Hn. destruct (uses_queue (heap s) q p); [|reflexivity].
        exfalso. apply Hn. auto.
      - intros Hu [_ Hu']. congruence. }
    split; [exact Hlist|]. split.
    { intros p a Hp Ha Hqa. rewrite Hh.
      rewrite (bool_decide_eq_true_2 _ Hp). unfold uses_queue.
      rewrite Ha. simpl. rewrite Hqa.
      rewrite bool_decide_eq_true_2 by reflexivity. reflexivity. }
    split.
    { intros p [Hp|Hp]; rewrite Hh.
      - rewrite (bool_decide_eq_false_2 _ Hp). reflexivity.
      - rewrite Hp, andb_false_r. reflexivity. }
    intros l' p Hl' Hp. rewrite Hlist in Hl'. injection Hl' as <-.
    apply list_elem_of_filter in Hp as [Hu Hp].
    unfold uses_queue in *. rewrite Hh.
    rewrite (bool_decide_eq_true_2 _ Hp). unfold uses_queue.
    rewrite Hu. exact Hu.
  - intros Hall Hq Hsem. unfold alarm_unregister_processing_queue.
    rewrite (bind_ok _ _ s (alarms s) s) by reflexivity.
    rewrite (bind_ok _ _ s tt s)
      by (unfold assert; rewrite bool_decide_eq_true_2 by (rewrite Hl; eauto);
          reflexivity).
    rewrite (bind_ok _ _ _ _ _ (the_alarms_ok _ _ Hl)).
    apply (cancel_alarms_on_queue_total q l s l); auto.
Qed.

(** ** What the dispatcher hands over *)

Lemma list_remove_head (l : list alarm_ptr) x : list_remove (x :: l) x = l.
Proof. simpl. destruct (decide (x = x)); [reflexivity|contradiction]. Qed.


Lemma inserted_state_queues alarm a l s :
  queues (inserted_state alarm a l s)
  = if callback a is Some _ then queues (without_queued alarm a s)
    else queues s.
Proof.
  unfold inserted_state. destruct (callback a); simpl; [|reflexivity].
  unfold without_queued. destruct (queue a); reflexivity.
Qed.

Lemma schedule_next_instance_queue_live alarm a s s' :
  heap s !! alarm = Some a → is_Some (callback a) →
  schedule_next_instance alarm s = Ok (tt, s') →
  ∀ q, queue a = Some q → is_Some (queues s !! q).
Proof.
  intros Ha [cb Hcb] H. unfold schedule_next_instance in H.
  apply bind_inv in H as (l & s0 & Hl & H). apply the_alarms_inv in Hl as [-> Hl].
  apply bind_inv in H as (a0 & s0 & Ha0 & H). apply load_inv in Ha0 as [-> Ha0].
  rewrite Ha in Ha0. injection Ha0 as <-.
  apply bind_inv in H as ([] & s1 & H1 & _). rewrite Hcb in H1.
  apply remove_pending_alarm_inv in H1 as (l1 & a1 & _ & Ha1 & Hq & _).
  rewrite Ha in Ha1. injection Ha1 as <-. exact Hq.
Qed.

Lemma without_queued_queue_live alarm a s q :
  is_Some (queues s !! q) → is_Some (queues (without_queued alarm a s) !! q).
Proof.
  intros Hq. unfold without_queued.
  destruct (queue a) as [q'|]; simpl; [|exact Hq].
  destruct (decide (q' = q)) as [->|Hne].
  - rewrite lookup_insert_eq. eauto.
  - rewrite lookup_insert_ne by exact Hne. exact Hq.
Qed.






(** ** Cancelled and freed alarms *)

Lemma alarm_cancel_inv alarm s s' :
  alarm_cancel (Some alarm) s = Ok (tt, s') →
  alarm_cancel_internal alarm s = Ok (tt, s').
Proof.
  intros H. unfold alarm_cancel in H.
  apply bind_inv in H as (al & s0 & Hg & H). apply gets_inv in Hg as [-> ->].
  apply bind_inv in H as ([] & s0 & H0 & H). apply assert_inv in H0 as [_ ->].
  exact H.
Qed.

Lemma cancelled_queue alarm a l s q :
  queue a = Some q →
  queues (cancelled_state alarm a l s) !! q
  = Some (filter (λ y, y ≠ alarm) (default [] (queues s !! q))).
Proof.
  intros Hq. destruct (cancelled_state_fields alarm a l s) as (_ & _ & _ & _ & H).
  apply H. exact Hq.
Qed.

(** X12. After [alarm_cancel] the handler of the alarm's queue does not
    service the alarm: whatever it takes from the queue next is another
    alarm, the others keep their order, and when the queue held nothing
    but copies of the cancelled alarm the handler returns at once,
    without running any callback. *)
Theorem cancelled_alarm_is_not_serviced alarm a q items s s' :
  heap s !! alarm = Some a → queue a = Some q →
  queues s !! q = Some items →
  alarm_cancel (Some alarm) s = Ok (tt, s') →
  queues s' !! q = Some (filter (λ y, y ≠ alarm) items) ∧
  (∀ c s'', alarm_queue_ready_locked q s' = Ok (Some c, s'') →
            cap_alarm c ≠ alarm) ∧
  (Forall (λ y, y = alarm) items →
   alarm_queue_ready (Some q) s' = Ok (tt, s')).
Proof.
  intros Ha Hqa Hitems H. apply alarm_cancel_inv in H.
  apply alarm_cancel_internal_record in H
    as (a0 & l & _ & Ha0 & _ & _ & _ & Hqs & _).
  rewrite Ha in Ha0. injection Ha0 as <-.
  assert (Hq' : queues s' !! q = Some (filter (λ y, y ≠ alarm) items)).
  { rewrite Hqs, (cancelled_queue _ _ _ _ _ Hqa), Hitems. reflexivity. }
  split; [exact Hq'|]. split.
  - intros c s'' Hc. unfold alarm_queue_ready_locked in Hc.
    apply bind_inv in Hc as (x & s1 & Hx & Hc).
    unfold fixed_queue_try_dequeue, bind, load_queue in Hx. rewrite Hq' in Hx.
    destruct (filter _ items) as [|y tl] eqn:Hf.
    + injection Hx as <- <-. discriminate.
    + injection Hx as <- <-.
      assert (Hy : y ∈ filter (λ y, y ≠ alarm) items) by (rewrite Hf; left).
      apply list_elem_of_filter in Hy as [Hy _].
      apply bind_inv in Hc as (ay & s2 & _ & Hc).
      apply bind_inv in Hc as ([] & s3 & _ & Hc).
      injection Hc as <- _. exact Hy.
  - intros Hall. unfold alarm_queue_ready, alarm_queue_ready_locked.
    unfold fixed_queue_try_dequeue, load_queue. unfold bind. rewrite Hq'.
    assert (Hnil : filter (λ y, y ≠ alarm) items = []).
    { clear -Hall. induction Hall as [|y l Hy _ IH]; [reflexivity|].
      rewrite filter_cons_False by auto. exact IH. }
    rewrite Hnil. reflexivity.
Qed.

(** X13. [alarm_free] of an allocated alarm cancels it and releases its
    record: afterwards the alarm is in neither the pending list nor its
    queue, every alarm still in the list is allocated, and all other
    records are as they were. The call returns when the list holds
    allocated alarms, the alarm's queue is live and the expiration
    semaphore exists. *)
Theorem alarm_free_forgets alarm a l s :
  alarms s = Some l → NoDup l → heap s !! alarm = Some a →
  (∀ s', alarm_free (Some alarm) s = Ok (tt, s') →
     heap s' = delete alarm (heap s) ∧
     alarms s' = Some (list_remove l alarm) ∧
     (alarm ∉ list_remove l alarm) ∧
     (list_allocated s l → list_allocated s' (list_remove l alarm)) ∧
     (∀ q, queue a = Some q →
           ∃ items, queues s' !! q = Some items ∧ (alarm ∉ items))) ∧
  ((∀ q, queue a = Some q → is_Some (queues s !! q)) →
   list_allocated s l → is_Some (alarm_expired s) →
   ∃ s', alarm_free (Some alarm) s = Ok (tt, s')).
Proof.
  intros Hl Hnd Ha. split.
  - intros s' H. unfold alarm_free in H.
    apply bind_inv in H as ([] & s1 & Hc & H). apply modify_inv in H as ->.
    apply alarm_cancel_inv in Hc.
    apply alarm_cancel_internal_record in Hc
      as (a0 & l0 & Hl0 & Ha0 & _ & Hh & Hal & Hqs & _).
    rewrite Hl in Hl0. injection Hl0 as <-.
    rewrite Ha in Ha0. injection Ha0 as <-.
    destruct (list_remove_NoDup l alarm Hnd) as [_ Hnot].
    split; [simpl; rewrite Hh; apply delete_insert_eq|].
    split; [exact Hal|]. split; [exact Hnot|]. split.
    + intros Hall. unfold list_allocated in *. rewrite Forall_forall in *.
      intros p Hp. simpl. rewrite Hh.
      assert (p ≠ alarm) by (intros ->; contradiction).
      rewrite lookup_delete_ne, lookup_insert_ne by auto.
      apply Hall. eapply list_remove_subset. exact Hp.
    + intros q Hqa. eexists. simpl. rewrite Hqs.
      split; [apply cancelled_queue; exact Hqa|].
      apply not_elem_of_filter_ne.
  - intros Hq Hall Hsem.
    destruct (alarm_cancel_internal_total alarm a l s) as [s1 Hc]; auto.
    unfold alarm_free, alarm_cancel.
    unfold bind at 1. unfold bind at 1. unfold gets.
    unfold bind at 1. unfold assert.
    rewrite bool_decide_eq_true_2 by (rewrite Hl; eauto).
    cbv beta iota. unfold ret at 1. cbv beta iota.
    rewrite Hc. eexists. reflexivity.
Qed.

(** ** Where callbacks run *)

Lemma callbacks_frame n s s' :
  trace s' = trace s → timer_set s' = timer_set s →
  callbacks_run s = n → callbacks_run s' = n.
Proof. unfold callbacks_run. intros -> _ H. exact H. Qed.

Lemma done_events_callbacks w wt : count_events is_callback (done_events w wt) = 0%nat.
Proof. unfold done_events. destruct (_ && _); reflexivity. Qed.

Lemma rearm_events_callbacks s next :
  count_events is_callback (rearm_events s next) = 0%nat.
Proof.
  unfold rearm_events. destruct (_ <? _).
  - destruct (timer_set s); [apply done_events_callbacks|].
    destruct (_ =? _); rewrite count_events_app, done_events_callbacks;
      reflexivity.
  - rewrite count_events_app, done_events_callbacks. reflexivity.
Qed.

Lemma callbacks_reschedule n :
  preserves (λ s, callbacks_run s = n) reschedule_root_alarm.
Proof.
  intros s [] s' Hn H. apply reschedule_inv in H as (_ & l & _ & H).
  unfold callbacks_run in *. destruct l as [|p l].
  - destruct H as (_ & ->). rewrite count_events_app, done_events_callbacks.
    exact Hn.
  - destruct H as (next & _ & _ & ->).
    rewrite count_events_app, rearm_events_callbacks. exact Hn.
Qed.

Lemma callbacks_timer_delete n :
  preserves (λ s, callbacks_run s = n) (emit EvTimerDelete).
Proof. intros s [] s' Hn H. injection H as <-. exact Hn. Qed.

Lemma alarm_queue_ready_locked_inv q c s s' :
  alarm_queue_ready_locked q s = Ok (c, s') →
  trace s' = trace s ∧ timer_set s' = timer_set s ∧
  ∃ items, queues s !! q = Some items ∧
           (c = None ↔ items = []).
Proof.
  intros H. unfold alarm_queue_ready_locked in H.
  apply bind_inv in H as (x & s1 & Hx & H).
  unfold fixed_queue_try_dequeue, bind, load_queue in Hx.
  destruct (queues s !! q) as [items|]; [|discriminate].
  destruct items as [|y tl].
  - injection Hx as <- <-. injection H as <- <-.
    split; [reflexivity|]. split; [reflexivity|].
    exists []. split; [reflexivity|]. split; reflexivity.
  - injection Hx as <- <-.
    apply bind_inv in H as (a & s2 & Ha & H). apply load_inv in Ha as [-> _].
    apply bind_inv in H as ([] & s3 & H3 & H). injection H as <- <-.
    assert (trace s3 = trace s ∧ timer_set s3 = timer_set s) as [-> ->].
    { destruct (is_periodic a).
      - injection H3 as <-. split; reflexivity.
      - apply store_inv in H3 as (? & _ & ->). split; reflexivity. }
    split; [reflexivity|]. split; [reflexivity|].
    exists (y :: tl). split; [reflexivity|]. split; discriminate.
Qed.

(** X14. User callbacks run in the queue handler and nowhere else: no
    call of the public interface, no pass of the dispatcher and no timer
    expiration runs one, while a run of [alarm_queue_ready] that returns
    has run exactly one when the queue was not empty, and none when it
    was. *)
Theorem callbacks_run_only_in_queue_handler :
  (∀ c s s', do_call c s = Ok (tt, s') → callbacks_run s' = callbacks_run s) ∧
  (∀ s r s', callback_dispatch_iteration s = Ok (r, s') →
             callbacks_run s' = callbacks_run s) ∧
  (∀ s s', timer_callback s = Ok (tt, s') →
           callbacks_run s' = callbacks_run s) ∧
  (∀ q items s s',
     queues s !! q = Some items →
     alarm_queue_ready (Some q) s = Ok (tt, s') →
     callbacks_run s'
     = (callbacks_run s + (if items is [] then 0 else 1))%nat).
Proof.
  split.
  { intros c s s' H.
    exact (preserves_do_call (λ st, callbacks_run st = callbacks_run s)
             (callbacks_frame _) (callbacks_reschedule _)
             (callbacks_timer_delete _) c s tt s' eq_refl H). }
  split.
  { intros s r s' H.
    exact (preserves_callback_dispatch_iteration
             (λ st, callbacks_run st = callbacks_run s) (callbacks_frame _)
             (callbacks_reschedule _) s r s' eq_refl H). }
  split.
  { intros s s' H. apply semaphore_post_inv in H as (n & _ & ->). reflexivity. }
  intros q items s s' Hitems H. unfold alarm_queue_ready in H.
  apply bind_inv in H as (c & s1 & Hc & H).
  apply alarm_queue_ready_locked_inv in Hc as (Htr & _ & items0 & Hitems0 & Hc).
  rewrite Hitems in Hitems0. injection Hitems0 as <-.
  destruct c as [c|].
  - assert (Hne : items ≠ []) by (intros Hnil; apply Hc in Hnil; discriminate).
    destruct items as [|y tl]; [contradiction|].
    unfold alarm_queue_ready_unlocked in H.
    apply bind_inv in H as (t0 & s2 & Ht0 & H). apply now_inv in Ht0 as (_ & _ & ->).
    apply bind_inv in H as ([] & s3 & Hinv & H).
    unfold invoke in Hinv. destruct (cap_callback c) as [f|]; [|discriminate].
    apply bind_inv in Hinv as ([] & s4 & He & Hinv). injection He as <-.
    match type of Hinv with
    | do_calls _ ?st = _ =>
        assert (Hs2 : callbacks_run st = S (callbacks_run s))
          by (unfold callbacks_run; simpl; rewrite Htr; reflexivity)
    end.
    pose proof (preserves_do_calls
                  (λ st, callbacks_run st = S (callbacks_run s))
                  (callbacks_frame (S (callbacks_run s)))
                  (callbacks_reschedule _) (callbacks_timer_delete _)
                  _ _ _ _ Hs2 Hinv) as Hs3.
    apply bind_inv in H as (t1 & s5 & Ht1 & H). apply now_inv in Ht1 as (_ & _ & ->).
    apply bind_inv in H as ([] & s6 & Has & H). apply assert_inv in Has as [_ ->].
    apply store_inv in H as (a & _ & ->).
    unfold callbacks_run in *. simpl. rewrite Hs3. lia.
  - injection H as <-. destruct Hc as [Hc _]. rewrite (Hc eq_refl).
    unfold callbacks_run. rewrite Htr. lia.
Qed.

(** ** Outcomes of the queue handler *)

Lemma alarm_queue_ready_head q alarm rest a s :
  queues s !! q = Some (alarm :: rest) → heap s !! alarm = Some a →
  alarm_queue_ready (Some q) s
  = alarm_queue_ready_unlocked
      (mk_captured alarm (callback a) (data a)
         (if is_periodic a then prev_deadline a else deadline a))
      (if is_periodic a then with_queues (<[q := rest]> (queues s)) s
       else with_heap (<[alarm := serviced a]> (heap s))
              (with_queues (<[q := rest]> (queues s)) s)).
Proof.
  intros Hq Ha.
  set (c := mk_captured alarm (callback a) (data a)
              (if is_periodic a then prev_deadline a else deadline a)).
  set (s0 := with_queues (<[q := rest]> (queues s)) s).
  set (s1 := if is_periodic a then s0
             else with_heap (<[alarm := serviced a]> (heap s)) s0).
  assert (Hlocked : alarm_queue_ready_locked q s = Ok (Some c, s1)).
  { unfold alarm_queue_ready_locked.
    rewrite (bind_ok _ _ _ _ _ (fixed_queue_try_dequeue_ok _ _ _ _ Hq)).
    fold s0.
    assert (Ha0 : heap s0 !! alarm = Some a) by exact Ha.
    rewrite (bind_ok _ _ _ _ _ (load_ok _ _ _ Ha0)).
    subst s1 c. destruct (is_periodic a).
    - reflexivity.
    - rewrite (bind_ok _ _ _ _ _ (store_ok _ _ _ _ Ha0)). reflexivity. }
  unfold alarm_queue_ready. rewrite (bind_ok _ _ _ _ _ Hlocked).
  reflexivity.
Qed.

(** X15. Outcomes of [alarm_queue_ready]. On an empty queue it returns
    without touching anything. With an alarm at the head whose callback
    makes no call into the service: the callback runs once on the alarm's
    data, the alarm leaves the queue, a one-shot alarm is left with no
    callback and deadline 0 while a periodic one keeps both, and no other
    alarm is written; but if the clock read after the callback is
    earlier than the one read before it the assertion [t1 >= t0] fails,
    and if the alarm's callback is NULL the handler calls through a NULL
    pointer. *)
Theorem alarm_queue_ready_outcome q s :
  (queues s !! q = Some [] → alarm_queue_ready (Some q) s = Ok (tt, s)) ∧
  (∀ alarm rest a,
     queues s !! q = Some (alarm :: rest) → heap s !! alarm = Some a →
     is_Some (alarms s) →
     match callback a with
     | None => alarm_queue_ready (Some q) s = Abort InvalidPointer
     | Some cb =>
         callback_body cb (data a) = [] →
         if clock_ms (ticks s) <=? clock_ms (S (ticks s))
         then ∃ s' a',
                alarm_queue_ready (Some q) s = Ok (tt, s') ∧
                events_since s s' = [EvCallback cb (data a)] ∧
                queues s' = <[q := rest]> (queues s) ∧
                alarms s' = alarms s ∧
                heap s' !! alarm = Some a' ∧
                callback a' = (if is_periodic a then Some cb else None) ∧
                deadline a' = (if is_periodic a then deadline a else 0) ∧
                (∀ p, p ≠ alarm → heap s' !! p = heap s !! p)
         else alarm_queue_ready (Some q) s = Abort AssertionFailed
     end).
Proof.
  split.
  { intros Hq. unfold alarm_queue_ready, alarm_queue_ready_locked.
    unfold fixed_queue_try_dequeue, load_queue, bind. rewrite Hq. reflexivity. }
  intros alarm rest a Hq Ha Hal.
  rewrite (alarm_queue_ready_head _ _ _ _ _ Hq Ha).
  set (s1 := if is_periodic a then with_queues _ _ else _).
  assert (Hs1 : alarms s1 = alarms s ∧ ticks s1 = ticks s ∧
                trace s1 = trace s ∧
                queues s1 = <[q := rest]> (queues s) ∧
                heap s1 = (if is_periodic a then heap s
                           else <[alarm := serviced a]> (heap s))).
  { subst s1. destruct (is_periodic a); repeat split; reflexivity. }
  destruct Hs1 as (Hal1 & Htk1 & Htr1 & Hq1 & Hh1).
  unfold alarm_queue_ready_unlocked. cbn [cap_callback cap_data cap_alarm cap_deadline].
  rewrite (bind_ok _ _ _ _ _ (now_ok s1 ltac:(rewrite Hal1; exact Hal))).
  rewrite Htk1.
  destruct (callback a) as [cb|] eqn:Hcb; [|reflexivity].
  intros Hbody. unfold invoke. rewrite Hbody.
  set (s2 := with_ticks (S (ticks s)) s1).
  rewrite (bind_ok _ _ s2 tt (with_trace (EvCallback cb (data a) :: trace s2) s2))
    by reflexivity.
  set (s3 := with_trace _ s2).
  rewrite (bind_ok _ _ _ _ _ (now_ok s3 ltac:(simpl; rewrite Hal1; exact Hal))).
  change (ticks s3) with (S (ticks s)).
  destruct (_ <=? _); [|reflexivity].
  rewrite (bind_ok _ _ _ tt (with_ticks (S (S (ticks s))) s3)) by reflexivity.
  set (s4 := with_ticks _ s3).
  set (a1 := if is_periodic a then a else serviced a).
  assert (Ha4 : heap s4 !! alarm = Some a1).
  { change (heap s1 !! alarm = Some a1). rewrite Hh1. subst a1.
    destruct (is_periodic a); [exact Ha|apply lookup_insert_eq]. }
  rewrite (store_ok _ _ _ _ Ha4).
  eexists. eexists. split; [reflexivity|].
  split.
  { apply (events_since_app _ _ [_]). simpl. rewrite Htr1. reflexivity. }
  split; [exact Hq1|]. split; [exact Hal1|].
  split; [simpl; apply lookup_insert_eq|].
  split; [subst a1; destruct (is_periodic a); simpl; auto|].
  split; [subst a1; destruct (is_periodic a); reflexivity|].
  intros p Hp. simpl. rewrite lookup_insert_ne by auto.
  change (heap s1 !! p = heap s !! p). rewrite Hh1.
  destruct (is_periodic a); [reflexivity|].
  rewrite lookup_insert_ne by auto. reflexivity.
Qed.

(** ** Edge cases of the re-evaluation *)

Lemma it_value_of_set d : d ≠ 0 → it_value_set (it_value_of d) = true.
Proof.
  intros Hd. unfold it_value_set, it_value_of. simpl.
  destruct (d / 1000 =? 0) eqn:E1; [|reflexivity].
  destruct (d mod 1000 * 1000000 =? 0) eqn:E2; [|reflexivity].
  apply Z.eqb_eq in E1, E2. pose proof (Z.div_mod d 1000). lia.
Qed.

Lemma reschedule_done_armed w wt s n :
  alarm_expired s = Some n → it_value_set wt = true →
  ∃ s', reschedule_done w wt s = Ok (tt, s') ∧ timer_set s' = true ∧
        alarm_expired s'
        = Some (if reads_disarmed (timer_gettime (ticks s)) then S n else n) ∧
        dispatcher_thread_active s' = dispatcher_thread_active s.
Proof.
  intros Hsem Hset. unfold reschedule_done, bind, modify, gets, emit, tick.
  simpl. rewrite Hset. simpl. rewrite andb_false_r. simpl.
  unfold reads_disarmed.
  destruct (_ && _); simpl.
  - unfold semaphore_post. simpl. rewrite Hsem.
    eexists. repeat split; reflexivity.
  - eexists. split; [reflexivity|]. simpl.
    repeat split; try reflexivity. exact Hsem.
Qed.

(** X16. When a re-evaluation arms the in-process timer and
    [timer_gettime] then reports it disarmed, because the deadline has
    already passed, the expiration semaphore is posted once, so that the
    next pass of the dispatcher does not block; when the timer reads as
    armed the semaphore is left alone. *)
Theorem disarmed_timer_wakes_dispatcher s p l next n :
  alarms s = Some (p :: l) → heap s !! p = Some next →
  alarm_expired s = Some n →
  next_expiration next (clock_ms (ticks s))
    < TIMER_INTERVAL_FOR_WAKELOCK_IN_MS s →
  deadline next ≠ 0 →
  timer_set s = true ∨ acquire_wake_lock (S (ticks s)) = BT_STATUS_SUCCESS →
  let k := if timer_set s then S (ticks s) else S (S (ticks s)) in
  ∃ s', reschedule_root_alarm s = Ok (tt, s') ∧ timer_set s' = true ∧
        alarm_expired s'
        = Some (if reads_disarmed (timer_gettime k) then S n else n) ∧
        (reads_disarmed (timer_gettime k) = true →
         ∀ r s'', callback_dispatch_iteration s' = Ok (r, s'') → r ≠ Waiting).
Proof.
  intros Hl Hp Hsem Hshort Hd Hlock k.
  assert (Hgoal : ∃ s', reschedule_root_alarm s = Ok (tt, s') ∧
                        timer_set s' = true ∧
                        alarm_expired s'
                        = Some (if reads_disarmed (timer_gettime k)
                                then S n else n)).
  { unfold reschedule_root_alarm, bind, gets.
    rewrite (the_alarms_ok _ _ Hl), (load_ok _ _ _ Hp).
    rewrite now_ok by (rewrite Hl; eauto).
    unfold next_expiration in Hshort. apply Z.ltb_lt in Hshort.
    simpl. rewrite Hshort. subst k.
    destruct (timer_set s) eqn:Hheld; simpl; rewrite Hheld; simpl.
    - destruct (reschedule_done_armed true (it_value_of (deadline next))
                  (with_ticks (S (ticks s)) s) n Hsem (it_value_of_set _ Hd))
        as (s' & -> & Hts & Hsem' & _).
      exists s'. auto.
    - destruct Hlock as [Hlock|Hlock]; [discriminate|].
      rewrite Hlock. simpl.
      match goal with
      | |- ∃ s', reschedule_done _ _ ?st = _ ∧ _ =>
          destruct (reschedule_done_armed false (it_value_of (deadline next))
                      st n Hsem (it_value_of_set _ Hd))
            as (s' & -> & Hts & Hsem' & _)
      end.
      exists s'. auto. }
  destruct Hgoal as (s' & Hrun & Hts & Hsem').
  exists s'. split; [exact Hrun|]. split; [exact Hts|]. split; [exact Hsem'|].
  intros Hzero r s'' Hdisp. rewrite Hzero in Hsem'.
  unfold callback_dispatch_iteration, bind, gets in Hdisp.
  rewrite Hsem' in Hdisp. simpl in Hdisp.
  destruct (negb (dispatcher_thread_active s')).
  - injection Hdisp as <- _. discriminate.
  - destruct (the_alarms _) as [[[|x l'] s0]|]; try discriminate.
    + destruct (reschedule_root_alarm s0) as [[[] s1]|]; [|discriminate].
      injection Hdisp as <- _. discriminate.
    + destruct (load x s0) as [[a s1]|]; [|discriminate].
      destruct (now s1) as [[t s2]|]; [|discriminate].
      destruct (t <? deadline a).
      * destruct (reschedule_root_alarm s2) as [[[] s3]|]; [|discriminate].
        injection Hdisp as <- _. discriminate.
      * intros ->.
        repeat match type of Hdisp with
               | match ?c ?st with _ => _ end = _ =>
                   destruct (c st) as [[? ?]|]; [|discriminate]
               end.
        discriminate.
Qed.

(** X17. A wake lock taken for a front alarm whose deadline is 0 is not
    recorded: [acquire_wake_lock] succeeds, but the wake-up time is the
    zero time, so the timer is disarmed, [timer_set] stays false and no
    release follows; the pending list is untouched, so the next
    re-evaluation acquires the lock again. *)
Theorem zero_deadline_acquire_is_not_recorded s p l next :
  alarms s = Some (p :: l) → heap s !! p = Some next →
  deadline next = 0 → timer_set s = false →
  next_expiration next (clock_ms (ticks s))
    < TIMER_INTERVAL_FOR_WAKELOCK_IN_MS s →
  acquire_wake_lock (S (ticks s)) = BT_STATUS_SUCCESS →
  ∃ s', reschedule_root_alarm s = Ok (tt, s') ∧
        trace s' = EvTimerSettime 0 0
                   :: EvAcquireWakeLock BT_STATUS_SUCCESS :: trace s ∧
        timer_set s' = false ∧
        acquired (trace s') = S (acquired (trace s)) ∧
        release_calls (trace s') = release_calls (trace s) ∧
        alarms s' = alarms s ∧ heap s' = heap s.
Proof.
  intros Hl Hp Hd Hfree Hshort Hlock.
  unfold reschedule_root_alarm, bind, gets.
  rewrite (the_alarms_ok _ _ Hl), (load_ok _ _ _ Hp).
  rewrite now_ok by (rewrite Hl; eauto).
  unfold next_expiration in Hshort. apply Z.ltb_lt in Hshort.
  simpl. rewrite Hshort. simpl. rewrite ?Hfree. simpl. rewrite ?Hfree.
  simpl. rewrite Hlock, Hd. simpl.
  eexists. split; [reflexivity|]. simpl.
  repeat split; reflexivity.
Qed.

(** ** The first alarm *)


(** ** Pending alarms point to live queues *)

Lemma safe_frame s s' :
  alarms s' = alarms s → heap s' = heap s → next_alarm s' = next_alarm s →
  (∀ q, is_Some (queues s !! q) → is_Some (queues s' !! q)) →
  pending_safe s → pending_safe s'.
Proof.
  intros Hal Hh Hna Hq [Hfresh Hlist]. split.
  - intros p. rewrite Hh, Hna. apply Hfresh.
  - intros l Hl. rewrite Hal in Hl. destruct (Hlist l Hl) as [Hnd Hall].
    split; [exact Hnd|]. eapply Forall_impl; [exact Hall|].
    intros p (a & q & Ha & Hqa & Hlive). exists a, q. rewrite Hh. auto.
Qed.

Lemma safe_same_schedule s s' :
  same_schedule s s' → pending_safe s → pending_safe s'.
Proof.
  intros (Hh & Hna & Hq & _ & Hal & _). apply safe_frame; auto.
  intros q. rewrite Hq. auto.
Qed.

Lemma safe_wf s : pending_safe s → pending_wf s.
Proof.
  intros [_ Hlist] l Hl. destruct (Hlist l Hl) as [Hnd Hall].
  split; [exact Hnd|]. eapply Forall_impl; [exact Hall|].
  intros p (a & _ & -> & _). eauto.
Qed.

Section Queue_bookkeeping.

Lemma safe_modify f :
  (∀ s, alarms (f s) = alarms s ∧ heap (f s) = heap s ∧
        next_alarm (f s) = next_alarm s ∧ queues (f s) = queues s) →
  preserves pending_safe (modify f).
Proof.
  intros Hf s [] s' Hs H. apply modify_inv in H as ->.
  destruct (Hf s) as (? & ? & ? & Hq). apply (safe_frame s); auto.
  intros q. rewrite Hq. auto.
Qed.
#[local] Hint Extern 1 (preserves _ (modify _)) =>
  apply safe_modify; intros ?; repeat split; reflexivity : kept.

Lemma safe_tick : preserves pending_safe tick.
Proof.
  intros s n s' Hs H. injection H as _ <-.
  apply (safe_frame s); auto.
Qed.
#[local] Hint Resolve safe_tick : kept.

Lemma safe_semaphore_post : preserves pending_safe semaphore_post.
Proof.
  intros s [] s' Hs H. apply semaphore_post_inv in H as (n & _ & ->).
  apply (safe_frame s); auto.
Qed.
#[local] Hint Resolve safe_semaphore_post : kept.

Lemma safe_emit e : preserves pending_safe (emit e).
Proof. unfold emit. keep. Qed.
#[local] Hint Resolve safe_emit : kept.

Lemma safe_reschedule : preserves pending_safe reschedule_root_alarm.
Proof.
  intros s [] s' Hs H. apply reschedule_inv in H as [Hsame _].
  exact (safe_same_schedule _ _ Hsame Hs).
Qed.
#[local] Hint Resolve safe_reschedule : kept.

Lemma safe_now : preserves pending_safe now.
Proof. unfold now. keep. Qed.
#[local] Hint Resolve safe_now : kept.

Lemma safe_put_empty : preserves pending_safe (put_alarms []).
Proof.
  intros s [] s' [Hfresh _] H. apply modify_inv in H as ->.
  split; [exact Hfresh|]. intros l Hl. injection Hl as <-.
  split; constructor.
Qed.
#[local] Hint Resolve safe_put_empty : kept.

Lemma safe_store_queue q items : preserves pending_safe (store_queue q items).
Proof.
  intros s [] s' Hs H. apply modify_inv in H as ->.
  apply (safe_frame s); auto. intros q0 Hq0. simpl.
  destruct (decide (q = q0)) as [->|Hne].
  - rewrite lookup_insert_eq. eauto.
  - rewrite lookup_insert_ne by exact Hne. exact Hq0.
Qed.
#[local] Hint Resolve safe_store_queue : kept.

Lemma safe_enqueue q x : preserves pending_safe (fixed_queue_enqueue q x).
Proof. unfold fixed_queue_enqueue. keep. Qed.
#[local] Hint Resolve safe_enqueue : kept.

Lemma safe_try_dequeue q : preserves pending_safe (fixed_queue_try_dequeue q).
Proof. unfold fixed_queue_try_dequeue. keep. Qed.
#[local] Hint Resolve safe_try_dequeue : kept.

Lemma safe_fixed_queue_new : preserves pending_safe fixed_queue_new.
Proof.
  intros s r s' Hs H. unfold fixed_queue_new in H.
  apply bind_inv in H as (n & s1 & Ht & H).
  pose proof (safe_tick _ _ _ Hs Ht) as Hs1.
  destruct (resource_created n).
  - apply bind_inv in H as (q & s0 & Hg & H). apply gets_inv in Hg as [-> ->].
    apply bind_inv in H as ([] & s2 & Hm & H). apply modify_inv in Hm as ->.
    injection H as _ <-. apply (safe_frame s1); auto.
    intros q0 Hq0. simpl.
    destruct (decide (next_queue s1 = q0)) as [->|Hne].
    + rewrite lookup_insert_eq. eauto.
    + rewrite lookup_insert_ne by exact Hne. exact Hq0.
  - injection H as _ <-. exact Hs1.
Qed.
#[local] Hint Resolve safe_fixed_queue_new : kept.

Lemma safe_store_keep p f :
  (∀ a, queue (f a) = queue a) → preserves pending_safe (store p f).
Proof.
  intros Hf s [] s' [Hfresh Hlist] H. apply store_inv in H as (a & Ha & ->).
  split.
  - intros x Hx. simpl in *. apply Hfresh.
    destruct (decide (x = p)) as [->|Hne]; [eauto|].
    rewrite lookup_insert_ne in Hx by auto. exact Hx.
  - intros l Hl. destruct (Hlist l Hl) as [Hnd Hall]. split; [exact Hnd|].
    eapply Forall_impl; [exact Hall|].
    intros x (ax & q & Hax & Hqa & Hlive). simpl.
    destruct (decide (x = p)) as [->|Hne].
    + rewrite Ha in Hax. injection Hax as <-.
      exists (f a), q. rewrite lookup_insert_eq, Hf. auto.
    + exists ax, q. rewrite lookup_insert_ne by auto. auto.
Qed.

#[local] Hint Extern 1 (preserves _ (store _ _)) =>
  apply safe_store_keep; intros ?; reflexivity : kept.

Lemma inserted_state_next_alarm alarm a l s :
  next_alarm (inserted_state alarm a l s) = next_alarm s.
Proof.
  unfold inserted_state. destruct (callback a); simpl; [|reflexivity].
  unfold without_queued. destruct (queue a); reflexivity.
Qed.

Lemma inserted_state_queue_live alarm a l s q :
  is_Some (queues s !! q) → is_Some (queues (inserted_state alarm a l s) !! q).
Proof.
  intros Hq. rewrite inserted_state_queues.
  destruct (callback a); [apply without_queued_queue_live|]; exact Hq.
Qed.

Lemma safe_inserted_state alarm a l s q :
  pending_safe s → alarms s = Some l → heap s !! alarm = Some a →
  is_Some (callback a) ∨ alarm ∉ l →
  queue a = Some q → is_Some (queues s !! q) →
  pending_safe (inserted_state alarm a l s).
Proof.
  intros [Hfresh Hlist] Hl Ha Hcb Hqa Hq.
  destruct (Hlist l Hl) as [Hnd Hall]. rewrite Forall_forall in Hall.
  split.
  - intros p. rewrite inserted_state_heap, inserted_state_next_alarm.
    intros Hp. apply Hfresh. destruct (decide (p = alarm)) as [->|Hne]; [eauto|].
    rewrite lookup_insert_ne in Hp by auto. exact Hp.
  - intros l' Hl'. rewrite inserted_state_alarms in Hl'. injection Hl' as <-.
    assert (Hl1 : NoDup (if callback a is Some _ then list_remove l alarm else l)
                  ∧ alarm ∉ (if callback a is Some _
                             then list_remove l alarm else l)).
    { destruct (callback a).
      - apply list_remove_NoDup. exact Hnd.
      - split; [exact Hnd|]. destruct Hcb as [[? Hcb]|Hcb];
          [discriminate|exact Hcb]. }
    destruct Hl1 as [Hnd1 Hnot1].
    split; [apply inserted_NoDup; assumption|].
    apply Forall_forall. intros x Hx. apply inserted_elem_of in Hx.
    rewrite inserted_state_heap.
    destruct (decide (x = alarm)) as [->|Hne].
    + eexists _, q. rewrite lookup_insert_eq. split; [reflexivity|].
      split; [exact Hqa|]. apply inserted_state_queue_live. exact Hq.
    + destruct Hx as [->|Hx]; [contradiction|].
      assert (Hin : x ∈ l).
      { destruct (callback a); [|exact Hx].
        eapply list_remove_subset. exact Hx. }
      destruct (Hall x Hin) as (ax & qx & Hax & Hqx & Hlive).
      exists ax, qx. rewrite lookup_insert_ne by auto.
      split; [exact Hax|]. split; [exact Hqx|].
      apply inserted_state_queue_live. exact Hlive.
Qed.

Lemma safe_schedule_next_instance alarm s s' :
  pending_safe s →
  (∀ a l, heap s !! alarm = Some a → alarms s = Some l →
          (is_Some (callback a) ∨ alarm ∉ l) ∧
          ∃ q, queue a = Some q ∧ is_Some (queues s !! q)) →
  schedule_next_instance alarm s = Ok (tt, s') →
  pending_safe s'.
Proof.
  intros Hs Hcond H.
  apply schedule_next_instance_inv in H as (a & l & Hl & Ha & Hrun).
  destruct (Hcond a l Ha Hl) as (Hcb & q & Hqa & Hq).
  apply maybe_reschedule_inv in Hrun as (Hsame & _ & _).
  apply (safe_same_schedule _ _ Hsame).
  exact (safe_inserted_state _ _ _ _ _ Hs Hl Ha Hcb Hqa Hq).
Qed.

Lemma safe_store_live p f q s s' :
  (∀ a, queue (f a) = Some q) → is_Some (queues s !! q) →
  pending_safe s → store p f s = Ok (tt, s') → pending_safe s'.
Proof.
  intros Hf Hq [Hfresh Hlist] H. apply store_inv in H as (a & Ha & ->).
  split.
  - intros x Hx. simpl in *. apply Hfresh.
    destruct (decide (x = p)) as [->|Hne]; [eauto|].
    rewrite lookup_insert_ne in Hx by auto. exact Hx.
  - intros l Hl. destruct (Hlist l Hl) as [Hnd Hall]. split; [exact Hnd|].
    eapply Forall_impl; [exact Hall|].
    intros x (ax & qx & Hax & Hqx & Hlive). simpl.
    destruct (decide (x = p)) as [->|Hne].
    + exists (f a), q. rewrite lookup_insert_eq, Hf. auto.
    + exists ax, qx. rewrite lookup_insert_ne by auto. auto.
Qed.

Lemma safe_alarm_set_on_queue alarm ms cb arg q :
  preserves pending_safe (alarm_set_on_queue alarm ms cb arg q).
Proof.
  intros s [] s' Hs H. unfold alarm_set_on_queue in H.
  apply bind_inv in H as ([] & s0 & H0 & H). apply assert_inv in H0 as [Hq ->].
  apply bool_decide_eq_true in Hq. destruct Hq as [q0 ->].
  unfold alarm_set_internal in H.
  apply bind_inv in H as (al & s0 & Hal & H). apply gets_inv in Hal as [-> ->].
  apply bind_inv in H as ([] & s0 & H0 & H). apply assert_inv in H0 as [_ ->].
  apply bind_inv in H as ([] & s0 & H0 & H). apply assert_inv in H0 as [_ ->].
  apply bind_inv in H as ([] & s0 & H0 & H). apply assert_inv in H0 as [Hcb ->].
  apply bool_decide_eq_true in Hcb. destruct Hcb as [f ->].
  destruct alarm as [alarm|]; [|discriminate].
  apply bind_inv in H as (t & s1 & Ht & H).
  pose proof (safe_now _ _ _ Hs Ht) as Hs1.
  apply bind_inv in H as ([] & s2 & Hst & H).
  apply bind_inv in H as ([] & s3 & Hsched & H).
  pose proof Hst as Hst'. apply store_inv in Hst' as (a & Ha & Hs2).
  assert (Ha2 : heap s2 !! alarm
                = Some (configured a t ms f arg (Some q0))).
  { rewrite Hs2. apply lookup_insert_eq. }
  assert (Hcb2 : is_Some (callback (configured a t ms f arg (Some q0))))
    by (eexists; reflexivity).
  pose proof (schedule_next_instance_queue_live _ _ _ _ Ha2 Hcb2 Hsched
                q0 eq_refl) as Hlive.
  assert (Hlive1 : is_Some (queues s1 !! q0)) by (rewrite Hs2 in Hlive; exact Hlive).
  assert (Hsafe2 : pending_safe s2).
  { refine (safe_store_live _ _ q0 _ _ _ Hlive1 Hs1 Hst).
    intros ?. reflexivity. }
  assert (Hsafe3 : pending_safe s3).
  { apply (safe_schedule_next_instance alarm s2 s3 Hsafe2); [|exact Hsched].
    intros a' l Ha' _. rewrite Ha2 in Ha'. injection Ha' as <-.
    split; [left; eexists; reflexivity|]. exists q0. auto. }
  refine (safe_store_keep _ _ _ _ _ _ Hsafe3 H). intros ?. reflexivity.
Qed.
#[local] Hint Resolve safe_alarm_set_on_queue : kept.

Lemma cancelled_state_next_alarm alarm a l s :
  next_alarm (cancelled_state alarm a l s) = next_alarm s.
Proof.
  unfold cancelled_state, without_queued. destruct (queue a); reflexivity.
Qed.

Lemma safe_alarm_cancel_internal alarm :
  preserves pending_safe (alarm_cancel_internal alarm).
Proof.
  intros s [] s' [Hfresh Hlist] H.
  apply alarm_cancel_internal_inv in H as (a & l & Hl & Ha & _ & Hrun).
  apply maybe_reschedule_inv in Hrun as (Hsame & _ & _).
  apply (safe_same_schedule _ _ Hsame).
  destruct (cancelled_state_fields alarm a l s) as (Hch & Hcl & _).
  destruct (Hlist l Hl) as [Hnd Hall]. rewrite Forall_forall in Hall.
  split.
  - intros p. rewrite Hch, cancelled_state_next_alarm. intros Hp.
    apply Hfresh. destruct (decide (p = alarm)) as [->|Hne]; [eauto|].
    rewrite lookup_insert_ne in Hp by auto. exact Hp.
  - intros l' Hl'. rewrite Hcl in Hl'. injection Hl' as <-.
    destruct (list_remove_NoDup l alarm Hnd) as [Hnd' Hnot].
    split; [exact Hnd'|]. apply Forall_forall. intros x Hx.
    assert (x ≠ alarm) by (intros ->; contradiction).
    destruct (Hall x (list_remove_subset _ _ _ Hx))
      as (ax & qx & Hax & Hqx & Hlive).
    exists ax, qx. rewrite Hch, lookup_insert_ne by auto.
    split; [exact Hax|]. split; [exact Hqx|].
    apply cancelled_state_queue_live. exact Hlive.
Qed.
#[local] Hint Resolve safe_alarm_cancel_internal : kept.

Lemma safe_cancel_alarms_on_queue q nodes :
  preserves pending_safe (cancel_alarms_on_queue q nodes).
Proof. induction nodes as [|x rest IH]; simpl; keep. Qed.
#[local] Hint Resolve safe_cancel_alarms_on_queue : kept.

Lemma safe_alarm_cancel alarm : preserves pending_safe (alarm_cancel alarm).
Proof. unfold alarm_cancel. keep. Qed.
#[local] Hint Resolve safe_alarm_cancel : kept.

Lemma safe_alarm_free alarm : preserves pending_safe (alarm_free alarm).
Proof.
  destruct alarm as [p|]; [|apply preserves_ret].
  intros s [] s' Hs H. unfold alarm_free in H.
  apply bind_inv in H as ([] & s1 & Hcancel & H).
  pose proof (safe_alarm_cancel _ _ _ _ Hs Hcancel) as [Hfresh1 Hlist1].
  apply modify_inv in H as ->.
  assert (Hgone : ∀ l, alarms s1 = Some l → p ∉ l).
  { intros l Hl. apply alarm_cancel_inv in Hcancel.
    exact (alarm_cancel_internal_gone _ _ _ _ (safe_wf _ Hs) Hcancel Hl). }
  split.
  - intros x Hx. simpl in *. apply Hfresh1.
    destruct (decide (x = p)) as [->|Hne].
    + rewrite lookup_delete_eq in Hx. destruct Hx as [? Hx]. discriminate.
    + rewrite lookup_delete_ne in Hx by auto. exact Hx.
  - intros l Hl. simpl in Hl. destruct (Hlist1 l Hl) as [Hnd Hall].
    split; [exact Hnd|]. rewrite Forall_forall in *. intros x Hx.
    destruct (Hall x Hx) as (ax & qx & Hax & Hqx & Hlive).
    exists ax, qx. simpl. rewrite lookup_delete_ne.
    + auto.
    + intros <-. exact (Hgone l Hl Hx).
Qed.
#[local] Hint Resolve safe_alarm_free : kept.

Lemma safe_lazy_initialize : preserves pending_safe lazy_initialize.
Proof. unfold lazy_initialize, try_create. keep. Qed.
#[local] Hint Resolve safe_lazy_initialize : kept.

Lemma safe_alarm_new_internal nm periodic :
  preserves pending_safe (alarm_new_internal nm periodic).
Proof.
  intros s r s' Hs H. unfold alarm_new_internal in H.
  apply bind_inv in H as (al & s0 & Hg & H). apply gets_inv in Hg as [-> ->].
  apply bind_inv in H as (ready & s1 & Hinit & H).
  assert (Hs1 : pending_safe s1).
  { destruct (alarms s).
    - injection Hinit as _ <-. exact Hs.
    - exact (safe_lazy_initialize _ _ _ Hs Hinit). }
  destruct (negb ready); [injection H as _ <-; exact Hs1|].
  apply bind_inv in H as (p & s0 & Hg & H). apply gets_inv in Hg as [-> ->].
  apply bind_inv in H as ([] & s2 & Hm & H). apply modify_inv in Hm as ->.
  injection H as _ <-. destruct Hs1 as [Hfresh Hlist].
  assert (Hnew : heap s1 !! next_alarm s1 = None).
  { destruct (heap s1 !! next_alarm s1) eqn:E; [|reflexivity].
    specialize (Hfresh (next_alarm s1) ltac:(rewrite E; eauto)). lia. }
  split.
  - intros x Hx. simpl in *.
    destruct (decide (x = next_alarm s1)) as [->|Hne]; [lia|].
    rewrite lookup_insert_ne in Hx by auto.
    specialize (Hfresh x Hx). lia.
  - intros l Hl. destruct (Hlist l Hl) as [Hnd Hall]. split; [exact Hnd|].
    eapply Forall_impl; [exact Hall|].
    intros x (ax & qx & Hax & Hqx & Hlive). exists ax, qx. simpl.
    rewrite lookup_insert_ne; [auto|]. intros Heq. subst x.
    discriminate (eq_trans (eq_sym Hnew) Hax).
Qed.
#[local] Hint Resolve safe_alarm_new_internal : kept.

Lemma safe_alarm_cleanup : preserves pending_safe alarm_cleanup.
Proof.
  intros s [] s' Hs H.
  assert (Hfields : heap s' = heap s ∧ next_alarm s' = next_alarm s ∧
                    (alarms s' = None ∨ s' = s)).
  { unfold alarm_cleanup, bind, gets, semaphore_post in H.
    destruct (alarms s) eqn:Hl.
    - simpl in H. destruct (alarm_expired s); [|discriminate].
      simpl in H. destruct (default_callback_queue s);
        injection H as <-; repeat split; left; reflexivity.
    - injection H as <-. auto. }
  destruct Hfields as (Hh & Hna & [Hnone| ->]); [|exact Hs].
  destruct Hs as [Hfresh _]. split.
  - intros p. rewrite Hh, Hna. apply Hfresh.
  - intros l Hl. congruence.
Qed.
#[local] Hint Resolve safe_alarm_cleanup : kept.

Lemma safe_do_call c : preserves pending_safe (do_call c).
Proof.
  destruct c; simpl; unfold alarm_new, alarm_new_periodic, alarm_set,
    alarm_is_scheduled, alarm_get_remaining_ms,
    alarm_unregister_processing_queue; keep.
Qed.
#[local] Hint Resolve safe_do_call : kept.

Lemma safe_do_calls cs : preserves pending_safe (do_calls cs).
Proof. induction cs as [|c cs IH]; simpl; keep. Qed.
#[local] Hint Resolve safe_do_calls : kept.

Lemma safe_alarm_queue_ready q : preserves pending_safe (alarm_queue_ready q).
Proof.
  unfold alarm_queue_ready, alarm_queue_ready_locked,
    alarm_queue_ready_unlocked, invoke. keep.
Qed.
#[local] Hint Resolve safe_alarm_queue_ready : kept.

Lemma safe_callback_dispatch_iteration :
  preserves pending_safe callback_dispatch_iteration.
Proof.
  intros s r s' Hs H. unfold callback_dispatch_iteration in H.
  apply bind_inv in H as (sem & s0 & H0 & H). apply gets_inv in H0 as [-> ->].
  destruct (alarm_expired s) as [[|n]|] eqn:Hsem; try discriminate.
  { injection H as _ <-. exact Hs. }
  apply bind_inv in H as ([] & s1 & H1 & H).
  pose proof (safe_modify (with_alarm_expired (Some n))
                ltac:(intros ?; repeat split; reflexivity) _ _ _ Hs H1) as Hs1.
  apply modify_inv in H1 as ->.
  apply bind_inv in H as (active & s0 & H0 & H). apply gets_inv in H0 as [-> ->].
  destruct (negb _). { injection H as _ <-. exact Hs1. }
  apply bind_inv in H as (l & s0 & Hl & H).
  apply the_alarms_inv in Hl as [-> Hl].
  destruct l as [|alarm rest].
  { apply bind_inv in H as ([] & s2 & H2 & H). injection H as _ <-.
    exact (safe_reschedule _ _ _ Hs1 H2). }
  apply bind_inv in H as (a & s0 & Ha & H). apply load_inv in Ha as [-> Ha].
  apply bind_inv in H as (t & s2 & Ht & H).
  pose proof (safe_now _ _ _ Hs1 Ht) as Hs2.
  apply now_inv in Ht as (_ & -> & ->).
  destruct (_ <? _).
  { apply bind_inv in H as ([] & s3 & H3 & H). injection H as _ <-.
    exact (safe_reschedule _ _ _ Hs2 H3). }
  apply bind_inv in H as ([] & s3 & H3 & H). apply modify_inv in H3 as ->.
  rewrite list_remove_head in H.
  set (s3 := with_alarms (Some rest) _) in H.
  destruct Hs2 as [Hfresh2 Hlist2].
  destruct (Hlist2 _ Hl) as [Hnd Hall].
  apply NoDup_cons in Hnd as [Hnot Hnd].
  apply Forall_cons in Hall as [(a0 & q & Ha0 & Hqa & Hlive) Hall].
  simpl in Ha, Ha0. rewrite Ha in Ha0. injection Ha0 as <-.
  assert (Hs3 : pending_safe s3).
  { split; [exact Hfresh2|]. intros l' Hl'. injection Hl' as <-. auto. }
  apply bind_inv in H as ([] & s4 & H4 & H).
  assert (Hs4 : pending_safe s4).
  { destruct (is_periodic a).
    - apply bind_inv in H4 as ([] & s5 & H5 & H4).
      assert (Hs5 : pending_safe s5).
      { refine (safe_store_keep _ _ _ _ _ _ Hs3 H5). intros ?. reflexivity. }
      apply store_inv in H5 as (a5 & Ha5 & ->).
      change (heap s !! alarm = Some a5) in Ha5.
      rewrite Ha in Ha5. injection Ha5 as <-.
      apply bind_inv in H4 as ([] & s6 & H6 & H4).
      assert (Hs6 : pending_safe s6).
      { apply (safe_schedule_next_instance alarm _ s6 Hs5); [|exact H6].
        intros a' l' Ha' Hl'. simpl in Ha', Hl'.
        rewrite lookup_insert_eq in Ha'.
        injection Ha' as <-. injection Hl' as <-.
        split; [right; exact Hnot|].
        exists q. split; [exact Hqa|exact Hlive]. }
      refine (safe_store_keep _ _ _ _ _ _ Hs6 H4). intros ?. reflexivity.
    - injection H4 as <-. exact Hs3. }
  apply bind_inv in H as ([] & s5 & H5 & H).
  pose proof (safe_reschedule _ _ _ Hs4 H5) as Hs5.
  apply bind_inv in H as (a' & s0 & Ha' & H). apply load_inv in Ha' as [-> _].
  apply bind_inv in H as ([] & s6 & H6 & H). injection H as _ <-.
  exact (safe_enqueue _ _ _ _ _ Hs5 H6).
Qed.
#[local] Hint Resolve safe_callback_dispatch_iteration : kept.

Lemma safe_do_step st : preserves pending_safe (do_step st).
Proof. destruct st; simpl; unfold timer_callback; keep. Qed.
#[local] Hint Resolve safe_do_step : kept.


End Queue_bookkeeping.




End Facts.

(** * Concrete runs *)

(** C2, counterexample. The front alarm is due in 100 ms, the wake lock
    is not held and the callout refuses it: the re-evaluation arms
    neither the in-process timer nor the wake alarm. *)
Lemma refused_wake_lock_arms_nothing :
  let s := sample_state (sample_alarm false 100 1100) false [] in
  ∃ s', @reschedule_root_alarm (steady_env 1000 1) s = Ok (tt, s') ∧
        next_expiration (sample_alarm false 100 1100) 1000
          < TIMER_INTERVAL_FOR_WAKELOCK_IN_MS s ∧
        ¬ arms_some_timer s s'.
Proof.
  eexists. split; [vm_compute; reflexivity|]. split; [vm_compute; reflexivity|].
  unfold arms_some_timer. vm_compute. discriminate.
Qed.

Lemma failed_acquire_disarms_witness :
  let s := sample_state (sample_alarm false 100 1100) false [] in
  ∃ s', @reschedule_root_alarm (steady_env 1000 1) s = Ok (tt, s') ∧
        trace s' = [EvTimerSettime 0 0; EvAcquireWakeLock 1] ∧
        timer_set s' = false.
Proof.
  destruct (@failed_acquire_disarms (steady_env 1000 1)
              (sample_state (sample_alarm false 100 1100) false [])
              1%nat [] (sample_alarm false 100 1100))
    as (s' & Hrun & Htr & Hts & _).
  - reflexivity.
  - reflexivity.
  - reflexivity.
  - vm_compute. reflexivity.
  - vm_compute. discriminate.
  - exists s'. split; [exact Hrun|]. split; [exact Htr|exact Hts].
Defined.

(** C5, counterexample. The same re-evaluation: the distance to the
    front deadline is below the threshold, yet the in-process timer is
    not set to the deadline (1 s 100 ms) and no wake lock is held. *)
Lemma short_horizon_without_timer :
  let s := sample_state (sample_alarm false 100 1100) false [] in
  ∃ s', @reschedule_root_alarm (steady_env 1000 1) s = Ok (tt, s') ∧
        next_expiration (sample_alarm false 100 1100) 1000
          < TIMER_INTERVAL_FOR_WAKELOCK_IN_MS s ∧
        (EvTimerSettime 1 100000000 ∉ trace s') ∧
        acquired (trace s') = 0%nat.
Proof.
  eexists. split; [vm_compute; reflexivity|]. split; [vm_compute; reflexivity|].
  split; [|reflexivity].
  intros Hin. vm_compute in Hin. event_not_in Hin.
Qed.

Lemma wake_policy_by_horizon_witness :
  let s := sample_state (sample_alarm false 100 1100) false [] in
  ∃ s', @reschedule_root_alarm (steady_env 1000 0) s = Ok (tt, s') ∧
        head (trace s') = Some (EvTimerSettime 1 100000000) ∧
        last (events_since s s') = Some (EvAcquireWakeLock 0).
Proof.
  destruct (@wake_policy_by_horizon (steady_env 1000 0)
              (sample_state (sample_alarm false 100 1100) false [])
              1%nat [] (sample_alarm false 100 1100))
    as (s' & Hrun & Hshort & _).
  - reflexivity.
  - reflexivity.
  - eexists. reflexivity.
  - destruct Hshort as (_ & Hacq & _ & Harm).
    + vm_compute. reflexivity.
    + exists s'. split; [exact Hrun|]. split.
      * apply Harm. right. reflexivity.
      * apply Hacq. reflexivity.
Defined.

(** C10, counterexample. [alarm_cancel(NULL)] before the service is
    initialised fails the assertion on [alarms]. *)
Lemma cancel_null_before_init_asserts :
  @alarm_cancel (steady_env 0 0) None initial_state = Abort AssertionFailed.
Proof. reflexivity. Qed.

(** C1, counterexample. An alarm is created and set 100 ms ahead, which
    takes the wake lock; then the service is cleaned up. The list is
    gone, one request for the lock was made and none released it. *)
Lemma cleanup_keeps_wake_lock :
  ∃ s, exec (@run (steady_env 1000 0)
               [Client (Call_alarm_new "A");
                Client (Call_alarm_set (Some 1%nat) 100 (Some 7%nat) 0);
                Client Call_alarm_cleanup]) initial_state = Some s ∧
       alarms s = None ∧ timer_set s = true ∧
       acquire_calls (trace s) = 1%nat ∧ release_calls (trace s) = 0%nat.
Proof.
  eexists. split; [vm_compute; reflexivity|]. repeat split.
Qed.

Lemma wake_lock_balance_witness :
  ∃ s, @reachable (steady_env 1000 0) s ∧ timer_set s = true ∧
       acquire_calls (trace s) = (release_calls (trace s) + 1)%nat.
Proof.
  pose (sts := [Client (Call_alarm_new "A");
                Client (Call_alarm_set (Some 1%nat) 100 (Some 7%nat) 0)]).
  destruct (exec (@run (steady_env 1000 0) sts) initial_state) as [s|] eqn:E;
    [|vm_compute in E; discriminate].
  assert (Hreach : @reachable (steady_env 1000 0) s) by (exists sts; exact E).
  assert (Hs : s = default initial_state
                     (exec (@run (steady_env 1000 0) sts) initial_state)).
  { rewrite E. reflexivity. }
  exists s. split; [exact Hreach|].
  assert (Hts : timer_set s = true) by (rewrite Hs; vm_compute; reflexivity).
  split; [exact Hts|].
  rewrite (proj1 (@wake_lock_balance (steady_env 1000 0)) s Hreach).
  - rewrite Hts. reflexivity.
  - rewrite Hs. vm_compute. repeat constructor; discriminate.
  - rewrite Hs. vm_compute. reflexivity.
Defined.

(** A periodic alarm created at 1000 ms with period 300, rescheduled at
    1700 ms: 100 ms into its third period, so the next deadline is
    1900 = 1000 + 3 * 300. *)
Lemma schedule_next_instance_deadline_witness :
  let a := sample_alarm true 300 1600 in
  ∃ s' a', @schedule_next_instance (steady_env 1700 0) 1%nat
             (sample_state a true []) = Ok (tt, s') ∧
           heap s' !! 1%nat = Some a' ∧
           deadline a' = 1900 ∧
           ∃ k, 1 ≤ k ∧ deadline a' = creation_time a + k * period a.
Proof.
  intros a.
  destruct (@schedule_next_instance_deadline (steady_env 1700 0) 1%nat a
              (sample_state a true []))
    as (Hpost & Htotal & Hexact).
  - reflexivity.
  - vm_compute. split; [discriminate|reflexivity].
  - destruct (Htotal [1%nat]) as [s' Hrun].
    + reflexivity.
    + intros q Hq. injection Hq as <-. eexists. reflexivity.
    + repeat constructor. eexists. reflexivity.
    + eexists. reflexivity.
    + destruct (Hpost s' Hrun) as (a' & Hheap & Hd).
      exists s', a'. split; [exact Hrun|]. split; [exact Hheap|].
      split; [rewrite Hd; vm_compute; reflexivity|].
      destruct Hexact as (_ & Hanchor).
      * vm_compute. split; discriminate.
      * vm_compute. reflexivity.
      * destruct (Hanchor eq_refl ltac:(vm_compute; reflexivity))
          as (k & Hk & Hdk & _).
        exists k. split; [exact Hk|]. rewrite Hd. exact Hdk.
Defined.

(** A periodic alarm with period 0, rescheduled at 1700 ms, is due at
    1700 ms. *)
Lemma periodic_zero_period_witness :
  let a := sample_alarm true 0 1000 in
  ∃ s' a', @schedule_next_instance (steady_env 1700 0) 1%nat
             (sample_state a true []) = Ok (tt, s') ∧
           heap s' !! 1%nat = Some a' ∧ deadline a' = 1700.
Proof.
  intros a.
  destruct (@periodic_zero_period_reschedules_now (steady_env 1700 0) 1%nat a
              (sample_state a true []))
    as (_ & Hsched).
  - reflexivity.
  - reflexivity.
  - destruct (Hsched eq_refl) as (_ & Hpost & Htotal).
    destruct (Htotal [1%nat]) as [s' Hrun].
    + reflexivity.
    + intros q Hq. injection Hq as <-. eexists. reflexivity.
    + repeat constructor. eexists. reflexivity.
    + eexists. reflexivity.
    + destruct (Hpost s' Hrun) as (a' & Hheap & Hd & _).
      exists s', a'. split; [exact Hrun|]. split; [exact Hheap|].
      rewrite Hd. vm_compute. reflexivity.
Defined.

(** The front alarm is due at 1100 ms and the clock reads 1000 ms: a
    post of the expiration signal makes the dispatcher re-arm and leave
    the queue empty. *)
Lemma dispatcher_validates_front_witness :
  let s := sample_state (sample_alarm false 100 1100) true [] in
  ∃ s1 s', @timer_callback s = Ok (tt, s1) ∧
           @callback_dispatch_iteration (steady_env 1000 0) s1
           = Ok (Rearmed, s') ∧
           queues s' !! 1%nat = Some [] ∧ alarms s' = Some [1%nat].
Proof.
  intros s.
  destruct (proj1 (@dispatcher_validates_front (steady_env 1000 0))
              s 0%nat [1%nat])
    as (s1 & r & s' & Hpost & Hiter & Hr & Hq & Hal & _).
  - reflexivity.
  - reflexivity.
  - exists (sample_alarm false 100 1100). split; [reflexivity|].
    vm_compute. reflexivity.
  - exists s1, s'. split; [exact Hpost|].
    destruct Hr as [-> _]. split; [exact Hiter|].
    rewrite Hq, Hal. split; reflexivity.
Defined.

(** The one-shot alarm at the head of queue 1 is taken off the queue and
    cleared; its callback 7 and data 5 are what the handler will call. *)
Lemma alarm_queue_ready_captures_witness :
  let a := sample_alarm false 100 1100 in
  let s := sample_state a true [1%nat] in
  ∃ s1, @alarm_queue_ready_locked 1%nat s
        = Ok (Some (mk_captured 1%nat (Some 7%nat) 5 1100), s1) ∧
        heap s1 !! 1%nat = Some (serviced a) ∧
        queues s1 !! 1%nat = Some [].
Proof.
  intros a s.
  destruct (@alarm_queue_ready_captures (steady_env 1000 0) 1%nat 1%nat [] a s)
    as (Hlocked & Hheap & _).
  - reflexivity.
  - reflexivity.
  - eexists. split; [exact Hlocked|]. split; [exact Hheap|]. reflexivity.
Defined.

(** An alarm is created and set 100 ms ahead; cancelling it empties the
    list, clears the alarm and re-evaluates the wake policy, which
    releases the wake lock. *)
Lemma alarm_cancel_clears_witness :
  ∃ s s' a', @reachable (steady_env 1000 0) s ∧
             @alarm_cancel (steady_env 1000 0) (Some 1%nat) s = Ok (tt, s') ∧
             alarms s' = Some [] ∧
             heap s' !! 1%nat = Some a' ∧ callback a' = None ∧
             canceled_count (stats a') = 1 ∧
             events_since s s' ≠ [].
Proof.
  pose (sts := [Client (Call_alarm_new "A");
                Client (Call_alarm_set (Some 1%nat) 100 (Some 7%nat) 0)]).
  destruct (exec (@run (steady_env 1000 0) sts) initial_state) as [s|] eqn:E;
    [|vm_compute in E; discriminate].
  assert (Hreach : @reachable (steady_env 1000 0) s) by (exists sts; exact E).
  assert (Hs : s = default initial_state
                     (exec (@run (steady_env 1000 0) sts) initial_state)).
  { rewrite E. reflexivity. }
  assert (Hl : alarms s = Some [1%nat]) by (rewrite Hs; vm_compute; reflexivity).
  assert (Ha : ∃ a, heap s !! 1%nat = Some a ∧ queue a = Some 1%nat ∧
                    canceled_count (stats a) = 0).
  { rewrite Hs. vm_compute. eexists. repeat split. }
  destruct Ha as (a & Ha & Hqa & Hcount0).
  destruct (@alarm_cancel_clears (steady_env 1000 0) 1%nat a [1%nat] s
              Hreach Hl Ha) as [Hpost Htotal].
  destruct Htotal as [s' Hrun].
  - intros q Hq. rewrite Hqa in Hq. injection Hq as <-.
    rewrite Hs. vm_compute. eexists. reflexivity.
  - rewrite Hs. vm_compute. eexists. reflexivity.
  - destruct (Hpost s' Hrun)
      as (Hal & _ & _ & (a' & Hheap & _ & _ & Hcb & _ & _ & Hcount)
          & _ & Hev & _).
    exists s, s', a'. split; [exact Hreach|]. split; [exact Hrun|].
    split.
    { rewrite Hal. simpl. destruct (decide (1%nat = 1%nat)); [reflexivity|].
      contradiction. }
    split; [exact Hheap|]. split; [exact Hcb|].
    split; [rewrite Hcount, Hcount0; reflexivity|].
    apply Hev. reflexivity.
Defined.

(** Alarm 2 is due at 1200 ms; alarm 1, with callback 7, is rescheduled
    at 1000 ms for 1200 ms as well and goes behind it. *)
Lemma schedule_next_instance_keeps_order_witness :
  let a := sample_alarm false 200 1100 in
  let b := set_deadline 1200 (sample_alarm false 200 1200) in
  let s := mk_state {[1%nat := a; 2%nat := b]} 3%nat {[1%nat := []]} 2%nat
             (Some [1%nat; 2%nat]) true true (Some 0%nat) (Some 1%nat)
             3000 [] 0%nat in
  ∃ s', @schedule_next_instance (steady_env 1000 0) 1%nat s = Ok (tt, s') ∧
        alarms s' = Some [2%nat; 1%nat] ∧
        pending_sorted (heap s') [2%nat; 1%nat].
Proof.
  intros a b s.
  assert (Hrun : ∃ s', @schedule_next_instance (steady_env 1000 0) 1%nat s
                       = Ok (tt, s') ∧ alarms s' = Some [2%nat; 1%nat]).
  { eexists. split; vm_compute; reflexivity. }
  destruct Hrun as (s' & Hrun & Hal).
  destruct (@schedule_next_instance_keeps_order (steady_env 1000 0)
              1%nat a [1%nat; 2%nat] s s')
    as (l1 & l2 & Hal' & _ & Hsorted & _).
  - reflexivity.
  - reflexivity.
  - apply NoDup_cons. split.
    + intros Hin. apply elem_of_cons in Hin as [Heq|Hin]; [discriminate|].
      apply elem_of_nil in Hin. exact Hin.
    + apply NoDup_singleton.
  - repeat constructor. vm_compute. discriminate.
  - left. eexists. reflexivity.
  - exact Hrun.
  - exists s'. split; [exact Hrun|]. split; [exact Hal|].
    rewrite Hal in Hal'. injection Hal' as Hal'. rewrite Hal'.
    exact Hsorted.
Defined.

(** ** A one-shot alarm re-armed on another queue *)

(** C3, the run on which the code leaves the order. After the insertion
    of the third alarm by [schedule_next_instance] the list is
    [2; 1; 3] with deadlines 1200, 0 and 1650: alarm 1 sits behind an
    alarm that is due later, and it is in the list without a callback. *)
Theorem requeued_one_shot_breaks_order :
  ∃ s, exec (@run staged_env requeue_run) initial_state = Some s ∧
       alarms s = Some [2%nat; 1%nat; 3%nat] ∧
       deadline_of (heap s) 2%nat = 1200 ∧
       deadline_of (heap s) 1%nat = 0 ∧
       deadline_of (heap s) 3%nat = 1650 ∧
       (callback <$> heap s !! 1%nat) = Some None ∧
       ¬ pending_sorted (heap s) [2%nat; 1%nat; 3%nat].
Proof.
  eexists. split; [vm_compute; reflexivity|].
  do 5 (split; [vm_compute; reflexivity|]).
  intros Hsorted. apply Sorted_inv in Hsorted as [_ Hhd].
  apply HdRel_inv in Hhd. vm_compute in Hhd. apply Hhd. reflexivity.
Qed.

(** After the run above the list holds alarms 2, 1 and 3, each once. *)
Lemma pending_list_unique_witness :
  ∃ s, @reachable staged_env s ∧ NoDup [2%nat; 1%nat; 3%nat] ∧
       alarms s = Some [2%nat; 1%nat; 3%nat].
Proof.
  destruct (exec (@run staged_env requeue_run) initial_state) as [s|] eqn:E;
    [|vm_compute in E; discriminate].
  assert (Hreach : @reachable staged_env s) by (exists requeue_run; exact E).
  assert (Hl : alarms s = Some [2%nat; 1%nat; 3%nat]).
  { vm_compute in E. injection E as <-. reflexivity. }
  exists s. split; [exact Hreach|].
  split; [|exact Hl].
  exact (proj1 (@pending_list_unique staged_env s _ Hreach Hl)).
Defined.

(** ** Runs for the further properties *)

(** After an alarm has been set 100 ms ahead the timer is armed and the
    flag says so. *)
Lemma timer_set_mirrors_settime_witness :
  ∃ s, @reachable (steady_env 1000 0) s ∧ timer_set s = true ∧
       last_settime_armed (trace s) = true.
Proof.
  pose (sts := [Client (Call_alarm_new "A");
                Client (Call_alarm_set (Some 1%nat) 100 (Some 7%nat) 0)]).
  destruct (exec (@run (steady_env 1000 0) sts) initial_state) as [s|] eqn:E;
    [|vm_compute in E; discriminate].
  assert (Hreach : @reachable (steady_env 1000 0) s) by (exists sts; exact E).
  assert (Hts : timer_set s = true).
  { vm_compute in E. injection E as <-. reflexivity. }
  exists s. split; [exact Hreach|]. split; [exact Hts|].
  rewrite <- (@timer_set_mirrors_settime (steady_env 1000 0) s Hreach).
  exact Hts.
Defined.

(** In the same run the lock has been acquired once and not released. *)
Lemma wake_lock_never_over_released_witness :
  ∃ s, @reachable (steady_env 1000 0) s ∧
       (release_calls (trace s) + 1 ≤ acquired (trace s))%nat.
Proof.
  pose (sts := [Client (Call_alarm_new "A");
                Client (Call_alarm_set (Some 1%nat) 100 (Some 7%nat) 0)]).
  destruct (exec (@run (steady_env 1000 0) sts) initial_state) as [s|] eqn:E;
    [|vm_compute in E; discriminate].
  assert (Hreach : @reachable (steady_env 1000 0) s) by (exists sts; exact E).
  assert (Hts : timer_set s = true).
  { vm_compute in E. injection E as <-. reflexivity. }
  exists s. split; [exact Hreach|].
  pose proof (proj1 (@wake_lock_never_over_released (steady_env 1000 0) s
                       Hreach)) as H.
  rewrite Hts in H. exact H.
Defined.

(** Three measurements of 3, 7 and 5 ms. *)
Lemma update_stat_accumulates_witness :
  count (measured (mk_stat 0 0 0) [3; 7; 5]) = 3 ∧
  total_ms (measured (mk_stat 0 0 0) [3; 7; 5]) = 15 ∧
  max_ms (measured (mk_stat 0 0 0) [3; 7; 5]) = 7.
Proof.
  destruct (update_stat_accumulates (mk_stat 0 0 0) [3; 7; 5])
    as (Hc & Ht & Hm).
  - simpl. lia.
  - simpl. lia.
  - rewrite Hc, Ht, Hm. vm_compute. repeat split; reflexivity.
Defined.

(** Cleanup of a service with one pending alarm; a cancellation
    afterwards fails the assertion. *)
Lemma alarm_cleanup_shuts_down_witness :
  let s := sample_state (sample_alarm false 100 1100) true [] in
  ∃ s', @alarm_cleanup s = Ok (tt, s') ∧ alarms s' = None ∧
        events_since s s' = [EvTimerDelete; EvTimerDelete] ∧
        @alarm_cancel (steady_env 1000 0) (Some 1%nat) s'
        = Abort AssertionFailed.
Proof.
  intros s.
  destruct (@alarm_cleanup_shuts_down (steady_env 1000 0) s)
    as (_ & Htotal & Hpost).
  destruct Htotal as (s' & Hrun & Hev).
  - vm_compute. eexists. reflexivity.
  - vm_compute. eexists. reflexivity.
  - destruct (Hpost s' Hrun) as (Hnone & _ & _ & _ & _ & Hcancel & _).
    exists s'. split; [exact Hrun|]. split; [exact Hnone|].
    split; [exact Hev|]. apply Hcancel.
Defined.


(** Alarm 1, pending for 1100 ms, is set again 250 ms ahead at 1000 ms. *)
Lemma alarm_set_on_queue_arms_witness :
  let a := sample_alarm false 100 1100 in
  let s := sample_state a true [] in
  ∃ s' a', @alarm_set_on_queue (steady_env 1000 0) (Some 1%nat) 250
             (Some 9%nat) 4 (Some 1%nat) s = Ok (tt, s') ∧
           heap s' !! 1%nat = Some a' ∧ callback a' = Some 9%nat ∧
           deadline a' = 1250 ∧ scheduled_count (stats a') = 1 ∧
           @alarm_is_scheduled (Some 1%nat) s' = Ok (true, s').
Proof.
  intros a s.
  destruct (@alarm_set_on_queue_arms (steady_env 1000 0) 1%nat a [1%nat] 250
              9%nat 4 1%nat s eq_refl eq_refl) as [Hpost Htotal].
  destruct Htotal as [s' Hrun].
  - vm_compute. eexists. reflexivity.
  - repeat constructor. eexists. reflexivity.
  - vm_compute. eexists. reflexivity.
  - destruct (Hpost s' Hrun)
      as ((a' & Hh & Hcb & _ & _ & _ & _ & _ & Hd & Hcount) & _ & _ & Hsched).
    exists s', a'. split; [exact Hrun|]. split; [exact Hh|].
    split; [exact Hcb|].
    split; [rewrite Hd by (try reflexivity; lia); vm_compute; reflexivity|].
    split; [rewrite Hcount; reflexivity|exact Hsched].
Defined.

(** With the clock standing still the whole interval remains. *)
Lemma remaining_after_set_witness :
  let a := sample_alarm false 100 1100 in
  let s := sample_state a true [] in
  ∃ s' s'', @alarm_set_on_queue (steady_env 1000 0) (Some 1%nat) 250
              (Some 9%nat) 4 (Some 1%nat) s = Ok (tt, s') ∧
            @alarm_get_remaining_ms (steady_env 1000 0) (Some 1%nat) s'
            = Ok (250, s'').
Proof.
  intros a s.
  destruct (@alarm_set_on_queue (steady_env 1000 0) (Some 1%nat) 250
              (Some 9%nat) 4 (Some 1%nat) s) as [[[] s']|] eqn:E;
    [|vm_compute in E; discriminate].
  destruct (@remaining_after_set (steady_env 1000 0) 1%nat a [1%nat] 250
              9%nat 4 1%nat s s' eq_refl eq_refl eq_refl) as [Hrem _].
  - lia.
  - vm_compute. reflexivity.
  - exact E.
  - exists s', (with_ticks (S (ticks s')) s'). split; [reflexivity|].
    etransitivity; [exact Hrem|]. reflexivity.
Defined.

(** Unregistering queue 1 cancels alarm 1, the only pending alarm. *)
Lemma alarm_unregister_processing_queue_witness :
  let a := sample_alarm false 100 1100 in
  let s := sample_state a true [] in
  ∃ s', @alarm_unregister_processing_queue (steady_env 1000 0) (Some 1%nat) s
        = Ok (tt, s') ∧
        alarms s' = Some [] ∧ heap s' !! 1%nat = Some (cancelled a).
Proof.
  intros a s.
  assert (Hnd : NoDup [1%nat]) by (repeat constructor; inversion 1).
  destruct (@alarm_unregister_processing_queue_cancels (steady_env 1000 0)
              1%nat [1%nat] s eq_refl Hnd) as [Hpost Htotal].
  destruct Htotal as [s' Hrun].
  - repeat constructor. eexists. reflexivity.
  - vm_compute. eexists. reflexivity.
  - vm_compute. eexists. reflexivity.
  - destruct (Hpost s' Hrun) as (Hal & Hcancelled & _).
    exists s'. split; [exact Hrun|]. split; [exact Hal|].
    apply Hcancelled; [left|reflexivity|reflexivity].
Defined.


(** Alarm 1 waits in queue 1 when it is cancelled: the handler then finds
    the queue empty. *)
Lemma cancelled_alarm_is_not_serviced_witness :
  let a := sample_alarm false 100 1100 in
  let s := sample_state a true [1%nat] in
  ∃ s', @alarm_cancel (steady_env 1000 0) (Some 1%nat) s = Ok (tt, s') ∧
        queues s' !! 1%nat = Some [] ∧
        @alarm_queue_ready (steady_env 1000 0) (Some 1%nat) s' = Ok (tt, s').
Proof.
  intros a s.
  destruct (@alarm_cancel (steady_env 1000 0) (Some 1%nat) s)
    as [[[] s']|] eqn:E; [|vm_compute in E; discriminate].
  destruct (@cancelled_alarm_is_not_serviced (steady_env 1000 0) 1%nat a
              1%nat [1%nat] s s' eq_refl eq_refl eq_refl E)
    as (Hq & _ & Hready).
  exists s'. split; [reflexivity|]. split; [exact Hq|].
  apply Hready. repeat constructor.
Defined.

(** Freeing the pending alarm 1. *)
Lemma alarm_free_forgets_witness :
  let a := sample_alarm false 100 1100 in
  let s := sample_state a true [] in
  ∃ s', @alarm_free (steady_env 1000 0) (Some 1%nat) s = Ok (tt, s') ∧
        heap s' !! 1%nat = None ∧ alarms s' = Some [].
Proof.
  intros a s.
  assert (Hnd : NoDup [1%nat]) by (repeat constructor; inversion 1).
  destruct (@alarm_free_forgets (steady_env 1000 0) 1%nat a [1%nat] s
              eq_refl Hnd eq_refl) as [Hpost Htotal].
  destruct Htotal as [s' Hrun].
  - intros q Hq. injection Hq as <-. eexists. reflexivity.
  - repeat constructor. eexists. reflexivity.
  - eexists. reflexivity.
  - destruct (Hpost s' Hrun) as (Hh & Hal & _).
    exists s'. split; [exact Hrun|].
    split; [rewrite Hh; reflexivity|exact Hal].
Defined.

(** One run of the handler on a queue that holds alarm 1 runs one
    callback. *)
Lemma callbacks_run_only_in_queue_handler_witness :
  let s := sample_state (sample_alarm false 100 1100) true [1%nat] in
  ∃ s', @alarm_queue_ready (steady_env 1000 0) (Some 1%nat) s = Ok (tt, s') ∧
        callbacks_run s' = 1%nat.
Proof.
  intros s.
  destruct (@alarm_queue_ready (steady_env 1000 0) (Some 1%nat) s)
    as [[[] s']|] eqn:E; [|vm_compute in E; discriminate].
  exists s'. split; [reflexivity|].
  destruct (@callbacks_run_only_in_queue_handler (steady_env 1000 0))
    as (_ & _ & _ & H).
  rewrite (H 1%nat [1%nat] s s' eq_refl E). reflexivity.
Defined.

(** The handler services the one-shot alarm 1: callback 7 runs on its
    data and the alarm is left without callback. *)
Lemma alarm_queue_ready_outcome_witness :
  let a := sample_alarm false 100 1100 in
  let s := sample_state a true [1%nat] in
  ∃ s' a', @alarm_queue_ready (steady_env 1000 0) (Some 1%nat) s
           = Ok (tt, s') ∧
           events_since s s' = [EvCallback 7%nat 5] ∧
           heap s' !! 1%nat = Some a' ∧ callback a' = None.
Proof.
  intros a s.
  destruct (@alarm_queue_ready_outcome (steady_env 1000 0) 1%nat s)
    as [_ H].
  specialize (H 1%nat [] a eq_refl eq_refl ltac:(eexists; reflexivity)).
  simpl in H. specialize (H eq_refl).
  destruct H as (s' & a' & Hrun & Hev & _ & _ & Hh & Hcb & _).
  exists s', a'. auto.
Defined.

(** The timer is armed for 1100 ms at 1000 ms but reads as disarmed: the
    semaphore goes from 0 to 1. *)
Lemma disarmed_timer_wakes_dispatcher_witness :
  let next := sample_alarm false 100 1100 in
  let s := sample_state next true [] in
  ∃ s', @reschedule_root_alarm (overdue_env 1000) s = Ok (tt, s') ∧
        alarm_expired s' = Some 1%nat.
Proof.
  intros next s.
  destruct (@disarmed_timer_wakes_dispatcher (overdue_env 1000) s 1%nat []
              next 0%nat eq_refl eq_refl eq_refl)
    as (s' & Hrun & _ & Hsem & _).
  - vm_compute. reflexivity.
  - discriminate.
  - left. reflexivity.
  - exists s'. split; [exact Hrun|]. exact Hsem.
Defined.

(** The front alarm has deadline 0 and the lock is free. *)
Lemma zero_deadline_acquire_witness :
  let next := sample_alarm false 100 0 in
  let s := sample_state next false [] in
  ∃ s', @reschedule_root_alarm (steady_env 1000 0) s = Ok (tt, s') ∧
        timer_set s' = false ∧ acquired (trace s') = 1%nat ∧
        release_calls (trace s') = 0%nat.
Proof.
  intros next s.
  destruct (@zero_deadline_acquire_is_not_recorded (steady_env 1000 0) s
              1%nat [] next eq_refl eq_refl eq_refl eq_refl)
    as (s' & Hrun & _ & Hts & Hacq & Hrel & _).
  - vm_compute. reflexivity.
  - reflexivity.
  - exists s'. split; [exact Hrun|]. split; [exact Hts|].
    split; [rewrite Hacq; reflexivity|rewrite Hrel; reflexivity].
Defined.



